(** * CommonTokenStream: a buffered, channel-aware token stream

    A shallow embedding of the Go type [CommonTokenStream] (package [antlr])
    and of its methods, followed by the properties of the buffer, of the
    channel-aware navigation, of the hidden-token queries and of the text
    reconstruction.

    Conventions of the embedding.
    - Go's [int] is modelled by [Z]: the integers the stream computes are
      buffer positions, buffer lengths and differences of the two, the buffer
      is far shorter than the range of [int], and an argument is taken far
      enough from the two ends of that range for no sum to wrap around.
    - A slice [[]Token] is a [list Token]; [c.tokens[i]] panics when [i] is
      negative or not below the length, which [tokenAt] writes out.
    - A method with receiver [c *CommonTokenStream] is a function from the
      stream before the call to either a result together with the stream
      after the call, or a panic.
    - A [nil] token is [None]; a [nil] slice is the empty list.
    - The [PortDebug] branches only print and are left out. *)

From Stdlib Require Import ZArith String List Bool Lia.
Import ListNotations.
Local Open Scope Z_scope.

(** ** Tokens and token sources *)

(** Modelled from the spec: the [Token] interface is declared in other
    files of the package.  The stream reads the type, the channel, the text and the
    buffer index of a token and writes the buffer index. *)
Record Token : Type := mkToken {
  GetTokenType : Z;
  GetChannel : Z;
  GetText : string;
  GetTokenIndex : Z
}.

Definition SetTokenIndex (t : Token) (v : Z) : Token :=
  mkToken (GetTokenType t) (GetChannel t) (GetText t) v.

(** Modelled from the spec: the [TokenSource] interface is declared in other
    files of the package.  A source produces the next token on request and, once
    exhausted, emits the same terminal end marker forever.  [pending] is what
    the source still has to produce before its end marker; [eofChannel] and
    [eofText] are the channel and the text of that marker.  Each call yields a
    token of its own, so a token is held by value. *)
Record TokenSource : Type := mkSource {
  pending : list Token;
  eofChannel : Z;
  eofText : string
}.

(** ** The stream *)

Record CommonTokenStream : Type := mkStream {
  tokenSource : TokenSource;
  tokens : list Token;
  index : Z;
  fetchedEOF : bool;
  channel : Z
}.

Definition set_index (v : Z) (c : CommonTokenStream) : CommonTokenStream :=
  mkStream (tokenSource c) (tokens c) v (fetchedEOF c) (channel c).

Definition set_fetchedEOF (v : bool) (c : CommonTokenStream)
  : CommonTokenStream :=
  mkStream (tokenSource c) (tokens c) (index c) v (channel c).

(** The ways a call can panic: an index expression out of range, the two
    explicit [panic] calls, a method call on a [nil] token, and the bound of
    a loop of the embedding being reached. *)
Inductive panic : Type :=
| IndexOutOfRange
| CannotConsumeEOF
| NotInRange (i hi : Z)
| NilDereference
| OutOfFuel.

Inductive outcome (A : Type) : Type :=
| Ok (a : A) (c : CommonTokenStream)
| Panic (p : panic).

Arguments Ok {A} a c.
Arguments Panic {A} p.

Definition M (A : Type) : Type := CommonTokenStream -> outcome A.

Definition ret {A} (a : A) : M A := fun c => Ok a c.

Definition bind {A B} (m : M A) (k : A -> M B) : M B :=
  fun c => match m c with
           | Ok a c' => k a c'
           | Panic p => Panic p
           end.

Definition throw {A} (p : panic) : M A := fun _ => Panic p.

Notation "x <- m ;; k" := (bind m (fun x => k))
  (at level 61, m at next level, right associativity).
Notation "m ;;; k" := (bind m (fun _ => k))
  (at level 61, right associativity).

Definition getIndex : M Z := fun c => Ok (index c) c.
Definition putIndex (v : Z) : M unit := fun c => Ok tt (set_index v c).
Definition getFetchedEOF : M bool := fun c => Ok (fetchedEOF c) c.
Definition getChannel : M Z := fun c => Ok (channel c) c.

(** [len(c.tokens)] *)
Definition size (c : CommonTokenStream) : Z := Z.of_nat (length (tokens c)).
Definition len : M Z := fun c => Ok (size c) c.

(** [l[i]] of a slice *)
Definition at_index (l : list Token) (i : Z) : option Token :=
  if i <? 0 then None else nth_error l (Z.to_nat i).

(** [c.tokens[i]] *)
Definition tokenAt (i : Z) : M Token :=
  fun c => match at_index (tokens c) i with
           | Some t => Ok t c
           | None => Panic IndexOutOfRange
           end.

(** ** Sample inputs *)

(** A token as a source hands it out, its buffer index not yet assigned. *)
Definition tok (ty chan : Z) (s : string) : Token := mkToken ty chan s (-1).

(** Three tokens of texts ["a"], ["b"] and ["c"] on channel 0. *)
Definition abc_source : TokenSource :=
  mkSource [tok 1 0 "a"; tok 1 0 "b"; tok 1 0 "c"] 0 "<EOF>".

(** Four tokens on the channels 0, 1, 1 and 0, and an end marker on
    channel 0. *)
Definition hidden_source (x0 x1 x2 x3 etxt : string) : TokenSource :=
  mkSource [tok 1 0 x0; tok 2 1 x1; tok 2 1 x2; tok 1 0 x3] 0 etxt.

Section Stream.

(** The reserved end-of-stream token type and the default channel are
    constants of the package declared in other files of the package. *)
Variable TokenEOF : Z.
Variable LexerDefaultTokenChannel : Z.

(** Modelled from the spec: [NextToken] of the external token source. *)
Definition NextToken (s : TokenSource) : Token * TokenSource :=
  match pending s with
  | t :: rest => (t, mkSource rest (eofChannel s) (eofText s))
  | [] => (mkToken TokenEOF (eofChannel s) (eofText s) (-1), s)
  end.

Definition NewCommonTokenStream (lexer : TokenSource) (chan : Z)
  : CommonTokenStream :=
  mkStream lexer [] (-1) false chan.

Definition GetAllTokens : M (list Token) := fun c => Ok (tokens c) c.

Definition Mark : M Z := ret 0.

Definition Release (marker : Z) : M unit := ret tt.

(** The body of the loop of [fetch] up to its test: the next token of the
    source gets the buffer length as its index and is appended. *)
Definition append_next (c : CommonTokenStream) : Token * CommonTokenStream :=
  let (t, src) := NextToken (tokenSource c) in
  let t := SetTokenIndex t (size c) in
  (t, mkStream src (tokens c ++ [t]) (index c) (fetchedEOF c) (channel c)).

(** The loop of [fetch]; [k] turns are left and [i] is the loop counter. *)
Fixpoint fetch_loop (n : Z) (k : nat) (i : Z) : M Z :=
  fun c =>
    match k with
    | O => Ok n c
    | S k' =>
        let (t, c') := append_next c in
        if GetTokenType t =? TokenEOF
        then Ok (i + 1) (set_fetchedEOF true c')
        else fetch_loop n k' (i + 1) c'
    end.

Definition fetch (n : Z) : M Z :=
  fun c => if fetchedEOF c then Ok 0 c else fetch_loop n (Z.to_nat n) 0 c.

Definition Sync (i : Z) : M bool :=
  sz <- len ;;
  let n := i - sz + 1 in
  if n >? 0 then
    fetched <- fetch n ;;
    ret (fetched >=? n)
  else ret true.

(** A bound on the turns of the forward scan: what is buffered, what the
    source still holds, and its end marker. *)
Definition scan_fuel (c : CommonTokenStream) : nat :=
  (length (tokens c) + length (pending (tokenSource c)) + 2)%nat.

(** The loop of [NextTokenOnChannel]. *)
Fixpoint scan_forward (fuel : nat) (i : Z) (token : Token) : M Z :=
  match fuel with
  | O => throw OutOfFuel
  | S fuel' =>
      chan <- getChannel ;;
      if negb (GetChannel token =? chan) then
        if GetTokenType token =? TokenEOF then ret (-1)
        else
          let i := i + 1 in
          Sync i ;;;
          token <- tokenAt i ;;
          scan_forward fuel' i token
      else ret i
  end.

(** The parameter [chan] is not read: the scan is for the channel of the
    stream. *)
Definition NextTokenOnChannel (i chan : Z) : M Z :=
  Sync i ;;;
  sz <- len ;;
  if i >=? sz then ret (-1)
  else
    token <- tokenAt i ;;
    fun c => scan_forward (scan_fuel c) i token c.

Definition adjustSeekIndex (i : Z) : M Z :=
  chan <- getChannel ;;
  NextTokenOnChannel i chan.

Definition setup : M unit :=
  Sync 0 ;;;
  i <- adjustSeekIndex 0 ;;
  putIndex i.

Definition lazyInit : M unit :=
  i <- getIndex ;;
  if i =? -1 then setup else ret tt.

(** The loop of [GetTokens]; [k] turns are left.  The set [types] is [None]
    when [nil] and its membership test otherwise, the type of interval sets
    being declared in other files of the package. *)
Fixpoint tokens_loop (k : nat) (i : Z) (types : option (Z -> bool))
  (subset : list Token) : M (list Token) :=
  match k with
  | O => ret subset
  | S k' =>
      t <- tokenAt i ;;
      if GetTokenType t =? TokenEOF then ret subset
      else
        let subset :=
          match types with
          | None => subset ++ [t]
          | Some contains =>
              if contains (GetTokenType t) then subset ++ [t] else subset
          end in
        tokens_loop k' (i + 1) types subset
  end.

Definition GetTokens (start stop : Z) (types : option (Z -> bool))
  : M (list Token) :=
  if (start <? 0) || (stop <? 0) then ret []
  else
    lazyInit ;;;
    sz <- len ;;
    let stop := if stop >=? sz then sz - 1 else stop in
    tokens_loop (Z.to_nat (stop - start)) start types [].

Definition GetTokenSource : M TokenSource := fun c => Ok (tokenSource c) c.

Definition Seek (i : Z) : M unit :=
  lazyInit ;;;
  i' <- adjustSeekIndex i ;;
  putIndex i'.

Definition reset : M unit := Seek 0.

Definition Get (i : Z) : M Token :=
  lazyInit ;;;
  tokenAt i.

Definition Size : M Z := len.

Definition Index : M Z := getIndex.

Definition SetTokenSource (src : TokenSource) : M unit :=
  fun c => Ok tt (mkStream src [] (-1) (fetchedEOF c) (channel c)).

(** The loop of [previousTokenOnChannel]; at most [i + 1] turns. *)
Fixpoint scan_backward (k : nat) (i chan : Z) : M Z :=
  match k with
  | O => ret i
  | S k' =>
      if i >=? 0 then
        t <- tokenAt i ;;
        if negb (GetChannel t =? chan) then scan_backward k' (i - 1) chan
        else ret i
      else ret i
  end.

Definition previousTokenOnChannel (i chan : Z) : M Z :=
  scan_backward (Z.to_nat (i + 1)) i chan.

(** The loop of [LB]: [k] turns, each one step back on the channel. *)
Fixpoint LB_loop (k : nat) (i : Z) : M Z :=
  match k with
  | O => ret i
  | S k' =>
      chan <- getChannel ;;
      i <- previousTokenOnChannel (i - 1) chan ;;
      LB_loop k' i
  end.

Definition LB (k : Z) : M (option Token) :=
  idx <- getIndex ;;
  if (k =? 0) || (idx - k <? 0) then ret None
  else
    i <- LB_loop (Z.to_nat k) idx ;;
    if i <? 0 then ret None
    else t <- tokenAt i ;; ret (Some t).

(** The loop of [LT]: [k - 1] turns. *)
Fixpoint LT_loop (k : nat) (i : Z) : M Z :=
  match k with
  | O => ret i
  | S k' =>
      ok <- Sync (i + 1) ;;
      i <- (if ok : bool then
              chan <- getChannel ;; NextTokenOnChannel (i + 1) chan
            else ret i) ;;
      LT_loop k' i
  end.

Definition LT (k : Z) : M (option Token) :=
  lazyInit ;;;
  if k =? 0 then ret None
  else if k <? 0 then LB (- k)
  else
    idx <- getIndex ;;
    i <- LT_loop (Z.to_nat (k - 1)) idx ;;
    t <- tokenAt i ;;
    ret (Some t).

Definition LA (i : Z) : M Z :=
  t <- LT i ;;
  match t with
  | Some t => ret (GetTokenType t)
  | None => throw NilDereference
  end.

Definition Consume : M unit :=
  idx <- getIndex ;;
  eof <- getFetchedEOF ;;
  sz <- len ;;
  let SkipEofCheck :=
    if idx >=? 0 then
      if eof : bool then idx <? sz - 1 else idx <? sz
    else false in
  (if negb SkipEofCheck then
     la <- LA 1 ;;
     if la =? TokenEOF then throw CannotConsumeEOF else ret tt
   else ret tt) ;;;
  idx <- getIndex ;;
  ok <- Sync (idx + 1) ;;
  if ok : bool then
    i <- adjustSeekIndex (idx + 1) ;;
    putIndex i
  else ret tt.

(** The loop of [filterForChannel]; [k] turns are left. *)
Fixpoint filter_loop (k : nat) (i chan : Z) (hidden : list Token)
  : M (list Token) :=
  match k with
  | O => ret hidden
  | S k' =>
      t <- tokenAt i ;;
      let hidden :=
        if chan =? -1 then
          if negb (GetChannel t =? LexerDefaultTokenChannel)
          then hidden ++ [t] else hidden
        else if GetChannel t =? chan then hidden ++ [t] else hidden in
      filter_loop k' (i + 1) chan hidden
  end.

Definition filterForChannel (left right chan : Z) : M (list Token) :=
  filter_loop (Z.to_nat (right + 1 - left)) left chan [].

Definition getHiddenTokensToRight (tokenIndex chan : Z) : M (list Token) :=
  lazyInit ;;;
  sz <- len ;;
  if (tokenIndex <? 0) || (tokenIndex >=? sz)
  then throw (NotInRange tokenIndex (sz - 1))
  else
    nextOnChannel <- NextTokenOnChannel (tokenIndex + 1)
                                        LexerDefaultTokenChannel ;;
    let from_ := tokenIndex + 1 in
    sz <- len ;;
    let to := if nextOnChannel =? -1 then sz - 1 else nextOnChannel in
    filterForChannel from_ to chan.

Definition getHiddenTokensToLeft (tokenIndex chan : Z) : M (list Token) :=
  lazyInit ;;;
  sz <- len ;;
  if (tokenIndex <? 0) || (tokenIndex >=? sz)
  then throw (NotInRange tokenIndex (sz - 1))
  else
    prevOnChannel <- previousTokenOnChannel (tokenIndex - 1)
                                            LexerDefaultTokenChannel ;;
    if prevOnChannel =? tokenIndex - 1 then ret []
    else
      let from_ := prevOnChannel + 1 in
      let to := tokenIndex - 1 in
      filterForChannel from_ to chan.

(** A bound on the turns of the loop of [Fill]. *)
Definition fill_fuel (c : CommonTokenStream) : nat :=
  (length (pending (tokenSource c)) + 2)%nat.

Fixpoint fill_loop (fuel : nat) : M unit :=
  match fuel with
  | O => throw OutOfFuel
  | S fuel' =>
      n <- fetch 1000 ;;
      if n =? 1000 then fill_loop fuel' else ret tt
  end.

Definition Fill : M unit :=
  lazyInit ;;;
  fun c => fill_loop (fill_fuel c) c.

(** The loop of [GetTextFromInterval]; [k] turns are left. *)
Fixpoint text_loop (k : nat) (i : Z) (s : string) : M string :=
  match k with
  | O => ret s
  | S k' =>
      t <- tokenAt i ;;
      if GetTokenType t =? TokenEOF then ret s
      else text_loop k' (i + 1) (s ++ GetText t)%string
  end.

(** [interval] is [None] for a [nil] interval and the pair of its [start]
    and [stop] otherwise. *)
Definition GetTextFromInterval (interval : option (Z * Z)) : M string :=
  lazyInit ;;;
  Fill ;;;
  sz <- len ;;
  let interval :=
    match interval with
    | None => (0, sz - 1)
    | Some iv => iv
    end in
  let start := fst interval in
  let stop := snd interval in
  if (start <? 0) || (stop <? 0) then ret EmptyString
  else
    let stop := if stop >=? sz then sz - 1 else stop in
    text_loop (Z.to_nat (stop + 1 - start)) start EmptyString.

Definition GetAllText : M string := GetTextFromInterval None.

Definition GetTextFromTokens (start stop : option Token) : M string :=
  match start, stop with
  | Some start, Some stop =>
      GetTextFromInterval (Some (GetTokenIndex start, GetTokenIndex stop))
  | _, _ => ret EmptyString
  end.

(** The loop of [getNumberOfOnChannelTokens]; [k] turns are left. *)
Fixpoint count_loop (k : nat) (i n : Z) : M Z :=
  match k with
  | O => ret n
  | S k' =>
      t <- tokenAt i ;;
      chan <- getChannel ;;
      let n := if GetChannel t =? chan then n + 1 else n in
      if GetTokenType t =? TokenEOF then ret n
      else count_loop k' (i + 1) n
  end.

Definition getNumberOfOnChannelTokens : M Z :=
  Fill ;;;
  sz <- len ;;
  count_loop (Z.to_nat sz) 0 0.

(** ** Operations as data

    The operations of the stream that fetch, synchronise, fill, navigate or
    query, each run for its effect on the stream. *)
Inductive operation : Type :=
| OpFetch (n : Z)
| OpSync (i : Z)
| OpFill
| OpLazyInit
| OpSetup
| OpSeek (i : Z)
| OpReset
| OpGet (i : Z)
| OpConsume
| OpLT (k : Z)
| OpLB (k : Z)
| OpLA (k : Z)
| OpNextTokenOnChannel (i chan : Z)
| OpPreviousTokenOnChannel (i chan : Z)
| OpAdjustSeekIndex (i : Z)
| OpHiddenTokensToRight (i chan : Z)
| OpHiddenTokensToLeft (i chan : Z)
| OpFilterForChannel (left right chan : Z)
| OpGetTextFromInterval (interval : option (Z * Z))
| OpGetAllText
| OpGetTextFromTokens (start stop : option Token)
| OpGetTokens (start stop : Z) (types : option (Z -> bool))
| OpGetNumberOfOnChannelTokens
| OpGetTokenSource
| OpGetAllTokens
| OpSize
| OpIndex
| OpMark
| OpRelease (marker : Z).

Definition run (o : operation) : M unit :=
  match o with
  | OpFetch n => fetch n ;;; ret tt
  | OpSync i => Sync i ;;; ret tt
  | OpFill => Fill
  | OpLazyInit => lazyInit
  | OpSetup => setup
  | OpSeek i => Seek i
  | OpReset => reset
  | OpGet i => Get i ;;; ret tt
  | OpConsume => Consume
  | OpLT k => LT k ;;; ret tt
  | OpLB k => LB k ;;; ret tt
  | OpLA k => LA k ;;; ret tt
  | OpNextTokenOnChannel i chan => NextTokenOnChannel i chan ;;; ret tt
  | OpPreviousTokenOnChannel i chan =>
      previousTokenOnChannel i chan ;;; ret tt
  | OpAdjustSeekIndex i => adjustSeekIndex i ;;; ret tt
  | OpHiddenTokensToRight i chan => getHiddenTokensToRight i chan ;;; ret tt
  | OpHiddenTokensToLeft i chan => getHiddenTokensToLeft i chan ;;; ret tt
  | OpFilterForChannel l r chan => filterForChannel l r chan ;;; ret tt
  | OpGetTextFromInterval iv => GetTextFromInterval iv ;;; ret tt
  | OpGetAllText => GetAllText ;;; ret tt
  | OpGetTextFromTokens start stop => GetTextFromTokens start stop ;;; ret tt
  | OpGetTokens start stop types => GetTokens start stop types ;;; ret tt
  | OpGetNumberOfOnChannelTokens => getNumberOfOnChannelTokens ;;; ret tt
  | OpGetTokenSource => GetTokenSource ;;; ret tt
  | OpGetAllTokens => GetAllTokens ;;; ret tt
  | OpSize => Size ;;; ret tt
  | OpIndex => Index ;;; ret tt
  | OpMark => Mark ;;; ret tt
  | OpRelease m => Release m
  end.

(** The stream an operation leaves, or the stream itself when it panics. *)
Definition after (o : operation) (c : CommonTokenStream) : CommonTokenStream :=
  match run o c with
  | Ok _ c' => c'
  | Panic _ => c
  end.

Fixpoint run_all (os : list operation) : M unit :=
  match os with
  | [] => ret tt
  | o :: os' => run o ;;; run_all os'
  end.

(** A sequence of calls of [fetch], the counts returned being dropped. *)
Fixpoint fetch_all (ns : list Z) : M unit :=
  match ns with
  | [] => ret tt
  | n :: ns' => fetch n ;;; fetch_all ns'
  end.

(** ** Invariants of the stream *)

Definition isEOF (t : Token) : Prop := GetTokenType t = TokenEOF.

Definition onChannel (c : CommonTokenStream) (t : Token) : Prop :=
  GetChannel t = channel c.

(** A buffered token is the end-of-stream token exactly when the end has
    been fetched and the token is the last of the buffer. *)
Definition eof_inv (c : CommonTokenStream) : Prop :=
  forall (j : nat) (t : Token),
    nth_error (tokens c) j = Some t ->
    (isEOF t <-> fetchedEOF c = true /\ S j = length (tokens c)).

(** [buffer[i].tokenIndex == i] *)
Definition indexed (c : CommonTokenStream) : Prop :=
  forall (j : nat) (t : Token),
    nth_error (tokens c) j = Some t -> GetTokenIndex t = Z.of_nat j.

(** A cursor value is uninitialised or refers to a buffered token on the
    channel of the stream. *)
Definition valid_cursor (v : Z) (c : CommonTokenStream) : Prop :=
  v = -1 \/ exists t, at_index (tokens c) v = Some t /\ onChannel c t.

Definition cursor_inv (c : CommonTokenStream) : Prop :=
  valid_cursor (index c) c.

Definition wf (c : CommonTokenStream) : Prop :=
  eof_inv c /\ indexed c /\ cursor_inv c.

(** One turn of the loop of [fetch] as a whole. *)
Definition push_one (c : CommonTokenStream) : CommonTokenStream :=
  let (t, c') := append_next c in
  if GetTokenType t =? TokenEOF then set_fetchedEOF true c' else c'.

(** [ext c c']: the stream [c'] is [c] after some tokens were fetched and the
    cursor was moved, to valid places, some number of times. *)
Inductive ext (c : CommonTokenStream) : CommonTokenStream -> Prop :=
| ext_refl : ext c c
| ext_index c' v : ext c c' -> valid_cursor v c' -> ext c (set_index v c')
| ext_push c' : ext c c' -> fetchedEOF c' = false -> ext c (push_one c').

(** The streams a client can get: a new stream, and any stream got from one
    by an operation that returned or by rebinding it to another source. *)
Inductive reachable : CommonTokenStream -> Prop :=
| reach_new lexer chan : reachable (NewCommonTokenStream lexer chan)
| reach_run o c c' : reachable c -> run o c = Ok tt c' -> reachable c'
| reach_rebind src c c' :
    reachable c -> SetTokenSource src c = Ok tt c' -> reachable c'.

(** The value of [SkipEofCheck] in [Consume]. *)
Definition skipEofCheck (c : CommonTokenStream) : bool :=
  if index c >=? 0 then
    if fetchedEOF c then index c <? size c - 1 else index c <? size c
  else false.

(** [Consume] after its check: the cursor moves to the next token on the
    channel. *)
Definition advance : M unit :=
  idx <- getIndex ;;
  ok <- Sync (idx + 1) ;;
  if ok : bool then
    i <- adjustSeekIndex (idx + 1) ;;
    putIndex i
  else ret tt.

(** A computation whose loops are given turns enough: from a stream that
    meets the invariant of the end-of-stream token it does not reach the bound
    of a loop of the embedding, and it leaves such a stream. *)
Definition bounded {A} (m : M A) : Prop :=
  forall c,
    eof_inv c ->
    m c <> Panic OutOfFuel /\
    forall a c', m c = Ok a c' -> eof_inv c'.

(** Every end-of-stream token, buffered or still to come from the source,
    is on the channel of the stream. *)
Definition eof_on_channel (c : CommonTokenStream) : Prop :=
  (forall t, In t (tokens c) -> isEOF t -> onChannel c t) /\
  (fetchedEOF c = false ->
   (forall t, In t (pending (tokenSource c)) -> isEOF t -> onChannel c t) /\
   eofChannel (tokenSource c) = channel c).

(** The stream is not one rebound after its end was fetched: with the end
    fetched, the buffer is not empty. *)
Definition live (c : CommonTokenStream) : Prop :=
  fetchedEOF c = true -> tokens c <> [].

(** What the buffer can still grow to. *)
Definition potential (c : CommonTokenStream) : nat :=
  (length (tokens c) +
   if fetchedEOF c then 0 else S (length (pending (tokenSource c))))%nat.

(** No token at or after position [i] of the buffer is on the channel. *)
Definition none_on_channel_from (i : Z) (c : CommonTokenStream) : Prop :=
  forall (j : Z) (t : Token),
    i <= j -> at_index (tokens c) j = Some t -> ~ onChannel c t.

(** No token at a position from [i] to just before [r] is on the channel. *)
Definition none_on_channel_between (i r : Z) (c : CommonTokenStream) : Prop :=
  forall (j : Z) (t : Token),
    i <= j < r -> at_index (tokens c) j = Some t -> ~ onChannel c t.

(** What [NextTokenOnChannel i] answers with, on the stream [c'] it leaves:
    [-1] when the end has been fetched and nothing from [i] on is on the
    channel, and otherwise the first position from [i] on whose token is on
    the channel. *)
Definition scan_result (i r : Z) (c' : CommonTokenStream) : Prop :=
  (r = -1 /\ fetchedEOF c' = true /\ none_on_channel_from i c') \/
  (i <= r /\ (exists t, at_index (tokens c') r = Some t /\ onChannel c' t) /\
   none_on_channel_between i r c').

(** The test of [filterForChannel]. *)
Definition admits (chan : Z) (t : Token) : bool :=
  if chan =? -1 then negb (GetChannel t =? LexerDefaultTokenChannel)
  else GetChannel t =? chan.

(** The tokens of a slice at positions [lo], ..., [hi]. *)
Definition slice (l : list Token) (lo hi : Z) : list Token :=
  firstn (Z.to_nat (hi + 1 - lo)) (skipn (Z.to_nat lo) l).

(** The longest prefix without an end-of-stream token. *)
Fixpoint before_eof (l : list Token) : list Token :=
  match l with
  | [] => []
  | t :: l' => if GetTokenType t =? TokenEOF then [] else t :: before_eof l'
  end.

Definition concat_text (l : list Token) : string :=
  fold_left (fun s t => (s ++ GetText t)%string) l EmptyString.

(** The tokens of [l] with the buffer indices [n], [n + 1], ... *)
Fixpoint number_from (n : nat) (l : list Token) : list Token :=
  match l with
  | [] => []
  | t :: l' => SetTokenIndex t (Z.of_nat n) :: number_from (S n) l'
  end.

(** The text of the input: what the buffer holds before its end-of-stream
    token, and what the source still holds before its own. *)
Definition unread_text (c : CommonTokenStream) : string :=
  if fetchedEOF c then EmptyString
  else concat_text (before_eof (pending (tokenSource c))).

Definition whole_text (c : CommonTokenStream) : string :=
  (concat_text (before_eof (tokens c)) ++ unread_text c)%string.

(** The text [GetTextFromInterval] answers with, in terms of the buffer
    [l] it leaves. *)
Definition interval_text (l : list Token) (start stop : Z) : string :=
  if (start <? 0) || (stop <? 0) then EmptyString
  else
    concat_text
      (before_eof (slice l start (Z.min stop (Z.of_nat (length l) - 1)))).

(** What a source produces from now on: what it still holds and then its end
    marker. *)
Definition upcoming (s : TokenSource) : list Token :=
  pending s ++ [mkToken TokenEOF (eofChannel s) (eofText s) (-1)].

(** The tokens of a list up to and with its first end-of-stream token. *)
Fixpoint upto_eof (l : list Token) : list Token :=
  match l with
  | [] => []
  | t :: l' => if GetTokenType t =? TokenEOF then [t] else t :: upto_eof l'
  end.

(** The test of [GetTokens] on a token: [types == nil ||
    types.contains(t.GetTokenType())]. *)
Definition types_admit (types : option (Z -> bool)) (t : Token) : bool :=
  match types with
  | None => true
  | Some contains => contains (GetTokenType t)
  end.

(** The test of [getNumberOfOnChannelTokens] on a token. *)
Definition on_channel_b (chan : Z) (t : Token) : bool := GetChannel t =? chan.

(** ** Basic facts *)

Lemma bind_Ok {A B} (m : M A) (k : A -> M B) c b c' :
  bind m k c = Ok b c' ->
  exists a c1, m c = Ok a c1 /\ k a c1 = Ok b c'.
Proof.
  unfold bind. destruct (m c) as [a c1|p]; [eauto | discriminate].
Qed.

Lemma bind_eq {A B} (m : M A) (k : A -> M B) c a c1 :
  m c = Ok a c1 -> bind m k c = k a c1.
Proof. unfold bind. intros ->. reflexivity. Qed.

Lemma at_index_Some l i t :
  at_index l i = Some t -> 0 <= i < Z.of_nat (length l).
Proof.
  unfold at_index. destruct (Z.ltb_spec i 0); [discriminate|].
  intros H1. assert (Z.to_nat i < length l)%nat.
  { apply nth_error_Some. congruence. }
  lia.
Qed.

Lemma at_index_nth l i t :
  at_index l i = Some t -> nth_error l (Z.to_nat i) = Some t.
Proof. unfold at_index. destruct (i <? 0); [discriminate | auto]. Qed.

Lemma nth_at_index l (j : nat) :
  at_index l (Z.of_nat j) = nth_error l j.
Proof.
  unfold at_index. destruct (Z.ltb_spec (Z.of_nat j) 0); [lia|].
  now rewrite Nat2Z.id.
Qed.

Lemma at_index_in_range l i :
  0 <= i < Z.of_nat (length l) -> exists t, at_index l i = Some t.
Proof.
  intros H. unfold at_index. destruct (Z.ltb_spec i 0); [lia|].
  destruct (nth_error l (Z.to_nat i)) eqn:E; [eauto|].
  apply nth_error_None in E. lia.
Qed.

Lemma at_index_None l i :
  at_index l i = None -> i < 0 \/ Z.of_nat (length l) <= i.
Proof.
  unfold at_index. destruct (Z.ltb_spec i 0); [auto|].
  intros E. apply nth_error_None in E. lia.
Qed.

Lemma at_index_app_l l l' i t :
  at_index l i = Some t -> at_index (l ++ l') i = Some t.
Proof.
  intros H. pose proof (at_index_Some _ _ _ H) as Hr.
  unfold at_index in *. destruct (i <? 0); [discriminate|].
  rewrite nth_error_app1; [assumption | lia].
Qed.

(** ** One fetched token *)

Lemma push_one_shape c :
  exists t,
    tokens (push_one c) = tokens c ++ [t] /\
    GetTokenIndex t = size c /\
    index (push_one c) = index c /\
    channel (push_one c) = channel c /\
    fetchedEOF (push_one c) =
      (if GetTokenType t =? TokenEOF then true else fetchedEOF c).
Proof.
  unfold push_one, append_next.
  destruct (NextToken (tokenSource c)) as [t src].
  exists (SetTokenIndex t (size c)). cbn [fst snd].
  destruct (GetTokenType (SetTokenIndex t (size c)) =? TokenEOF);
    cbn; auto.
Qed.

Lemma push_one_source c :
  fetchedEOF c = false ->
  (fetchedEOF (push_one c) = false ->
   S (length (pending (tokenSource (push_one c)))) =
   length (pending (tokenSource c))) /\
  (potential (push_one c) <= potential c)%nat.
Proof.
  intros Hc. unfold potential, push_one, append_next, NextToken.
  rewrite Hc.
  destruct (pending (tokenSource c)) as [|t rest]; cbn.
  - rewrite Z.eqb_refl. cbn. rewrite length_app. cbn. split; [discriminate | lia].
  - destruct (GetTokenType t =? TokenEOF); cbn;
      rewrite ?Hc, ?length_app; cbn; split; try discriminate; auto; lia.
Qed.

Lemma fetch_loop_unfold n k i c :
  fetchedEOF c = false ->
  fetch_loop n (S k) i c =
  if fetchedEOF (push_one c) then Ok (i + 1) (push_one c)
  else fetch_loop n k (i + 1) (push_one c).
Proof.
  intros Hc. cbn [fetch_loop]. unfold push_one.
  destruct (append_next c) as [t c'] eqn:E.
  assert (Hc' : fetchedEOF c' = false).
  { unfold append_next in E. destruct (NextToken (tokenSource c)).
    inversion E; subst. exact Hc. }
  destruct (GetTokenType t =? TokenEOF); cbn; [reflexivity|].
  now rewrite Hc'.
Qed.

(** ** The extension order *)

Lemma ext_trans c1 c2 c3 : ext c1 c2 -> ext c2 c3 -> ext c1 c3.
Proof.
  intros H12 H23. induction H23.
  - assumption.
  - now apply ext_index.
  - now apply ext_push.
Qed.

Lemma ext_channel c c' : ext c c' -> channel c' = channel c.
Proof.
  induction 1; auto.
  destruct (push_one_shape c') as (t & _ & _ & _ & Hch & _). congruence.
Qed.

Lemma ext_prefix c c' : ext c c' -> exists l, tokens c' = tokens c ++ l.
Proof.
  induction 1.
  - exists []. now rewrite app_nil_r.
  - assumption.
  - destruct IHext as [l Hl].
    destruct (push_one_shape c') as (t & Ht & _).
    exists (l ++ [t]). rewrite Ht, Hl. now rewrite app_assoc.
Qed.

Lemma ext_at_index c c' i t :
  ext c c' -> at_index (tokens c) i = Some t ->
  at_index (tokens c') i = Some t.
Proof.
  intros H Ht. destruct (ext_prefix _ _ H) as [l ->].
  now apply at_index_app_l.
Qed.

Lemma ext_size c c' : ext c c' -> size c <= size c'.
Proof.
  intros H. destruct (ext_prefix _ _ H) as [l Hl].
  unfold size. rewrite Hl, length_app. lia.
Qed.

Lemma ext_potential c c' : ext c c' -> (potential c' <= potential c)%nat.
Proof.
  induction 1; auto.
  destruct (push_one_source c' H0) as [_ Hp]. lia.
Qed.

Lemma size_le_potential c : size c <= Z.of_nat (potential c).
Proof. unfold size, potential. lia. Qed.

(** Once the end has been fetched the buffer, the flag and the source are
    settled: only the cursor can still change. *)
Lemma ext_done c c' :
  ext c c' -> fetchedEOF c = true -> c' = set_index (index c') c.
Proof.
  intros H Hc. induction H.
  - destruct c; reflexivity.
  - rewrite IHext. reflexivity.
  - rewrite IHext in H0. cbn in H0. congruence.
Qed.

Lemma ext_done_same c c' :
  ext c c' -> fetchedEOF c = true -> index c' = index c -> c' = c.
Proof.
  intros H Hc Hi. rewrite (ext_done _ _ H Hc), Hi. destruct c; reflexivity.
Qed.

Lemma ext_fetchedEOF c c' :
  ext c c' -> fetchedEOF c = true -> fetchedEOF c' = true.
Proof.
  intros H Hc. rewrite (ext_done _ _ H Hc). exact Hc.
Qed.

Lemma push_one_eof_inv c :
  fetchedEOF c = false -> eof_inv c -> eof_inv (push_one c).
Proof.
  intros Hc Hinv j t Hj.
  destruct (push_one_shape c) as (t' & Htok & _ & _ & _ & Hflag).
  rewrite Htok in *. rewrite length_app. cbn [length].
  rewrite Hflag, Hc.
  destruct (Nat.lt_ge_cases j (length (tokens c))) as [Hlt|Hge].
  - rewrite nth_error_app1 in Hj by assumption.
    specialize (Hinv j t Hj). rewrite Hc in Hinv.
    split.
    + intros He. apply Hinv in He. destruct He; discriminate.
    + intros [_ Hlen]. lia.
  - rewrite nth_error_app2 in Hj by assumption.
    destruct (j - length (tokens c))%nat as [|m] eqn:Em.
    2:{ destruct m; discriminate. }
    cbn in Hj. inversion Hj; subst t'. unfold isEOF.
    destruct (Z.eqb_spec (GetTokenType t) TokenEOF).
    + split; auto. intros _. split; auto. lia.
    + split; [contradiction|]. intros [Hd _]. discriminate.
Qed.

Lemma push_one_indexed c : indexed c -> indexed (push_one c).
Proof.
  intros Hinv j t Hj.
  destruct (push_one_shape c) as (t' & Htok & Hidx & _).
  rewrite Htok in Hj.
  destruct (Nat.lt_ge_cases j (length (tokens c))) as [Hlt|Hge].
  - rewrite nth_error_app1 in Hj by assumption. now apply Hinv.
  - rewrite nth_error_app2 in Hj by assumption.
    destruct (j - length (tokens c))%nat as [|m] eqn:Em.
    2:{ destruct m; discriminate. }
    cbn in Hj. inversion Hj; subst t'. rewrite Hidx. unfold size. lia.
Qed.

Lemma ext_eof_inv c c' : ext c c' -> eof_inv c -> eof_inv c'.
Proof.
  induction 1; intros Hc;
    [assumption | exact (IHext Hc) | apply push_one_eof_inv; auto].
Qed.

Lemma ext_indexed c c' : ext c c' -> indexed c -> indexed c'.
Proof.
  induction 1; intros Hc;
    [assumption | exact (IHext Hc) | apply push_one_indexed; auto].
Qed.

(** ** [fetch] and [Sync] *)

Lemma ext_push_one c : fetchedEOF c = false -> ext c (push_one c).
Proof. intros H. apply ext_push; [apply ext_refl | exact H]. Qed.

Lemma push_one_size c : size (push_one c) = size c + 1.
Proof.
  destruct (push_one_shape c) as (t & Ht & _).
  unfold size. rewrite Ht, length_app. cbn. lia.
Qed.

Lemma push_one_index c : index (push_one c) = index c.
Proof. destruct (push_one_shape c) as (t & _ & _ & Hi & _). exact Hi. Qed.

Lemma fetch_loop_spec n k : forall i c,
  fetchedEOF c = false ->
  exists r c',
    fetch_loop n k i c = Ok r c' /\ ext c c' /\ index c' = index c /\
    ((r = n /\ fetchedEOF c' = false /\ size c' = size c + Z.of_nat k /\
      (length (pending (tokenSource c')) + k =
       length (pending (tokenSource c)))%nat) \/
     (fetchedEOF c' = true /\ i < r <= i + Z.of_nat k /\
      size c' = size c + (r - i))).
Proof.
  induction k as [|k IH]; intros i c Hc.
  - exists n, c. cbn. repeat split; try apply ext_refl. left.
    repeat split; auto; lia.
  - rewrite fetch_loop_unfold by assumption.
    pose proof (push_one_size c) as Hsz.
    pose proof (push_one_index c) as Hidx.
    pose proof (ext_push_one c Hc) as Hext.
    destruct (fetchedEOF (push_one c)) eqn:Hp.
    + exists (i + 1), (push_one c). repeat split; auto.
      right. repeat split; auto; lia.
    + destruct (IH (i + 1) (push_one c) Hp)
        as (r & c' & Hrun & Hext' & Hidx' & Hcase).
      exists r, c'. split; [exact Hrun|].
      split; [eapply ext_trans; eassumption|].
      split; [congruence|].
      destruct (push_one_source c Hc) as [Hsrc _]. specialize (Hsrc Hp).
      destruct Hcase as [(-> & Hf & Hs & Hl)|(Hf & Hr & Hs)].
      * left. repeat split; auto; lia.
      * right. repeat split; auto; lia.
Qed.

Lemma fetch_spec n c :
  exists r c',
    fetch n c = Ok r c' /\ ext c c' /\ index c' = index c /\
    (fetchedEOF c = true -> r = 0 /\ c' = c) /\
    (fetchedEOF c = false ->
     (r = n /\ fetchedEOF c' = false /\ size c' = size c + Z.max 0 n /\
      (length (pending (tokenSource c')) + Z.to_nat n =
       length (pending (tokenSource c)))%nat) \/
     (fetchedEOF c' = true /\ 0 < r <= n /\ size c' = size c + r)).
Proof.
  unfold fetch. destruct (fetchedEOF c) eqn:Hc.
  - exists 0, c. repeat split; auto using ext_refl. discriminate.
  - destruct (fetch_loop_spec n (Z.to_nat n) 0 c Hc)
      as (r & c' & Hrun & Hext & Hidx & Hcase).
    exists r, c'. repeat split; auto; try discriminate.
    intros _. destruct Hcase as [(-> & Hf & Hs & Hl)|(Hf & Hr & Hs)].
    + left. repeat split; auto. lia.
    + right. repeat split; auto; lia.
Qed.

Lemma Sync_spec i c :
  exists b c',
    Sync i c = Ok b c' /\ ext c c' /\ index c' = index c /\
    (b = true -> i < size c') /\
    (b = false -> fetchedEOF c' = true /\ size c' <= i) /\
    (i < size c -> c' = c) /\
    (fetchedEOF c = true -> c' = c).
Proof.
  unfold Sync, bind, len, ret.
  destruct (Z.gtb_spec (i - size c + 1) 0) as [Hn|Hn].
  - destruct (fetch_spec (i - size c + 1) c)
      as (r & c' & Hrun & Hext & Hidx & Htrue & Hfalse).
    rewrite Hrun. exists (r >=? i - size c + 1), c'.
    split; [reflexivity|]. split; [assumption|]. split; [assumption|].
    assert (Hb1 : (r >=? i - size c + 1) = true -> i - size c + 1 <= r).
    { intros Hb. apply Z.geb_le in Hb. lia. }
    assert (Hb2 : (r >=? i - size c + 1) = false -> r < i - size c + 1).
    { intros Hb. rewrite Z.geb_leb in Hb. apply Z.leb_gt in Hb. lia. }
    destruct (fetchedEOF c) eqn:Hc.
    + destruct (Htrue eq_refl) as [-> ->].
      split; [intros Hb; apply Hb1 in Hb; lia|].
      split; [intros Hb; apply Hb2 in Hb; split; [assumption | lia]|].
      split; [intros; lia | reflexivity].
    + destruct (Hfalse eq_refl) as [(-> & Hf & Hs & _)|(Hf & Hr & Hs)].
      * split; [intros _; lia|].
        split; [intros Hb; apply Hb2 in Hb; lia|].
        split; [intros; lia | discriminate].
      * split; [intros Hb; apply Hb1 in Hb; lia|].
        split; [intros Hb; apply Hb2 in Hb; split; [assumption | lia]|].
        split; [intros; lia | discriminate].
  - exists true, c. repeat split; auto using ext_refl; try discriminate.
    lia.
Qed.

Lemma fetch_ext n c r c' : fetch n c = Ok r c' -> ext c c'.
Proof.
  intros H. destruct (fetch_spec n c) as (r0 & c0 & E & Hext & _).
  rewrite E in H. inversion H; subst. exact Hext.
Qed.

Lemma Sync_ext i c b c' : Sync i c = Ok b c' -> ext c c'.
Proof.
  intros H. destruct (Sync_spec i c) as (b0 & c0 & E & Hext & _).
  rewrite E in H. inversion H; subst. exact Hext.
Qed.

(** ** The forward scan *)

Lemma eof_inv_last c i t :
  eof_inv c -> at_index (tokens c) i = Some t ->
  fetchedEOF c = true -> size c <= i + 1 -> isEOF t.
Proof.
  intros Hinv Ht Hf Hs.
  pose proof (at_index_Some _ _ _ Ht) as Hr.
  apply at_index_nth in Ht. apply (Hinv _ _ Ht).
  split; [assumption|]. unfold size in Hs. lia.
Qed.

Lemma eof_inv_isEOF c i t :
  eof_inv c -> at_index (tokens c) i = Some t -> isEOF t ->
  fetchedEOF c = true /\ size c = i + 1.
Proof.
  intros Hinv Ht He.
  pose proof (at_index_Some _ _ _ Ht) as Hr.
  apply at_index_nth in Ht. apply (Hinv _ _ Ht) in He.
  destruct He as [Hf Hl]. split; [assumption|]. unfold size. lia.
Qed.

Lemma scan_forward_spec fuel : forall i token c,
  eof_inv c -> 0 <= i -> at_index (tokens c) i = Some token ->
  Z.of_nat (potential c) - i < Z.of_nat fuel ->
  exists r c',
    scan_forward fuel i token c = Ok r c' /\ ext c c' /\
    index c' = index c /\ scan_result i r c'.
Proof.
  induction fuel as [|fuel IH]; intros i token c Hinv Hi Htok Hfuel.
  - pose proof (at_index_Some _ _ _ Htok).
    pose proof (size_le_potential c). unfold size in *. lia.
  - cbn [scan_forward]. unfold bind at 1. unfold getChannel.
    destruct (Z.eqb_spec (GetChannel token) (channel c)) as [Hon|Hoff];
      cbn [negb].
    + exists i, c. repeat split; auto using ext_refl.
      right. split; [lia|]. split; [eauto|].
      intros j t Hj. lia.
    + destruct (Z.eqb_spec (GetTokenType token) TokenEOF) as [He|Hne].
      * exists (-1), c. repeat split; auto using ext_refl.
        left. split; [reflexivity|].
        destruct (eof_inv_isEOF c i token Hinv Htok He) as [Hf Hs].
        split; [assumption|].
        intros j t Hj Ht Hon.
        pose proof (at_index_Some _ _ _ Ht) as Hr. fold (size c) in Hr.
        assert (j = i) by lia. subst j.
        rewrite Htok in Ht. inversion Ht; subst. contradiction.
      * destruct (Sync_spec (i + 1) c)
          as (b & c1 & Hsync & Hext1 & Hidx1 & Hbt & Hbf & _).
        unfold bind. rewrite Hsync. unfold tokenAt.
        pose proof (ext_eof_inv _ _ Hext1 Hinv) as Hinv1.
        pose proof (ext_at_index _ _ _ _ Hext1 Htok) as Htok1.
        destruct (at_index (tokens c1) (i + 1)) as [token'|] eqn:Hnext.
        -- destruct (IH (i + 1) token' c1 Hinv1 ltac:(lia) Hnext)
             as (r & c' & Hrun & Hext' & Hidx' & Hres).
           { pose proof (ext_potential _ _ Hext1). lia. }
           exists r, c'. split; [exact Hrun|].
           split; [eapply ext_trans; eassumption|].
           split; [congruence|].
           pose proof (ext_at_index _ _ _ _ Hext' Htok1) as Htok'.
           assert (Hch : channel c' = channel c).
           { apply ext_channel. eapply ext_trans; eassumption. }
           assert (Hoff' : ~ onChannel c' token).
           { unfold onChannel. congruence. }
           destruct Hres as [(-> & Hf & Hnone)|(Hr & Hat & Hnone)].
           ++ left. repeat split; auto.
              intros j t Hj Ht. destruct (Z.eq_dec j i) as [->|Hji].
              ** rewrite Htok' in Ht. inversion Ht; subst. assumption.
              ** apply (Hnone j t); [lia | assumption].
           ++ right. split; [lia|]. split; [assumption|].
              intros j t Hj Ht. destruct (Z.eq_dec j i) as [->|Hji].
              ** rewrite Htok' in Ht. inversion Ht; subst. assumption.
              ** apply (Hnone j t); [lia | assumption].
        -- exfalso. apply at_index_None in Hnext. fold (size c1) in Hnext.
           destruct b.
           ++ specialize (Hbt eq_refl). lia.
           ++ destruct (Hbf eq_refl) as [Hf Hs].
              apply Hne. apply (eof_inv_last c1 i token); auto; lia.
Qed.

Lemma NextTokenOnChannel_spec i chan c :
  eof_inv c -> 0 <= i ->
  exists r c',
    NextTokenOnChannel i chan c = Ok r c' /\ ext c c' /\
    index c' = index c /\ scan_result i r c'.
Proof.
  intros Hinv Hi. unfold NextTokenOnChannel.
  destruct (Sync_spec i c) as (b & c1 & Hsync & Hext1 & Hidx1 & Hbt & Hbf & _).
  rewrite (bind_eq _ _ _ _ _ Hsync). unfold bind at 1. unfold len.
  pose proof (ext_eof_inv _ _ Hext1 Hinv) as Hinv1.
  destruct (Z.geb_spec i (size c1)) as [Hge|Hlt].
  - exists (-1), c1. repeat split; auto. left. split; [reflexivity|].
    destruct b; [specialize (Hbt eq_refl); lia|].
    destruct (Hbf eq_refl) as [Hf _]. split; [assumption|].
    intros j t Hj Ht. apply at_index_Some in Ht. fold (size c1) in Ht. lia.
  - destruct (at_index_in_range (tokens c1) i) as [token Htok].
    { fold (size c1). lia. }
    unfold bind, tokenAt. rewrite Htok.
    destruct (scan_forward_spec (scan_fuel c1) i token c1 Hinv1 Hi Htok)
      as (r & c' & Hrun & Hext' & Hidx' & Hres).
    { unfold scan_fuel, potential.
      destruct (fetchedEOF c1); lia. }
    exists r, c'. split; [exact Hrun|].
    split; [eapply ext_trans; eassumption|].
    split; [congruence | assumption].
Qed.

(** ** Every operation only extends the stream *)

Lemma tokenAt_Ok i c t c' :
  tokenAt i c = Ok t c' -> c' = c /\ at_index (tokens c) i = Some t.
Proof.
  unfold tokenAt. destruct (at_index (tokens c) i); [|discriminate].
  intros H. inversion H; subst. auto.
Qed.

Ltac minv :=
  repeat match goal with
  | H : bind _ _ _ = Ok _ _ |- _ =>
      apply bind_Ok in H; destruct H as (? & ? & ? & H)
  | H : ret _ _ = Ok _ _ |- _ => unfold ret in H; inversion H; subst; clear H
  | H : throw _ _ = Ok _ _ |- _ => discriminate H
  | H : Ok _ _ = Ok _ _ |- _ => inversion H; subst; clear H
  | H : Panic _ = Ok _ _ |- _ => discriminate H
  | H : getIndex _ = Ok _ _ |- _ =>
      unfold getIndex in H; inversion H; subst; clear H
  | H : putIndex _ _ = Ok _ _ |- _ =>
      unfold putIndex in H; inversion H; subst; clear H
  | H : getFetchedEOF _ = Ok _ _ |- _ =>
      unfold getFetchedEOF in H; inversion H; subst; clear H
  | H : getChannel _ = Ok _ _ |- _ =>
      unfold getChannel in H; inversion H; subst; clear H
  | H : len _ = Ok _ _ |- _ => unfold len in H; inversion H; subst; clear H
  | H : tokenAt _ _ = Ok _ _ |- _ =>
      apply tokenAt_Ok in H; destruct H as [? H]; subst
  | H : (if ?b then _ else _) _ = Ok _ _ |- _ => destruct b eqn:?
  | H : match ?x with Some _ => _ | None => _ end _ = Ok _ _ |- _ =>
      destruct x eqn:?
  end.

Create HintDb extdb.

Ltac ext_facts :=
  repeat match goal with
  | H : ?m ?c = Ok _ ?c' |- _ =>
      lazymatch goal with
      | _ : ext c c' |- _ => fail
      | _ => assert (ext c c') by (eauto with extdb)
      end
  end.

Ltac ext_solve :=
  solve [ repeat first
            [ eassumption
            | apply ext_refl
            | eapply ext_trans; [ | eassumption ] ] ].

Ltac ext_auto := minv; ext_facts; ext_solve.

#[local] Hint Resolve fetch_ext Sync_ext : extdb.

Lemma scan_forward_ext fuel : forall i token c r c',
  scan_forward fuel i token c = Ok r c' -> ext c c'.
Proof.
  induction fuel as [|fuel IH]; intros i token c r c' H; cbn in H.
  - discriminate.
  - minv; try ext_solve.
    apply IH in H. ext_facts. ext_solve.
Qed.
#[local] Hint Resolve scan_forward_ext : extdb.

Lemma NextTokenOnChannel_ext i chan c r c' :
  NextTokenOnChannel i chan c = Ok r c' -> ext c c'.
Proof. unfold NextTokenOnChannel. intros H. ext_auto. Qed.
#[local] Hint Resolve NextTokenOnChannel_ext : extdb.

Lemma adjustSeekIndex_ext i c r c' :
  adjustSeekIndex i c = Ok r c' -> ext c c'.
Proof. unfold adjustSeekIndex. intros H. ext_auto. Qed.
#[local] Hint Resolve adjustSeekIndex_ext : extdb.

Lemma scan_forward_valid fuel : forall i token c r c',
  at_index (tokens c) i = Some token ->
  scan_forward fuel i token c = Ok r c' -> valid_cursor r c'.
Proof.
  induction fuel as [|fuel IH]; intros i token c r c' Htok H; cbn in H.
  - discriminate.
  - minv.
    + left. reflexivity.
    + eapply IH; eassumption.
    + right. exists token. split; [assumption|].
      match goal with
      | E : negb _ = false |- _ =>
          apply negb_false_iff, Z.eqb_eq in E; exact E
      end.
Qed.

Lemma NextTokenOnChannel_valid i chan c r c' :
  NextTokenOnChannel i chan c = Ok r c' -> valid_cursor r c'.
Proof.
  unfold NextTokenOnChannel. intros H. minv.
  - left. reflexivity.
  - eapply scan_forward_valid; eassumption.
Qed.

Lemma adjust_put_ext i c r c' :
  (v <- adjustSeekIndex i ;; putIndex v) c = Ok r c' -> ext c c'.
Proof.
  intros H. minv. apply ext_index.
  - eapply adjustSeekIndex_ext; eassumption.
  - match goal with
    | E : adjustSeekIndex _ _ = Ok _ _ |- _ =>
        unfold adjustSeekIndex in E; minv;
        eapply NextTokenOnChannel_valid; eassumption
    end.
Qed.

Ltac minv ::=
  repeat match goal with
  | H : bind (adjustSeekIndex _) (fun v => putIndex v) _ = Ok _ _ |- _ =>
      apply adjust_put_ext in H
  | H : bind _ _ _ = Ok _ _ |- _ =>
      apply bind_Ok in H; destruct H as (? & ? & ? & H)
  | H : ret _ _ = Ok _ _ |- _ => unfold ret in H; inversion H; subst; clear H
  | H : throw _ _ = Ok _ _ |- _ => discriminate H
  | H : Ok _ _ = Ok _ _ |- _ => inversion H; subst; clear H
  | H : Panic _ = Ok _ _ |- _ => discriminate H
  | H : getIndex _ = Ok _ _ |- _ =>
      unfold getIndex in H; inversion H; subst; clear H
  | H : getFetchedEOF _ = Ok _ _ |- _ =>
      unfold getFetchedEOF in H; inversion H; subst; clear H
  | H : getChannel _ = Ok _ _ |- _ =>
      unfold getChannel in H; inversion H; subst; clear H
  | H : len _ = Ok _ _ |- _ => unfold len in H; inversion H; subst; clear H
  | H : tokenAt _ _ = Ok _ _ |- _ =>
      apply tokenAt_Ok in H; destruct H as [? H]; subst
  | H : (if ?b then _ else _) _ = Ok _ _ |- _ => destruct b eqn:?
  | H : match ?x with Some _ => _ | None => _ end _ = Ok _ _ |- _ =>
      destruct x eqn:?
  end.

Lemma setup_ext c r c' : setup c = Ok r c' -> ext c c'.
Proof. unfold setup. intros H. ext_auto. Qed.
#[local] Hint Resolve setup_ext : extdb.

Lemma lazyInit_ext c r c' : lazyInit c = Ok r c' -> ext c c'.
Proof. unfold lazyInit. intros H. ext_auto. Qed.
#[local] Hint Resolve lazyInit_ext : extdb.

Lemma Seek_ext i c r c' : Seek i c = Ok r c' -> ext c c'.
Proof. unfold Seek. intros H. ext_auto. Qed.
#[local] Hint Resolve Seek_ext : extdb.

Lemma Get_ext i c r c' : Get i c = Ok r c' -> ext c c'.
Proof. unfold Get. intros H. ext_auto. Qed.
#[local] Hint Resolve Get_ext : extdb.

Lemma scan_backward_same k : forall i chan c r c',
  scan_backward k i chan c = Ok r c' -> c' = c.
Proof.
  induction k as [|k IH]; intros i chan c r c' H; cbn in H.
  - minv. reflexivity.
  - minv; try reflexivity. eapply IH; eassumption.
Qed.

Lemma previousTokenOnChannel_same i chan c r c' :
  previousTokenOnChannel i chan c = Ok r c' -> c' = c.
Proof. apply scan_backward_same. Qed.

Lemma previousTokenOnChannel_ext i chan c r c' :
  previousTokenOnChannel i chan c = Ok r c' -> ext c c'.
Proof.
  intros H. apply previousTokenOnChannel_same in H. subst. apply ext_refl.
Qed.
#[local] Hint Resolve previousTokenOnChannel_ext : extdb.

Lemma LB_loop_same k : forall i c r c', LB_loop k i c = Ok r c' -> c' = c.
Proof.
  induction k as [|k IH]; intros i c r c' H; cbn in H; minv.
  - reflexivity.
  - apply IH in H. match goal with
    | H1 : previousTokenOnChannel _ _ _ = Ok _ _ |- _ =>
        apply previousTokenOnChannel_same in H1
    end. congruence.
Qed.

Lemma LB_same k c r c' : LB k c = Ok r c' -> c' = c.
Proof.
  unfold LB. intros H. minv; try reflexivity;
    match goal with
    | H1 : LB_loop _ _ _ = Ok _ _ |- _ => apply LB_loop_same in H1
    end; congruence.
Qed.

Lemma LB_ext k c r c' : LB k c = Ok r c' -> ext c c'.
Proof. intros H. apply LB_same in H. subst. apply ext_refl. Qed.
#[local] Hint Resolve LB_ext : extdb.

Lemma LT_loop_ext k : forall i c r c', LT_loop k i c = Ok r c' -> ext c c'.
Proof.
  induction k as [|k IH]; intros i c r c' H; cbn in H; minv;
    try (apply IH in H); ext_facts; ext_solve.
Qed.
#[local] Hint Resolve LT_loop_ext : extdb.

Lemma LT_ext k c r c' : LT k c = Ok r c' -> ext c c'.
Proof. unfold LT. intros H. ext_auto. Qed.
#[local] Hint Resolve LT_ext : extdb.

Lemma LA_ext k c r c' : LA k c = Ok r c' -> ext c c'.
Proof. unfold LA. intros H. ext_auto. Qed.
#[local] Hint Resolve LA_ext : extdb.

Lemma Consume_ext c r c' : Consume c = Ok r c' -> ext c c'.
Proof. unfold Consume. intros H. ext_auto. Qed.
#[local] Hint Resolve Consume_ext : extdb.

Lemma filter_loop_same k : forall i chan hidden c r c',
  filter_loop k i chan hidden c = Ok r c' -> c' = c.
Proof.
  induction k as [|k IH]; intros i chan hidden c r c' H; cbn in H; minv.
  - reflexivity.
  - eapply IH; eassumption.
Qed.

Lemma filterForChannel_ext l r chan c res c' :
  filterForChannel l r chan c = Ok res c' -> ext c c'.
Proof.
  intros H. apply filter_loop_same in H. subst. apply ext_refl.
Qed.
#[local] Hint Resolve filterForChannel_ext : extdb.

Lemma getHiddenTokensToRight_ext i chan c r c' :
  getHiddenTokensToRight i chan c = Ok r c' -> ext c c'.
Proof. unfold getHiddenTokensToRight. intros H. ext_auto. Qed.
#[local] Hint Resolve getHiddenTokensToRight_ext : extdb.

Lemma getHiddenTokensToLeft_ext i chan c r c' :
  getHiddenTokensToLeft i chan c = Ok r c' -> ext c c'.
Proof. unfold getHiddenTokensToLeft. intros H. ext_auto. Qed.
#[local] Hint Resolve getHiddenTokensToLeft_ext : extdb.

Lemma fill_loop_ext fuel : forall c r c',
  fill_loop fuel c = Ok r c' -> ext c c'.
Proof.
  induction fuel as [|fuel IH]; intros c r c' H; cbn in H; minv;
    try (apply IH in H); ext_facts; ext_solve.
Qed.
#[local] Hint Resolve fill_loop_ext : extdb.

Lemma Fill_ext c r c' : Fill c = Ok r c' -> ext c c'.
Proof. unfold Fill. intros H. ext_auto. Qed.
#[local] Hint Resolve Fill_ext : extdb.

Lemma text_loop_same k : forall i s c r c',
  text_loop k i s c = Ok r c' -> c' = c.
Proof.
  induction k as [|k IH]; intros i s c r c' H; cbn in H; minv.
  - reflexivity.
  - reflexivity.
  - eapply IH; eassumption.
Qed.

Lemma text_loop_ext k i s c r c' :
  text_loop k i s c = Ok r c' -> ext c c'.
Proof. intros H. apply text_loop_same in H. subst. apply ext_refl. Qed.
#[local] Hint Resolve text_loop_ext : extdb.

Lemma GetTextFromInterval_ext iv c r c' :
  GetTextFromInterval iv c = Ok r c' -> ext c c'.
Proof. unfold GetTextFromInterval. intros H. ext_auto. Qed.
#[local] Hint Resolve GetTextFromInterval_ext : extdb.

Lemma tokens_loop_same k : forall i types subset c r c',
  tokens_loop k i types subset c = Ok r c' -> c' = c.
Proof.
  induction k as [|k IH]; intros i types subset c r c' H; cbn in H; minv.
  - reflexivity.
  - reflexivity.
  - eapply IH; eassumption.
Qed.

Lemma tokens_loop_ext k i types subset c r c' :
  tokens_loop k i types subset c = Ok r c' -> ext c c'.
Proof. intros H. apply tokens_loop_same in H. subst. apply ext_refl. Qed.
#[local] Hint Resolve tokens_loop_ext : extdb.

Lemma GetTokens_ext start stop types c r c' :
  GetTokens start stop types c = Ok r c' -> ext c c'.
Proof. unfold GetTokens. intros H. ext_auto. Qed.
#[local] Hint Resolve GetTokens_ext : extdb.

Lemma GetTextFromTokens_ext start stop c r c' :
  GetTextFromTokens start stop c = Ok r c' -> ext c c'.
Proof.
  unfold GetTextFromTokens. intros H.
  destruct start; [destruct stop|]; ext_auto.
Qed.
#[local] Hint Resolve GetTextFromTokens_ext : extdb.

Lemma count_loop_same k : forall i n c r c',
  count_loop k i n c = Ok r c' -> c' = c.
Proof.
  induction k as [|k IH]; intros i n c r c' H; cbn in H; minv.
  - reflexivity.
  - reflexivity.
  - eapply IH; eassumption.
Qed.

Lemma count_loop_ext k i n c r c' :
  count_loop k i n c = Ok r c' -> ext c c'.
Proof. intros H. apply count_loop_same in H. subst. apply ext_refl. Qed.
#[local] Hint Resolve count_loop_ext : extdb.

Lemma getNumberOfOnChannelTokens_ext c r c' :
  getNumberOfOnChannelTokens c = Ok r c' -> ext c c'.
Proof. unfold getNumberOfOnChannelTokens. intros H. ext_auto. Qed.
#[local] Hint Resolve getNumberOfOnChannelTokens_ext : extdb.

Lemma run_ext o c r c' : run o c = Ok r c' -> ext c c'.
Proof.
  destruct o; cbn [run]; intros H;
    unfold reset, GetAllText, GetAllTokens, GetTokenSource, Size, Index, Mark,
      Release in *;
    try solve [ext_auto].
  all: minv; try inversion H; subst; try apply ext_refl; ext_facts; ext_solve.
Qed.
#[local] Hint Resolve run_ext : extdb.

Lemma run_all_ext os : forall c r c', run_all os c = Ok r c' -> ext c c'.
Proof.
  induction os as [|o os IH]; intros c r c' H; cbn in H; minv.
  - apply ext_refl.
  - apply IH in H. ext_facts. ext_solve.
Qed.

(** ** The invariants hold of every stream a client can get *)

Lemma ext_valid_cursor c c' v :
  ext c c' -> valid_cursor v c -> valid_cursor v c'.
Proof.
  intros H [->|(t & Ht & Hon)]; [left; reflexivity|].
  right. exists t. split; [eapply ext_at_index; eassumption|].
  unfold onChannel in *. rewrite (ext_channel _ _ H). exact Hon.
Qed.

Lemma ext_cursor_inv c c' : ext c c' -> cursor_inv c -> cursor_inv c'.
Proof.
  induction 1; intros Hc.
  - assumption.
  - destruct H0 as [->|(t & Ht & Hon)]; [left; reflexivity|].
    right. exists t. split; assumption.
  - specialize (IHext Hc). unfold cursor_inv in *.
    rewrite push_one_index.
    eapply ext_valid_cursor; [apply ext_push_one|]; eassumption.
Qed.

Lemma ext_wf c c' : ext c c' -> wf c -> wf c'.
Proof.
  intros H (H1 & H2 & H3).
  split; [|split];
    eauto using ext_eof_inv, ext_indexed, ext_cursor_inv.
Qed.

Lemma wf_New lexer chan : wf (NewCommonTokenStream lexer chan).
Proof.
  split; [|split].
  - intros j t Hj. destruct j; discriminate.
  - intros j t Hj. destruct j; discriminate.
  - left. reflexivity.
Qed.

Lemma wf_SetTokenSource src c c' :
  SetTokenSource src c = Ok tt c' -> wf c'.
Proof.
  unfold SetTokenSource. intros H. inversion H; subst.
  split; [|split].
  - intros j t Hj. destruct j; discriminate.
  - intros j t Hj. destruct j; discriminate.
  - left. reflexivity.
Qed.

Lemma reachable_wf c : reachable c -> wf c.
Proof.
  induction 1.
  - apply wf_New.
  - eapply ext_wf; [eapply run_ext|]; eassumption.
  - eapply wf_SetTokenSource; eassumption.
Qed.

Lemma indexed_at c i t :
  indexed c -> at_index (tokens c) i = Some t -> GetTokenIndex t = i.
Proof.
  intros Hinv Ht. pose proof (at_index_Some _ _ _ Ht).
  apply at_index_nth in Ht. rewrite (Hinv _ _ Ht). lia.
Qed.

Lemma fetch_all_ext ns : forall c r c',
  fetch_all ns c = Ok r c' -> ext c c'.
Proof.
  induction ns as [|n ns IH]; intros c r c' H; cbn in H; minv.
  - apply ext_refl.
  - apply IH in H. ext_facts. ext_solve.
Qed.

Lemma fetch_all_total ns : forall c, exists c', fetch_all ns c = Ok tt c'.
Proof.
  induction ns as [|n ns IH]; intros c; cbn.
  - exists c. reflexivity.
  - destruct (fetch_spec n c) as (r & c1 & E & _).
    rewrite (bind_eq _ _ _ _ _ E). apply IH.
Qed.

Lemma fetch_done n c : fetchedEOF c = true -> fetch n c = Ok 0 c.
Proof. unfold fetch. intros ->. reflexivity. Qed.

Lemma fetch_all_done ns : forall c,
  fetchedEOF c = true -> fetch_all ns c = Ok tt c.
Proof.
  induction ns as [|n ns IH]; intros c Hc; cbn.
  - reflexivity.
  - rewrite (bind_eq _ _ _ _ _ (fetch_done n c Hc)). now apply IH.
Qed.

(** The end is fetched by appending a token. *)
Lemma ext_fetched_nonempty c c' :
  ext c c' -> fetchedEOF c = false -> fetchedEOF c' = true ->
  tokens c' <> [].
Proof.
  induction 1; intros Hc Hc'.
  - congruence.
  - cbn in *. auto.
  - destruct (push_one_shape c') as (t & Ht & _). rewrite Ht.
    intros E. apply app_eq_nil in E. destruct E; discriminate.
Qed.

(** With the end fetched, a buffer that is not empty is made of tokens that
    are not the end-of-stream token followed by one that is. *)
Lemma eof_inv_shape c :
  eof_inv c -> fetchedEOF c = true -> tokens c <> [] ->
  exists pre e,
    tokens c = pre ++ [e] /\ isEOF e /\ Forall (fun t => ~ isEOF t) pre.
Proof.
  intros Hinv Hf Hne.
  destruct (exists_last Hne) as (pre & e & Htok).
  exists pre, e. split; [assumption|]. split.
  - apply (Hinv (length pre) e).
    + rewrite Htok, nth_error_app2, Nat.sub_diag by lia. reflexivity.
    + split; [assumption|]. rewrite Htok, length_app. cbn. lia.
  - apply Forall_forall. intros t Hin He.
    apply In_nth_error in Hin. destruct Hin as [j Hj].
    assert (Hlt : (j < length pre)%nat).
    { apply nth_error_Some. congruence. }
    assert (Hj' : nth_error (tokens c) j = Some t).
    { rewrite Htok, nth_error_app1 by assumption. assumption. }
    apply (Hinv _ _ Hj') in He. destruct He as [_ Hl].
    rewrite Htok, length_app in Hl. cbn in Hl. lia.
Qed.

(** A single call that asks for more than the source holds fetches the
    end. *)
Lemma fetch_exhausts n c :
  fetchedEOF c = false ->
  Z.of_nat (length (pending (tokenSource c))) < n ->
  exists r c', fetch n c = Ok r c' /\ fetchedEOF c' = true.
Proof.
  intros Hc Hn.
  destruct (fetch_spec n c) as (r & c' & E & _ & _ & _ & Hfalse).
  exists r, c'. split; [assumption|].
  destruct (Hfalse Hc) as [(_ & _ & _ & Hl)|(Hf & _)]; [lia | assumption].
Qed.

(** ** The buffer *)

(** C3: from a new stream over any source, any sequence of calls of
    [fetch] returns; if it has fetched the end, the buffer is made of tokens
    that are not the end-of-stream token followed by exactly one that is,
    and every further [fetch n] returns 0 and leaves the stream as it is; if
    it has not, the buffer holds no end-of-stream token and one more call
    asking for more than the source still holds fetches the end. *)
Theorem fetch_until_exhaustion lexer chan ns :
  exists c,
    fetch_all ns (NewCommonTokenStream lexer chan) = Ok tt c /\
    (fetchedEOF c = true ->
     (exists pre e,
        tokens c = pre ++ [e] /\ isEOF e /\
        Forall (fun t => ~ isEOF t) pre) /\
     (forall n, fetch n c = Ok 0 c)) /\
    (fetchedEOF c = false ->
     Forall (fun t => ~ isEOF t) (tokens c) /\
     (forall n, Z.of_nat (length (pending (tokenSource c))) < n ->
                exists r c', fetch n c = Ok r c' /\ fetchedEOF c' = true)).
Proof.
  destruct (fetch_all_total ns (NewCommonTokenStream lexer chan)) as [c E].
  exists c. split; [exact E|].
  pose proof (fetch_all_ext _ _ _ _ E) as Hext.
  pose proof (ext_wf _ _ Hext (wf_New lexer chan)) as (Hinv & _ & _).
  split.
  - intros Hf. split.
    + apply eof_inv_shape; auto.
      eapply ext_fetched_nonempty; eauto.
    + intros n. now apply fetch_done.
  - intros Hf. split.
    + apply Forall_forall. intros t Hin He.
      apply In_nth_error in Hin. destruct Hin as [j Hj].
      apply (Hinv _ _ Hj) in He. destruct He. congruence.
    + intros n Hn. now apply fetch_exhausts.
Qed.

(** C4: on a stream a client can get, the token at a filled position [i]
    of the buffer has [i] as its index, and after any further sequence of
    fetch, sync, fill, navigation and query operations the same token is
    still at position [i]. *)
Theorem token_index_stable os c c' i t :
  reachable c ->
  run_all os c = Ok tt c' ->
  at_index (tokens c) i = Some t ->
  GetTokenIndex t = i /\ at_index (tokens c') i = Some t.
Proof.
  intros Hreach Hrun Ht.
  destruct (reachable_wf _ Hreach) as (_ & Hidx & _).
  split.
  - eapply indexed_at; eassumption.
  - eapply ext_at_index; [eapply run_all_ext|]; eassumption.
Qed.

(** C10: [SetTokenSource] binds the stream to the source given, empties
    the buffer and sets the cursor to [-1], and leaves the flag and the
    channel as they were; when the end had been fetched before, every
    [fetch n] on the stream rebound returns 0 and changes nothing, and after
    any sequence of operations the buffer is still empty and the source
    untouched. *)
Theorem SetTokenSource_keeps_fetchedEOF src c :
  exists c',
    SetTokenSource src c = Ok tt c' /\
    tokenSource c' = src /\ tokens c' = [] /\ index c' = -1 /\
    fetchedEOF c' = fetchedEOF c /\ channel c' = channel c /\
    (fetchedEOF c = true ->
     (forall n, fetch n c' = Ok 0 c') /\
     (forall os c'', run_all os c' = Ok tt c'' ->
                     tokens c'' = [] /\ tokenSource c'' = src)).
Proof.
  exists (mkStream src [] (-1) (fetchedEOF c) (channel c)).
  split; [reflexivity|]. cbn [tokenSource tokens index fetchedEOF channel].
  do 5 (split; [reflexivity|]).
  intros Hf. split.
  - intros n. apply fetch_done. exact Hf.
  - intros os c'' Hrun. apply run_all_ext in Hrun.
    apply ext_done in Hrun; [|exact Hf]. rewrite Hrun. split; reflexivity.
Qed.

(** ** Initialisation, seeking and filling *)

Lemma adjustSeekIndex_spec i c :
  eof_inv c -> 0 <= i ->
  exists r c',
    adjustSeekIndex i c = Ok r c' /\ ext c c' /\
    index c' = index c /\ scan_result i r c'.
Proof.
  intros Hinv Hi. unfold adjustSeekIndex, bind, getChannel.
  now apply NextTokenOnChannel_spec.
Qed.

Lemma setup_spec c :
  eof_inv c ->
  exists c',
    setup c = Ok tt c' /\ ext c c' /\ scan_result 0 (index c') c'.
Proof.
  intros Hinv. unfold setup.
  destruct (Sync_spec 0 c) as (b & c1 & Hsync & Hext1 & _).
  rewrite (bind_eq _ _ _ _ _ Hsync).
  pose proof (ext_eof_inv _ _ Hext1 Hinv) as Hinv1.
  destruct (adjustSeekIndex_spec 0 c1 Hinv1 ltac:(lia))
    as (r & c2 & Hadj & Hext2 & Hidx2 & Hres).
  assert (Hrun : (v <- adjustSeekIndex 0 ;; putIndex v) c1
                 = Ok tt (set_index r c2)).
  { rewrite (bind_eq _ _ _ _ _ Hadj). reflexivity. }
  exists (set_index r c2). split; [exact Hrun|]. split.
  - eapply ext_trans; [eassumption|]. eapply adjust_put_ext; eassumption.
  - exact Hres.
Qed.

Lemma lazyInit_spec c :
  eof_inv c ->
  exists c',
    lazyInit c = Ok tt c' /\ ext c c' /\
    (index c <> -1 -> c' = c) /\
    (index c = -1 -> scan_result 0 (index c') c').
Proof.
  intros Hinv. unfold lazyInit, bind, getIndex.
  destruct (Z.eqb_spec (index c) (-1)) as [He|Hne].
  - destruct (setup_spec c Hinv) as (c' & Hrun & Hext & Hres).
    exists c'. repeat split; auto. contradiction.
  - exists c. repeat split; auto using ext_refl. contradiction.
Qed.

Lemma Seek_spec i c :
  eof_inv c -> 0 <= i ->
  exists c',
    Seek i c = Ok tt c' /\ ext c c' /\ scan_result i (index c') c'.
Proof.
  intros Hinv Hi. unfold Seek.
  destruct (lazyInit_spec c Hinv) as (c1 & Hinit & Hext1 & _).
  rewrite (bind_eq _ _ _ _ _ Hinit).
  pose proof (ext_eof_inv _ _ Hext1 Hinv) as Hinv1.
  destruct (adjustSeekIndex_spec i c1 Hinv1 Hi)
    as (r & c2 & Hadj & Hext2 & Hidx2 & Hres).
  assert (Hrun : (v <- adjustSeekIndex i ;; putIndex v) c1
                 = Ok tt (set_index r c2)).
  { rewrite (bind_eq _ _ _ _ _ Hadj). reflexivity. }
  exists (set_index r c2). split; [exact Hrun|]. split.
  - eapply ext_trans; [eassumption|]. eapply adjust_put_ext; eassumption.
  - exact Hres.
Qed.

(** What [Fill] still has to fetch. *)
Lemma fill_loop_spec fuel : forall c,
  ((if fetchedEOF c then 0 else S (length (pending (tokenSource c)))) < fuel)%nat ->
  exists c',
    fill_loop fuel c = Ok tt c' /\ ext c c' /\ index c' = index c /\
    fetchedEOF c' = true.
Proof.
  induction fuel as [|fuel IH]; intros c Hfuel; [lia|].
  cbn [fill_loop].
  destruct (fetch_spec 1000 c) as (r & c1 & E & Hext & Hidx & Htrue & Hfalse).
  rewrite (bind_eq _ _ _ _ _ E).
  destruct (fetchedEOF c) eqn:Hc.
  - destruct (Htrue eq_refl) as [-> ->]. cbn.
    exists c. repeat split; auto.
  - destruct (Hfalse eq_refl) as [(-> & Hf & _ & Hl)|(Hf & Hr & _)].
    + rewrite Z.eqb_refl.
      destruct (IH c1) as (c' & Hrun & Hext' & Hidx' & Hf').
      { rewrite Hf. lia. }
      exists c'. split; [exact Hrun|].
      split; [eapply ext_trans; eassumption|].
      split; [congruence | assumption].
    + destruct (Z.eqb_spec r 1000) as [->|Hne].
      * destruct (IH c1) as (c' & Hrun & Hext' & Hidx' & Hf').
        { rewrite Hf. lia. }
        exists c'. split; [exact Hrun|].
        split; [eapply ext_trans; eassumption|].
        split; [congruence | assumption].
      * exists c1. repeat split; auto.
Qed.

Lemma Fill_spec c :
  eof_inv c ->
  exists c',
    Fill c = Ok tt c' /\ ext c c' /\ fetchedEOF c' = true /\
    (index c <> -1 -> index c' = index c) /\
    (index c = -1 -> scan_result 0 (index c') c').
Proof.
  intros Hinv. unfold Fill.
  destruct (lazyInit_spec c Hinv) as (c1 & Hinit & Hext1 & Hsame & Hres).
  rewrite (bind_eq _ _ _ _ _ Hinit).
  destruct (fill_loop_spec (fill_fuel c1) c1) as (c' & Hrun & Hext' & Hidx' & Hf').
  { unfold fill_fuel. destruct (fetchedEOF c1); lia. }
  exists c'. split; [exact Hrun|].
  split; [eapply ext_trans; eassumption|].
  split; [assumption|]. split.
  - intros Hne. rewrite (Hsame Hne) in Hidx'. assumption.
  - intros He. specialize (Hres He). rewrite Hidx'.
    destruct Hres as [(Hr & Hf1 & Hnone)|(Hr & Hat & Hnone)].
    + left. split; [assumption|]. split; [assumption|].
      rewrite (ext_done_same _ _ Hext' Hf1 Hidx'). assumption.
    + right. split; [assumption|].
      assert (Hch : channel c' = channel c1) by (apply ext_channel; assumption).
      split.
      * destruct Hat as (t & Ht & Hon). exists t. split.
        -- eapply ext_at_index; eassumption.
        -- unfold onChannel in *. congruence.
      * intros j t Hj Ht Hon.
        destruct Hat as (t0 & Ht0 & _).
        pose proof (at_index_Some _ _ _ Ht0) as Hr0.
        destruct (at_index_in_range (tokens c1) j) as [t1 Ht1]; [lia|].
        pose proof (ext_at_index _ _ _ _ Hext' Ht1) as Ht1'.
        rewrite Ht1' in Ht. inversion Ht; subst t1.
        apply (Hnone j t Hj Ht1). unfold onChannel in *. congruence.
Qed.

Lemma Fill_again c :
  eof_inv c ->
  exists c1, Fill c = Ok tt c1 /\ Fill c1 = Ok tt c1.
Proof.
  intros Hinv.
  destruct (Fill_spec c Hinv) as (c1 & Hfill & Hext & Hf & Hkeep & Hres).
  exists c1. split; [exact Hfill|].
  pose proof (ext_eof_inv _ _ Hext Hinv) as Hinv1.
  destruct (Fill_spec c1 Hinv1) as (c2 & Hfill2 & Hext2 & Hf2 & Hkeep2 & Hres2).
  rewrite Hfill2. f_equal.
  apply (ext_done_same _ _ Hext2 Hf).
  destruct (Z.eq_dec (index c1) (-1)) as [He|Hne]; [|auto].
  rewrite He.
  assert (Hnone : none_on_channel_from 0 c1).
  { destruct (Z.eq_dec (index c) (-1)) as [Hc|Hc].
    - destruct (Hres Hc) as [(_ & _ & Hn)|(Hr & _)]; [assumption | lia].
    - specialize (Hkeep Hc). congruence. }
  destruct (Hres2 He) as [(Hr & _)|(Hr & (t & Ht & Hon) & _)]; [assumption|].
  exfalso.
  rewrite (ext_done _ _ Hext2 Hf) in Ht, Hon. cbn in Ht.
  apply (Hnone (index c2) t Hr Ht). exact Hon.
Qed.

(** ** Seeking, filling and raw access *)

(** C2, for an index that is not negative: on a stream a client can get,
    [Seek i] followed by [Index] returns; the answer is either the first
    position from [i] on whose buffered token is on the channel of the
    stream, or [-1], and then the end has been fetched and no buffered token
    from [i] on is on that channel. *)
Theorem Seek_then_Index i c :
  reachable c -> 0 <= i ->
  exists r c',
    (Seek i ;;; Index) c = Ok r c' /\
    channel c' = channel c /\
    ((i <= r /\
      (exists t, at_index (tokens c') r = Some t /\
                 GetChannel t = channel c') /\
      (forall j t, i <= j < r -> at_index (tokens c') j = Some t ->
                   GetChannel t <> channel c')) \/
     (r = -1 /\ fetchedEOF c' = true /\
      (forall j t, i <= j -> at_index (tokens c') j = Some t ->
                   GetChannel t <> channel c'))).
Proof.
  intros Hreach Hi.
  destruct (reachable_wf _ Hreach) as (Hinv & _ & _).
  destruct (Seek_spec i c Hinv Hi) as (c' & Hseek & Hext & Hres).
  exists (index c'), c'. split.
  - rewrite (bind_eq _ _ _ _ _ Hseek). reflexivity.
  - split; [now apply ext_channel|].
    destruct Hres as [(Hr & Hf & Hnone)|(Hr & Hat & Hnone)].
    + right. repeat split; assumption.
    + left. repeat split; assumption.
Qed.

(** C9: on a stream a client can get, [Fill] returns, and [Fill] called
    twice in a row leaves the very stream that [Fill] called once leaves:
    the same buffer, cursor, flag and source. *)
Theorem Fill_idempotent c :
  reachable c ->
  exists c1,
    Fill c = Ok tt c1 /\ (Fill ;;; Fill) c = Ok tt c1 /\
    fetchedEOF c1 = true.
Proof.
  intros Hreach.
  destruct (reachable_wf _ Hreach) as (Hinv & _ & _).
  destruct (Fill_again c Hinv) as (c1 & H1 & H2).
  exists c1. split; [exact H1|]. split.
  - rewrite (bind_eq _ _ _ _ _ H1). exact H2.
  - destruct (Fill_spec c Hinv) as (c2 & E & _ & Hf & _).
    rewrite E in H1. inversion H1; subst. exact Hf.
Qed.

(** C6, as the code has it: on a stream a client can get, [Get i] first
    initialises the stream, which returns and leaves an initialised stream
    as it is; it then answers with the token buffered at [i] when there is
    one, and panics with an index out of range when [i] is negative or at or
    beyond the length of the buffer. *)
Theorem Get_in_or_out_of_range i c :
  reachable c ->
  exists c',
    lazyInit c = Ok tt c' /\
    (index c <> -1 -> c' = c) /\
    (forall t, at_index (tokens c') i = Some t -> Get i c = Ok t c') /\
    (i < 0 \/ size c' <= i -> Get i c = Panic IndexOutOfRange).
Proof.
  intros Hreach.
  destruct (reachable_wf _ Hreach) as (Hinv & _ & _).
  destruct (lazyInit_spec c Hinv) as (c' & Hinit & _ & Hsame & _).
  exists c'. split; [exact Hinit|]. split; [exact Hsame|].
  unfold Get. rewrite (bind_eq _ _ _ _ _ Hinit). unfold tokenAt. split.
  - intros t Ht. rewrite Ht. reflexivity.
  - intros Hout.
    destruct (at_index (tokens c') i) as [t|] eqn:Ht; [|reflexivity].
    apply at_index_Some in Ht. fold (size c') in Ht. lia.
Qed.

(** ** [Consume] *)

Lemma LT_1_eq c :
  LT 1 c = (lazyInit ;;; idx <- getIndex ;; t <- tokenAt idx ;; ret (Some t)) c.
Proof. reflexivity. Qed.

Lemma Consume_unfold c :
  Consume c =
  ((if negb (skipEofCheck c) then
      la <- LA 1 ;;
      if la =? TokenEOF then throw CannotConsumeEOF else ret tt
    else ret tt) ;;; advance) c.
Proof. reflexivity. Qed.

Lemma Sync_again i c b c1 :
  Sync i c = Ok b c1 -> exists b', Sync i c1 = Ok b' c1.
Proof.
  intros H.
  destruct (Sync_spec i c) as (b0 & c0 & E & _ & _ & Hbt & Hbf & _).
  rewrite E in H. inversion H; subst b0 c0. clear H.
  destruct (Sync_spec i c1) as (b' & c2 & E' & _ & _ & _ & _ & Hlt & Hdone).
  exists b'. rewrite E'. f_equal. destruct b.
  - apply Hlt. auto.
  - apply Hdone. apply Hbf. reflexivity.
Qed.

Lemma NextTokenOnChannel_after_Sync i chan c b c1 :
  Sync i c = Ok b c1 ->
  NextTokenOnChannel i chan c = NextTokenOnChannel i chan c1.
Proof.
  intros H. destruct (Sync_again _ _ _ _ H) as [b' H'].
  unfold NextTokenOnChannel.
  rewrite (bind_eq _ _ _ _ _ H), (bind_eq _ _ _ _ _ H'). reflexivity.
Qed.

Lemma advance_spec c t :
  eof_inv c -> at_index (tokens c) (index c) = Some t -> ~ isEOF t ->
  exists r c2,
    adjustSeekIndex (index c + 1) c = Ok r c2 /\
    advance c = Ok tt (set_index r c2).
Proof.
  intros Hinv Ht Hne.
  pose proof (at_index_Some _ _ _ Ht) as Hrange.
  destruct (adjustSeekIndex_spec (index c + 1) c Hinv ltac:(lia))
    as (r & c2 & Hadj & _).
  exists r, c2. split; [exact Hadj|].
  unfold advance, bind at 1, getIndex.
  destruct (Sync_spec (index c + 1) c)
    as (b & c1 & Hsync & Hext1 & _ & _ & Hbf & _).
  rewrite (bind_eq _ _ _ _ _ Hsync).
  destruct b.
  - assert (Hadj1 : adjustSeekIndex (index c + 1) c1 = Ok r c2).
    { rewrite <- Hadj. unfold adjustSeekIndex, bind, getChannel.
      rewrite (ext_channel _ _ Hext1).
      symmetry. eapply NextTokenOnChannel_after_Sync. eassumption. }
    rewrite (bind_eq _ _ _ _ _ Hadj1). reflexivity.
  - exfalso. destruct (Hbf eq_refl) as [Hf Hs]. apply Hne.
    apply (eof_inv_last c1 (index c) t); auto.
    + eapply ext_eof_inv; eassumption.
    + eapply ext_at_index; eassumption.
Qed.

Lemma skipEofCheck_true c :
  eof_inv c -> skipEofCheck c = true ->
  index c <> -1 /\
  exists t, at_index (tokens c) (index c) = Some t /\ ~ isEOF t.
Proof.
  unfold skipEofCheck. intros Hinv H.
  destruct (Z.geb_spec (index c) 0) as [Hge|]; [|discriminate].
  split; [lia|].
  assert (Hlt : index c < size c).
  { destruct (fetchedEOF c); apply Z.ltb_lt in H; lia. }
  destruct (at_index_in_range (tokens c) (index c)) as [t Ht].
  { fold (size c). lia. }
  exists t. split; [exact Ht|]. intros He.
  destruct (eof_inv_isEOF c _ t Hinv Ht He) as [Hf Hs].
  rewrite Hf in H. apply Z.ltb_lt in H. lia.
Qed.

Lemma Consume_cases c :
  eof_inv c ->
  exists c1,
    lazyInit c = Ok tt c1 /\
    match at_index (tokens c1) (index c1) with
    | None => LT 1 c = Panic IndexOutOfRange /\
              Consume c = Panic IndexOutOfRange
    | Some t =>
        LT 1 c = Ok (Some t) c1 /\
        ((isEOF t /\ Consume c = Panic CannotConsumeEOF) \/
         (~ isEOF t /\
          exists r c2,
            adjustSeekIndex (index c1 + 1) c1 = Ok r c2 /\
            Consume c = Ok tt (set_index r c2)))
    end.
Proof.
  intros Hinv.
  destruct (lazyInit_spec c Hinv) as (c1 & Hinit & Hext1 & Hsame & _).
  pose proof (ext_eof_inv _ _ Hext1 Hinv) as Hinv1.
  exists c1. split; [exact Hinit|].
  assert (HLT : LT 1 c =
                match at_index (tokens c1) (index c1) with
                | Some t => Ok (Some t) c1
                | None => Panic IndexOutOfRange
                end).
  { rewrite LT_1_eq, (bind_eq _ _ _ _ _ Hinit).
    unfold bind, getIndex, tokenAt.
    destruct (at_index (tokens c1) (index c1)); reflexivity. }
  assert (HLA : LA 1 c =
                match at_index (tokens c1) (index c1) with
                | Some t => Ok (GetTokenType t) c1
                | None => Panic IndexOutOfRange
                end).
  { unfold LA, bind at 1. rewrite HLT.
    destruct (at_index (tokens c1) (index c1)); reflexivity. }
  destruct (skipEofCheck c) eqn:Hskip.
  - assert (Hcon : Consume c = advance c).
    { rewrite Consume_unfold, Hskip. reflexivity. }
    destruct (skipEofCheck_true c Hinv Hskip) as (Hidx & t & Ht & Hne).
    rewrite (Hsame Hidx) in *. rewrite Ht in *.
    split; [exact HLT|]. right. split; [exact Hne|].
    destruct (advance_spec c t Hinv Ht Hne) as (r & c2 & Hadj & Hrun).
    exists r, c2. split; [exact Hadj|]. rewrite Hcon. exact Hrun.
  - assert (Hcon : Consume c =
                   match at_index (tokens c1) (index c1) with
                   | Some t =>
                       if GetTokenType t =? TokenEOF
                       then Panic CannotConsumeEOF else advance c1
                   | None => Panic IndexOutOfRange
                   end).
    { rewrite Consume_unfold, Hskip. cbn [negb]. unfold bind. rewrite HLA.
      destruct (at_index (tokens c1) (index c1)) as [t|]; [|reflexivity].
      destruct (GetTokenType t =? TokenEOF); reflexivity. }
    destruct (at_index (tokens c1) (index c1)) as [t|] eqn:Ht.
    + split; [exact HLT|]. rewrite Hcon.
      destruct (Z.eqb_spec (GetTokenType t) TokenEOF) as [He|Hne].
      * left. split; [exact He | reflexivity].
      * right. split; [exact Hne|].
        destruct (advance_spec c1 t Hinv1 Ht Hne) as (r & c2 & Hadj & Hrun).
        exists r, c2. split; [exact Hadj|]. exact Hrun.
    + split; [exact HLT | exact Hcon].
Qed.

(** C5: on a stream a client can get, [Consume] panics with "cannot
    consume EOF" exactly when [LT 1] answers with a token that is the
    end-of-stream token; so it does on a stream whose cursor is at the
    end-of-stream token; and it returns exactly when [LT 1] answers with a
    token that is not the end-of-stream token, the stream it leaves being the
    one [adjustSeekIndex] leaves when asked for the position after the
    cursor, with the cursor set to its answer. *)
Theorem Consume_eof_iff c :
  reachable c ->
  (Consume c = Panic CannotConsumeEOF <->
   exists t c1, LT 1 c = Ok (Some t) c1 /\ isEOF t) /\
  (forall t, at_index (tokens c) (index c) = Some t -> isEOF t ->
             Consume c = Panic CannotConsumeEOF) /\
  (forall c',
     Consume c = Ok tt c' <->
     exists t c1 r c2,
       LT 1 c = Ok (Some t) c1 /\ ~ isEOF t /\
       adjustSeekIndex (index c1 + 1) c1 = Ok r c2 /\
       c' = set_index r c2).
Proof.
  intros Hreach.
  destruct (reachable_wf _ Hreach) as (Hinv & _ & _).
  destruct (Consume_cases c Hinv) as (c1 & Hinit & Hcase).
  destruct (lazyInit_spec c Hinv) as (c1' & Hinit' & _ & Hsame & _).
  rewrite Hinit in Hinit'. inversion Hinit'; subst c1'. clear Hinit'.
  destruct (at_index (tokens c1) (index c1)) as [t|] eqn:Ht.
  - destruct Hcase as [HLT [[He Hcon]|[Hne (r & c2 & Hadj & Hcon)]]].
    + split; [|split].
      * split; [intros _; eauto|]. intros _. exact Hcon.
      * intros _ _ _. exact Hcon.
      * intros c'. rewrite Hcon, HLT. split; [discriminate|].
        intros (t' & c1' & r' & c2' & E & Hne' & _).
        inversion E; subst. contradiction.
    + split; [|split].
      * rewrite Hcon, HLT. split; [discriminate|].
        intros (t' & c1' & E & He'). inversion E; subst. contradiction.
      * intros t' Ht' He'.
        assert (Hidx : index c <> -1).
        { intros E. rewrite E in Ht'. discriminate. }
        rewrite (Hsame Hidx) in Ht. rewrite Ht in Ht'.
        inversion Ht'; subst. contradiction.
      * intros c'. rewrite Hcon, HLT. split.
        -- intros E. inversion E; subst. exists t, c1, r, c2. auto.
        -- intros (t' & c1' & r' & c2' & E & _ & Hadj' & ->).
           inversion E; subst. rewrite Hadj in Hadj'.
           inversion Hadj'; subst. reflexivity.
  - destruct Hcase as [HLT Hcon]. rewrite Hcon, HLT.
    split; [|split].
    + split; [discriminate|]. intros (t' & c1' & E & _). discriminate.
    + intros t' Ht' He'.
      assert (Hidx : index c <> -1).
      { intros E. rewrite E in Ht'. discriminate. }
      rewrite (Hsame Hidx) in Ht. congruence.
    + intros c'. split; [discriminate|].
      intros (t' & c1' & r' & c2' & E & _). discriminate.
Qed.

(** ** Text reconstruction *)

Lemma append_assoc (a b c : string) :
  ((a ++ b) ++ c)%string = (a ++ (b ++ c))%string.
Proof. induction a as [|x a IH]; cbn; [reflexivity | now rewrite IH]. Qed.

Lemma append_empty_r (a : string) : (a ++ "")%string = a.
Proof. induction a as [|x a IH]; cbn; [reflexivity | now rewrite IH]. Qed.

Lemma fold_text l : forall s,
  fold_left (fun s t => (s ++ GetText t)%string) l s
  = (s ++ concat_text l)%string.
Proof.
  unfold concat_text. induction l as [|t l IH]; intros s; cbn.
  - now rewrite append_empty_r.
  - rewrite IH, (IH (GetText t)), append_assoc. reflexivity.
Qed.

Lemma concat_text_cons t l :
  concat_text (t :: l) = (GetText t ++ concat_text l)%string.
Proof. unfold concat_text at 1. cbn. apply fold_text. Qed.

Lemma concat_text_app l1 l2 :
  concat_text (l1 ++ l2) = (concat_text l1 ++ concat_text l2)%string.
Proof.
  induction l1 as [|t l1 IH]; cbn [app].
  - reflexivity.
  - rewrite !concat_text_cons, IH, append_assoc. reflexivity.
Qed.

Lemma skipn_at_index l i t :
  at_index l i = Some t ->
  skipn (Z.to_nat i) l = t :: skipn (Z.to_nat (i + 1)) l.
Proof.
  intros H. pose proof (at_index_Some _ _ _ H) as Hr.
  apply at_index_nth in H.
  replace (Z.to_nat (i + 1)) with (S (Z.to_nat i)) by lia.
  generalize dependent (Z.to_nat i). clear Hr.
  induction l as [|x l IH]; intros n Hn.
  - destruct n; discriminate.
  - destruct n as [|n]; cbn in *.
    + inversion Hn. reflexivity.
    + apply IH. exact Hn.
Qed.

Lemma text_loop_spec k : forall i s c,
  0 <= i -> ((0 < k)%nat -> i + Z.of_nat k <= size c) ->
  text_loop k i s c =
  Ok (s ++ concat_text
             (before_eof (firstn k (skipn (Z.to_nat i) (tokens c)))))%string
     c.
Proof.
  induction k as [|k IH]; intros i s c Hi Hk; cbn [text_loop firstn].
  - cbn. now rewrite append_empty_r.
  - destruct (at_index_in_range (tokens c) i) as [t Ht].
    { fold (size c). lia. }
    unfold bind, tokenAt. rewrite Ht.
    rewrite (skipn_at_index _ _ _ Ht). cbn [firstn before_eof].
    destruct (GetTokenType t =? TokenEOF).
    + cbn. now rewrite append_empty_r.
    + rewrite IH by lia.
      rewrite concat_text_cons, append_assoc. reflexivity.
Qed.

Lemma GetTextFromInterval_spec c :
  eof_inv c ->
  exists c',
    ext c c' /\ fetchedEOF c' = true /\
    forall start stop,
      GetTextFromInterval (Some (start, stop)) c =
      Ok (interval_text (tokens c') start stop) c'.
Proof.
  intros Hinv.
  destruct (lazyInit_spec c Hinv) as (c1 & Hinit & Hext1 & _).
  pose proof (ext_eof_inv _ _ Hext1 Hinv) as Hinv1.
  destruct (Fill_spec c1 Hinv1) as (c' & Hfill & Hext' & Hf & _).
  exists c'. split; [eapply ext_trans; eassumption|].
  split; [exact Hf|]. intros start stop.
  unfold GetTextFromInterval.
  rewrite (bind_eq _ _ _ _ _ Hinit), (bind_eq _ _ _ _ _ Hfill).
  unfold bind at 1. unfold len. cbn [fst snd].
  unfold interval_text. fold (size c').
  destruct ((start <? 0) || (stop <? 0)) eqn:Hneg; [reflexivity|].
  apply orb_false_iff in Hneg. destruct Hneg as [Hs He].
  apply Z.ltb_ge in Hs. apply Z.ltb_ge in He.
  assert (Hclamp : (if stop >=? size c' then size c' - 1 else stop)
                   = Z.min stop (size c' - 1)).
  { destruct (Z.geb_spec stop (size c')); lia. }
  rewrite Hclamp, text_loop_spec; [reflexivity | assumption | lia].
Qed.

Lemma before_eof_app l1 l2 :
  Forall (fun t => ~ isEOF t) l1 ->
  before_eof (l1 ++ l2) = l1 ++ before_eof l2.
Proof.
  induction 1 as [|t l1 Ht _ IH]; cbn; [reflexivity|].
  destruct (Z.eqb_spec (GetTokenType t) TokenEOF); [contradiction|].
  now rewrite IH.
Qed.

Lemma eof_inv_not_fetched c :
  eof_inv c -> fetchedEOF c = false ->
  Forall (fun t => ~ isEOF t) (tokens c).
Proof.
  intros Hinv Hf. apply Forall_forall. intros t Hin He.
  apply In_nth_error in Hin. destruct Hin as [j Hj].
  apply (Hinv _ _ Hj) in He. destruct He. congruence.
Qed.

Lemma before_eof_none l :
  Forall (fun t => ~ isEOF t) l -> before_eof l = l.
Proof.
  intros H. rewrite <- (app_nil_r l) at 1.
  rewrite before_eof_app by assumption. cbn. apply app_nil_r.
Qed.

Lemma before_eof_snoc_eof l t :
  Forall (fun t => ~ isEOF t) l -> isEOF t -> before_eof (l ++ [t]) = l.
Proof.
  intros H He. rewrite before_eof_app by assumption. cbn.
  destruct (Z.eqb_spec (GetTokenType t) TokenEOF); [|contradiction].
  apply app_nil_r.
Qed.

Lemma before_eof_snoc l t :
  Forall (fun t => ~ isEOF t) l -> ~ isEOF t ->
  before_eof (l ++ [t]) = l ++ [t].
Proof.
  intros H He. rewrite before_eof_app by assumption. cbn.
  destruct (Z.eqb_spec (GetTokenType t) TokenEOF); [contradiction|].
  reflexivity.
Qed.

Lemma push_one_whole_text c :
  fetchedEOF c = false -> eof_inv c ->
  whole_text (push_one c) = whole_text c.
Proof.
  intros Hf Hinv.
  pose proof (eof_inv_not_fetched c Hinv Hf) as Hall.
  unfold whole_text, unread_text, push_one, append_next, NextToken.
  rewrite Hf, (before_eof_none _ Hall).
  destruct (pending (tokenSource c)) as [|t rest];
    cbn [SetTokenIndex GetTokenType GetChannel GetText GetTokenIndex].
  - rewrite Z.eqb_refl.
    cbn [tokens fetchedEOF set_fetchedEOF before_eof].
    rewrite before_eof_snoc_eof; [reflexivity | assumption | reflexivity].
  - cbn [before_eof].
    destruct (Z.eqb_spec (GetTokenType t) TokenEOF) as [He|Hne];
      cbn [tokens fetchedEOF set_fetchedEOF tokenSource pending].
    + rewrite before_eof_snoc_eof; [reflexivity | assumption | exact He].
    + rewrite before_eof_snoc; [|assumption|exact Hne].
      rewrite concat_text_app, !concat_text_cons.
      cbn [SetTokenIndex GetText]. rewrite append_assoc.
      unfold concat_text at 2. cbn [fold_left].
      rewrite append_empty_r. reflexivity.
Qed.

Lemma ext_whole_text c c' :
  ext c c' -> eof_inv c -> whole_text c' = whole_text c.
Proof.
  induction 1; intros Hinv.
  - reflexivity.
  - exact (IHext Hinv).
  - rewrite push_one_whole_text; auto. eapply ext_eof_inv; eassumption.
Qed.

Lemma slice_all (l : list Token) :
  slice l 0 (Z.min (Z.of_nat (length l) - 1) (Z.of_nat (length l) - 1)) = l.
Proof.
  unfold slice. rewrite Z.min_id. cbn [Z.to_nat skipn].
  replace (Z.to_nat (Z.of_nat (length l) - 1 + 1 - 0)) with (length l) by lia.
  apply firstn_all.
Qed.

Lemma round_trip lexer chan :
  exists c',
    (Fill ;;; sz <- Size ;; GetTextFromInterval (Some (0, sz - 1)))
      (NewCommonTokenStream lexer chan)
    = Ok (concat_text (before_eof (pending lexer))) c'.
Proof.
  set (c0 := NewCommonTokenStream lexer chan).
  destruct (wf_New lexer chan) as (Hinv0 & _ & _). fold c0 in Hinv0.
  destruct (Fill_spec c0 Hinv0) as (c1 & Hfill & Hext1 & Hf1 & _).
  pose proof (ext_eof_inv _ _ Hext1 Hinv0) as Hinv1.
  destruct (GetTextFromInterval_spec c1 Hinv1) as (c' & Hext' & Hf' & Htext).
  exists c'. rewrite (bind_eq _ _ _ _ _ Hfill).
  unfold bind, Size, len. rewrite Htext. f_equal.
  assert (Htok : tokens c' = tokens c1).
  { rewrite (ext_done _ _ Hext' Hf1). reflexivity. }
  assert (Hne : tokens c1 <> []).
  { eapply ext_fetched_nonempty; eauto. }
  unfold interval_text. rewrite Htok. unfold size.
  assert (Hlen : (0 < length (tokens c1))%nat).
  { destruct (tokens c1); [contradiction | cbn; lia]. }
  destruct (Z.ltb_spec (Z.of_nat (length (tokens c1)) - 1) 0); [lia|].
  cbn [Z.ltb orb]. change (0 <? 0) with false. cbn [orb].
  rewrite slice_all.
  pose proof (ext_whole_text _ _ Hext1 Hinv0) as Hw.
  unfold whole_text, unread_text in Hw. rewrite Hf1 in Hw.
  cbn in Hw. rewrite append_empty_r in Hw. exact Hw.
Qed.

(** C8: on a stream a client can get, [GetTextFromInterval] on [start]
    and [stop] returns, leaving a stream whose buffer is filled up to the
    end-of-stream token; its answer is the empty text when [start] or [stop]
    is negative, and otherwise the texts, in order, of the tokens buffered at
    [start], ..., [stop], with [stop] clamped to the last position of the
    buffer, up to and without the first end-of-stream token.  Hence, on a new
    stream over any source, filling and then asking for the text from 0 to
    the size less one gives the text of what the source produces before its
    first end-of-stream token: ["abc"] for a source of three tokens of texts
    ["a"], ["b"] and ["c"]. *)
Theorem GetTextFromInterval_text :
  (forall c,
     reachable c ->
     exists c',
       ext c c' /\ fetchedEOF c' = true /\
       forall start stop,
         GetTextFromInterval (Some (start, stop)) c =
         Ok (if (start <? 0) || (stop <? 0) then EmptyString
             else concat_text
                    (before_eof
                       (slice (tokens c') start (Z.min stop (size c' - 1)))))
            c') /\
  (forall lexer chan,
     exists c',
       (Fill ;;; sz <- Size ;; GetTextFromInterval (Some (0, sz - 1)))
         (NewCommonTokenStream lexer chan)
       = Ok (concat_text (before_eof (pending lexer))) c') /\
  (forall a b c ech etxt chan,
     GetText a = "a"%string -> GetText b = "b"%string ->
     GetText c = "c"%string ->
     ~ isEOF a -> ~ isEOF b -> ~ isEOF c ->
     exists c',
       (Fill ;;; sz <- Size ;; GetTextFromInterval (Some (0, sz - 1)))
         (NewCommonTokenStream (mkSource [a; b; c] ech etxt) chan)
       = Ok "abc"%string c').
Proof.
  split; [|split].
  - intros c Hreach.
    destruct (reachable_wf _ Hreach) as (Hinv & _ & _).
    destruct (GetTextFromInterval_spec c Hinv) as (c' & Hext & Hf & Htext).
    exists c'. split; [exact Hext|]. split; [exact Hf|]. exact Htext.
  - apply round_trip.
  - intros a b c ech etxt chan Ha Hb Hc Hna Hnb Hnc.
    destruct (round_trip (mkSource [a; b; c] ech etxt) chan) as [c' E].
    exists c'. rewrite E. f_equal.
    cbn [pending].
    rewrite before_eof_none by (repeat constructor; assumption).
    rewrite !concat_text_cons, Ha, Hb, Hc. reflexivity.
Qed.

Lemma filter_loop_spec chan k : forall i hidden c,
  0 <= i -> ((0 < k)%nat -> i + Z.of_nat k <= size c) ->
  filter_loop k i chan hidden c =
  Ok (hidden ++
      filter (admits chan) (firstn k (skipn (Z.to_nat i) (tokens c)))) c.
Proof.
  induction k as [|k IH]; intros i hidden c Hi Hk; cbn [filter_loop firstn].
  - cbn. now rewrite app_nil_r.
  - destruct (at_index_in_range (tokens c) i) as [t Ht].
    { fold (size c). lia. }
    unfold bind, tokenAt. rewrite Ht.
    rewrite (skipn_at_index _ _ _ Ht). cbn [firstn filter].
    rewrite IH by lia. unfold admits at 2.
    destruct (chan =? -1).
    + destruct (GetChannel t =? LexerDefaultTokenChannel); cbn [negb].
      * reflexivity.
      * now rewrite <- app_assoc.
    + destruct (GetChannel t =? chan).
      * now rewrite <- app_assoc.
      * reflexivity.
Qed.

Lemma filterForChannel_spec left right chan c :
  0 <= left -> right < size c ->
  filterForChannel left right chan c =
  Ok (filter (admits chan) (slice (tokens c) left right)) c.
Proof.
  intros Hl Hr. unfold filterForChannel, slice.
  rewrite filter_loop_spec by lia. reflexivity.
Qed.


(** ** Lookahead with no token on the channel *)

(** The stream over a source that only produces its end marker, on a
    channel other than that of the stream, once initialised. *)
Lemma scan_only_eof ech etxt chan :
  ech <> chan ->
  let c := mkStream (mkSource [] ech etxt) [mkToken TokenEOF ech etxt 0]
                    (-1) true chan in
  Sync 0 c = Ok true c /\ NextTokenOnChannel 0 chan c = Ok (-1) c.
Proof.
  intros Hch c. apply Z.eqb_neq in Hch.
  assert (Hs : Sync 0 c = Ok true c) by reflexivity.
  split; [exact Hs|].
  unfold NextTokenOnChannel. rewrite (bind_eq _ _ _ _ _ Hs).
  unfold bind, len, tokenAt, getChannel. subst c.
  cbn [size tokens length Z.of_nat Pos.of_succ_nat Z.geb Z.compare
       at_index Z.ltb Z.to_nat nth_error scan_fuel tokenSource pending
       Nat.add scan_forward].
  unfold bind, getChannel. cbn [channel GetChannel GetTokenType negb].
  rewrite Hch, Z.eqb_refl. reflexivity.
Qed.

Lemma setup_only_eof ech etxt chan :
  ech <> chan ->
  setup (NewCommonTokenStream (mkSource [] ech etxt) chan)
  = Ok tt (mkStream (mkSource [] ech etxt) [mkToken TokenEOF ech etxt 0]
                    (-1) true chan).
Proof.
  intros Hch.
  set (c0 := NewCommonTokenStream (mkSource [] ech etxt) chan).
  set (c1 := mkStream (mkSource [] ech etxt) [mkToken TokenEOF ech etxt 0]
                      (-1) true chan).
  assert (Hs : Sync 0 c0 = Ok true c1).
  { unfold Sync, bind, len, fetch.
    change (0 - size c0 + 1) with 1. change (1 >? 0) with true. cbv iota.
    change (fetchedEOF c0) with false. cbv iota.
    change (Z.to_nat 1) with 1%nat. cbn [fetch_loop].
    unfold append_next, NextToken.
    cbn [tokenSource pending c0 NewCommonTokenStream SetTokenIndex
         GetTokenType].
    rewrite Z.eqb_refl. reflexivity. }
  destruct (scan_only_eof ech etxt chan Hch) as [_ Hn]. fold c1 in Hn.
  unfold setup, adjustSeekIndex. rewrite (bind_eq _ _ _ _ _ Hs).
  unfold bind at 1. unfold bind at 1. unfold getChannel.
  change (channel c1) with chan. rewrite Hn. reflexivity.
Qed.

Lemma LT_loop_only_eof ech etxt chan n :
  ech <> chan ->
  let c := mkStream (mkSource [] ech etxt) [mkToken TokenEOF ech etxt 0]
                    (-1) true chan in
  LT_loop n (-1) c = Ok (-1) c.
Proof.
  intros Hch c. destruct (scan_only_eof ech etxt chan Hch) as [Hs Hn].
  fold c in Hs, Hn.
  induction n as [|n IH]; [reflexivity|].
  cbn [LT_loop]. change (-1 + 1) with 0.
  rewrite (bind_eq _ _ _ _ _ Hs).
  assert (Hadj : (ch <- getChannel ;; NextTokenOnChannel 0 ch) c = Ok (-1) c).
  { unfold bind, getChannel. exact Hn. }
  rewrite (bind_eq _ _ _ _ _ Hadj). exact IH.
Qed.

(** C1 fails on the code: on a new stream whose source only produces its
    end marker, on a channel other than that of the stream, [LT k] panics
    with an index out of range for every [k] above 0: initialisation leaves
    the cursor at [-1], the scan answers [-1] again at each turn, and
    [c.tokens[-1]] is read. *)
Theorem LT_reads_out_of_range ech etxt chan k :
  ech <> chan -> 0 < k ->
  LT k (NewCommonTokenStream (mkSource [] ech etxt) chan)
  = Panic IndexOutOfRange.
Proof.
  intros Hch Hk.
  unfold LT. unfold lazyInit at 1. unfold bind at 1. unfold bind at 1.
  cbn [getIndex NewCommonTokenStream index]. cbn [Z.eqb Pos.eqb].
  rewrite (setup_only_eof ech etxt chan Hch).
  destruct (Z.eqb_spec k 0) as [|_]; [lia|].
  destruct (Z.ltb_spec k 0) as [|_]; [lia|].
  unfold bind at 1. cbn [getIndex index].
  rewrite (bind_eq _ _ _ _ _ (LT_loop_only_eof ech etxt chan _ Hch)).
  reflexivity.
Qed.

(** ** The loops of the embedding are given turns enough *)

Lemma bounded_ret {A} (a : A) : bounded (ret a).
Proof.
  intros c Hinv. split; [discriminate|].
  intros a' c' H. inversion H; subst. exact Hinv.
Qed.

Lemma bounded_throw {A} p : p <> OutOfFuel -> bounded (@throw A p).
Proof.
  intros Hp c Hinv. split; [unfold throw; congruence|].
  intros a c' H. discriminate.
Qed.

Lemma bounded_bind {A B} (m : M A) (k : A -> M B) :
  bounded m -> (forall a, bounded (k a)) -> bounded (bind m k).
Proof.
  intros Hm Hk c Hinv. destruct (Hm c Hinv) as [Hne Hpres].
  unfold bind. destruct (m c) as [a c1|p] eqn:E.
  - apply (Hk a c1). apply (Hpres a c1). reflexivity.
  - split; [congruence | discriminate].
Qed.

Lemma bounded_read {A} (f : CommonTokenStream -> A) :
  bounded (fun c => Ok (f c) c).
Proof.
  intros c Hinv. split; [discriminate|].
  intros a c' H. inversion H; subst. exact Hinv.
Qed.

Lemma bounded_putIndex v : bounded (putIndex v).
Proof.
  intros c Hinv. split; [discriminate|].
  intros a c' H. inversion H; subst. exact Hinv.
Qed.

Lemma bounded_tokenAt i : bounded (tokenAt i).
Proof.
  intros c Hinv. unfold tokenAt.
  destruct (at_index (tokens c) i); split; try discriminate.
  intros a c' H. inversion H; subst. exact Hinv.
Qed.

(** A computation that returns from every such stream, only extending it. *)
Lemma bounded_total {A} (m : M A) :
  (forall c, eof_inv c -> exists a c', m c = Ok a c' /\ ext c c') ->
  bounded m.
Proof.
  intros H c Hinv. destruct (H c Hinv) as (a & c' & E & Hext).
  rewrite E. split; [discriminate|].
  intros a' c'' H'. inversion H'; subst.
  eapply ext_eof_inv; eassumption.
Qed.

Lemma bounded_fetch n : bounded (fetch n).
Proof.
  apply bounded_total. intros c _.
  destruct (fetch_spec n c) as (r & c' & E & Hext & _). eauto.
Qed.

Lemma bounded_Sync i : bounded (Sync i).
Proof.
  apply bounded_total. intros c _.
  destruct (Sync_spec i c) as (b & c' & E & Hext & _). eauto.
Qed.

Lemma bounded_NextTokenOnChannel i chan : bounded (NextTokenOnChannel i chan).
Proof.
  destruct (Z.le_gt_cases 0 i) as [Hi|Hi].
  - apply bounded_total. intros c Hinv.
    destruct (NextTokenOnChannel_spec i chan c Hinv Hi)
      as (r & c' & E & Hext & _). eauto.
  - intros c Hinv. unfold NextTokenOnChannel.
    destruct (Sync_spec i c) as (b & c1 & Hs & _).
    rewrite (bind_eq _ _ _ _ _ Hs). unfold bind, len, tokenAt.
    destruct (Z.geb_spec i (size c1)) as [Hge|_].
    { unfold size in Hge. lia. }
    unfold at_index. destruct (Z.ltb_spec i 0); [|lia].
    split; [discriminate | discriminate].
Qed.

Lemma bounded_Fill : bounded Fill.
Proof.
  apply bounded_total. intros c Hinv.
  destruct (Fill_spec c Hinv) as (c' & E & Hext & _). eauto.
Qed.

Ltac bounded_step :=
  first
    [ apply bounded_ret
    | apply bounded_throw; discriminate
    | apply bounded_putIndex
    | apply bounded_tokenAt
    | apply bounded_fetch
    | apply bounded_Sync
    | apply bounded_NextTokenOnChannel
    | apply bounded_Fill
    | apply (bounded_read index)
    | apply (bounded_read fetchedEOF)
    | apply (bounded_read channel)
    | apply (bounded_read size)
    | apply (bounded_read tokens)
    | apply (bounded_read tokenSource)
    | apply bounded_bind; [|intros ?]
    | match goal with
      | |- bounded (if ?b then _ else _) => destruct b
      | |- bounded (match ?x with Some _ => _ | None => _ end) => destruct x
      | |- bounded (let _ := _ in _) => cbv zeta
      | H : forall _, bounded _ |- _ => apply H
      | H : forall _ _, bounded _ |- _ => apply H
      | H : forall _ _ _, bounded _ |- _ => apply H
      end ].

Ltac bounded_auto := repeat bounded_step.

Lemma bounded_scan_backward k : forall i chan, bounded (scan_backward k i chan).
Proof. induction k as [|k IH]; intros i chan; cbn; bounded_auto. Qed.

Lemma bounded_LB_loop k : forall i, bounded (LB_loop k i).
Proof.
  induction k as [|k IH]; intros i; cbn; unfold getChannel; bounded_auto;
    apply bounded_scan_backward.
Qed.

Lemma bounded_LT_loop k : forall i, bounded (LT_loop k i).
Proof.
  induction k as [|k IH]; intros i; cbn; unfold getChannel; bounded_auto.
Qed.

Lemma bounded_filter_loop k : forall i chan hidden,
  bounded (filter_loop k i chan hidden).
Proof. induction k as [|k IH]; intros i chan hidden; cbn; bounded_auto. Qed.

Lemma bounded_text_loop k : forall i s, bounded (text_loop k i s).
Proof. induction k as [|k IH]; intros i s; cbn; bounded_auto. Qed.

Lemma bounded_tokens_loop k : forall i types subset,
  bounded (tokens_loop k i types subset).
Proof.
  induction k as [|k IH]; intros i types subset; cbn; bounded_auto.
Qed.

Lemma bounded_count_loop k : forall i n, bounded (count_loop k i n).
Proof.
  induction k as [|k IH]; intros i n; cbn; unfold getChannel; bounded_auto.
Qed.

Ltac bounded_all :=
  repeat first
    [ bounded_step
    | apply bounded_scan_backward
    | apply bounded_LB_loop
    | apply bounded_LT_loop
    | apply bounded_filter_loop
    | apply bounded_text_loop
    | apply bounded_tokens_loop
    | apply bounded_count_loop ].

Lemma bounded_run o : bounded (run o).
Proof.
  destruct o; cbn [run];
    unfold reset, Seek, Get, GetAllText, GetAllTokens, GetTokenSource, Size,
      Index, Mark, Release, LA, LT, LB, Consume, setup, lazyInit,
      adjustSeekIndex, getHiddenTokensToRight, getHiddenTokensToLeft,
      filterForChannel, previousTokenOnChannel, GetTextFromTokens, GetTokens,
      GetTextFromInterval, getNumberOfOnChannelTokens, len, getIndex,
      getFetchedEOF, getChannel;
    bounded_all.
Qed.

(** No operation on a stream a client can get reaches the bound of a loop of
    the embedding: a panic of the embedding is a panic of the code. *)
Theorem run_never_out_of_fuel o c :
  reachable c -> run o c <> Panic OutOfFuel.
Proof.
  intros Hreach. destruct (reachable_wf _ Hreach) as (Hinv & _ & _).
  apply (bounded_run o c Hinv).
Qed.

(** ** Hidden tokens *)




(** ** Lookahead when the end-of-stream token is on the channel *)

Lemma push_one_eof_on_channel c :
  fetchedEOF c = false -> eof_on_channel c -> eof_on_channel (push_one c).
Proof.
  intros Hf [Hbuf Hsrc]. destruct (Hsrc Hf) as [Hpend Hmark].
  unfold eof_on_channel, onChannel, push_one, append_next, NextToken in *.
  destruct (pending (tokenSource c)) as [|t rest] eqn:Hp;
    cbn [SetTokenIndex GetTokenType].
  - rewrite Z.eqb_refl. cbn. split; [|discriminate].
    intros t Hin He. apply in_app_or in Hin. destruct Hin as [Hin|[<-|[]]].
    + now apply Hbuf.
    + cbn. exact Hmark.
  - assert (Hnew : forall t', In t' (tokens c ++ [SetTokenIndex t (size c)]) ->
                              isEOF t' -> GetChannel t' = channel c).
    { intros t' Hin He. apply in_app_or in Hin.
      destruct Hin as [Hin|[<-|[]]]; [now apply Hbuf|].
      cbn. apply Hpend; [left; reflexivity | exact He]. }
    destruct (GetTokenType t =? TokenEOF); cbn.
    + split; [exact Hnew | discriminate].
    + split; [exact Hnew|]. intros _. split; [|exact Hmark].
      intros t' Hin. apply Hpend. right. exact Hin.
Qed.

Lemma ext_eof_on_channel c c' :
  ext c c' -> eof_on_channel c -> eof_on_channel c'.
Proof.
  induction 1; intros Hc;
    [assumption | exact (IHext Hc) | apply push_one_eof_on_channel; auto].
Qed.

Lemma ext_live c c' : ext c c' -> live c -> live c'.
Proof.
  intros Hext Hlive Hf'. destruct (fetchedEOF c) eqn:Hf.
  - destruct (ext_prefix _ _ Hext) as [l Hl]. rewrite Hl.
    specialize (Hlive Hf). destruct (tokens c); [contradiction|].
    discriminate.
  - eapply ext_fetched_nonempty; eassumption.
Qed.

(** With the end-of-stream token on the channel, the scan answers [-1] only
    when asked for a position beyond the buffer. *)
Lemma scan_result_minus_one i c :
  eof_inv c -> eof_on_channel c -> 0 <= i ->
  scan_result i (-1) c -> size c <= i.
Proof.
  intros Hinv [Hbuf _] Hi [(_ & Hf & Hnone)|(Hr & _)]; [|lia].
  destruct (Z.le_gt_cases (size c) i) as [|Hlt]; [assumption|exfalso].
  destruct (at_index_in_range (tokens c) (size c - 1)) as [t Ht].
  { unfold size in *. lia. }
  apply (Hnone (size c - 1) t); [lia | exact Ht|].
  apply Hbuf.
  - apply at_index_nth in Ht. eapply nth_error_In. exact Ht.
  - apply (eof_inv_last c (size c - 1) t); auto. lia.
Qed.

Lemma LT_loop_spec n : forall i c,
  eof_inv c -> eof_on_channel c ->
  (exists t, at_index (tokens c) i = Some t /\ onChannel c t) ->
  exists r c',
    LT_loop n i c = Ok r c' /\ ext c c' /\ i <= r /\
    exists t,
      at_index (tokens c') r = Some t /\ onChannel c' t /\
      (Z.of_nat n <= r - i \/ isEOF t).
Proof.
  induction n as [|n IH]; intros i c Hinv Hon (t & Ht & Hch).
  - exists i, c. cbn. repeat split; auto using ext_refl; try lia.
    exists t. repeat split; auto. left. lia.
  - pose proof (at_index_Some _ _ _ Ht) as Hrange.
    cbn [LT_loop].
    destruct (Sync_spec (i + 1) c)
      as (b & c1 & Hsync & Hext1 & _ & Hbt & Hbf & _).
    rewrite (bind_eq _ _ _ _ _ Hsync).
    pose proof (ext_eof_inv _ _ Hext1 Hinv) as Hinv1.
    pose proof (ext_eof_on_channel _ _ Hext1 Hon) as Hon1.
    pose proof (ext_at_index _ _ _ _ Hext1 Ht) as Ht1.
    assert (Hch1 : onChannel c1 t).
    { unfold onChannel in *. rewrite (ext_channel _ _ Hext1). exact Hch. }
    destruct b.
    + specialize (Hbt eq_refl).
      destruct (NextTokenOnChannel_spec (i + 1) (channel c1) c1 Hinv1
                  ltac:(lia)) as (r & c2 & Hscan & Hext2 & _ & Hres).
      assert (Hadj : (chan <- getChannel ;; NextTokenOnChannel (i + 1) chan) c1
                     = Ok r c2).
      { unfold bind, getChannel. exact Hscan. }
      rewrite (bind_eq _ _ _ _ _ Hadj).
      pose proof (ext_eof_inv _ _ Hext2 Hinv1) as Hinv2.
      pose proof (ext_eof_on_channel _ _ Hext2 Hon1) as Hon2.
      assert (Hvalid : i + 1 <= r /\
                       exists t2, at_index (tokens c2) r = Some t2 /\
                                  onChannel c2 t2).
      { destruct Hres as [(-> & Hf & Hnone)|(Hr & Hat & _)]; [|auto].
        exfalso.
        assert (Hs : size c2 <= i + 1).
        { apply (scan_result_minus_one (i + 1) c2 Hinv2 Hon2); [lia|].
          left. auto. }
        pose proof (ext_size _ _ Hext2). lia. }
      destruct Hvalid as [Hr Hat].
      destruct (IH r c2 Hinv2 Hon2 Hat)
        as (r' & c' & Hrun & Hext' & Hr' & t' & Ht' & Hch' & Hprog).
      exists r', c'. split; [exact Hrun|].
      split; [eapply ext_trans; [|eassumption]; eapply ext_trans; eassumption|].
      split; [lia|]. exists t'. repeat split; auto.
      destruct Hprog as [Hp|He]; [left; lia | right; exact He].
    + destruct (Hbf eq_refl) as [Hf1 Hs1].
      unfold bind at 1. unfold ret at 1.
      destruct (IH i c1 Hinv1 Hon1 ltac:(eauto))
        as (r' & c' & Hrun & Hext' & Hr' & t' & Ht' & Hch' & Hprog).
      exists r', c'. split; [exact Hrun|].
      split; [eapply ext_trans; eassumption|].
      split; [lia|]. exists t'. repeat split; auto. right.
      pose proof (at_index_Some _ _ _ Ht') as Hrange'.
      assert (Htok : tokens c' = tokens c1).
      { rewrite (ext_done _ _ Hext' Hf1). reflexivity. }
      rewrite Htok in *. fold (size c1) in Hrange'.
      assert (r' = i) by lia. subst r'.
      rewrite Ht1 in Ht'. inversion Ht'; subst t'.
      apply (eof_inv_last c1 i t); auto.
Qed.

(** On a stream a client can get that was not rebound after its end was
    fetched, and whose end-of-stream tokens are on its channel, [LT k]
    returns a buffered token on the channel for every [k] above 0, and the
    end-of-stream token for every [k] above what the buffer can grow to. *)
Theorem LT_returns_when_eof_on_channel k c :
  reachable c -> eof_on_channel c -> live c -> 0 < k ->
  exists t c',
    LT k c = Ok (Some t) c' /\ ext c c' /\
    at_index (tokens c') (GetTokenIndex t) = Some t /\ onChannel c' t /\
    (Z.of_nat (potential c) < k -> isEOF t).
Proof.
  intros Hreach Hon Hlive Hk.
  destruct (reachable_wf _ Hreach) as (Hinv & Hidx & Hcur).
  destruct (lazyInit_spec c Hinv) as (c1 & Hinit & Hext1 & Hsame & Hres).
  pose proof (ext_eof_inv _ _ Hext1 Hinv) as Hinv1.
  pose proof (ext_eof_on_channel _ _ Hext1 Hon) as Hon1.
  pose proof (ext_live _ _ Hext1 Hlive) as Hlive1.
  assert (Hvalid : exists t, at_index (tokens c1) (index c1) = Some t /\
                             onChannel c1 t).
  { destruct (Z.eq_dec (index c) (-1)) as [He|Hne].
    - destruct (Hres He) as [(Hr & Hf & Hnone)|(_ & Hat & _)]; [|exact Hat].
      exfalso.
      assert (Hs : size c1 <= 0).
      { apply (scan_result_minus_one 0 c1 Hinv1 Hon1); [lia|].
        left. rewrite <- Hr. auto. }
      apply (Hlive1 Hf). unfold size in Hs.
      destruct (tokens c1); [reflexivity | cbn in Hs; lia].
    - rewrite (Hsame Hne). destruct Hcur as [|Hat]; [contradiction|exact Hat]. }
  destruct (LT_loop_spec (Z.to_nat (k - 1)) (index c1) c1 Hinv1 Hon1 Hvalid)
    as (r & c' & Hrun & Hext' & Hr & t & Ht & Hch & Hprog).
  exists t, c'. split.
  - unfold LT. rewrite (bind_eq _ _ _ _ _ Hinit).
    destruct (Z.eqb_spec k 0); [lia|].
    destruct (Z.ltb_spec k 0); [lia|].
    unfold bind at 1. unfold getIndex.
    rewrite (bind_eq _ _ _ _ _ Hrun).
    unfold bind, tokenAt. rewrite Ht. reflexivity.
  - pose proof (ext_trans _ _ _ Hext1 Hext') as Hext.
    split; [exact Hext|].
    pose proof (ext_indexed _ _ Hext Hidx) as Hidx'.
    rewrite (indexed_at c' r t Hidx' Ht).
    split; [exact Ht|]. split; [exact Hch|].
    intros Hbig. destruct Hprog as [Hp|He]; [exfalso | exact He].
    destruct Hvalid as (t1 & Ht1 & _).
    pose proof (at_index_Some _ _ _ Ht1).
    pose proof (at_index_Some _ _ _ Ht) as Hrange. fold (size c') in Hrange.
    pose proof (size_le_potential c').
    pose proof (ext_potential _ _ Hext). lia.
Qed.

(** ** The buffer and the source *)

Lemma number_from_app l1 : forall n l2,
  number_from n (l1 ++ l2)
  = number_from n l1 ++ number_from (n + length l1) l2.
Proof.
  induction l1 as [|t l1 IH]; intros n l2; cbn.
  - now rewrite Nat.add_0_r.
  - rewrite IH. now rewrite Nat.add_succ_r.
Qed.

Lemma firstn_succ_skipn (l : list Token) : forall m t rest,
  skipn m l = t :: rest ->
  firstn (S m) l = firstn m l ++ [t] /\ skipn (S m) l = rest /\
  length (firstn m l) = m.
Proof.
  induction l as [|x l IH]; intros m t rest H.
  - destruct m; discriminate.
  - destruct m as [|m].
    + cbn in H. inversion H; subst. cbn. auto.
    + cbn in H. destruct (IH m t rest H) as (H1 & H2 & H3).
      split; [|split].
      * rewrite !firstn_cons, H1. reflexivity.
      * exact H2.
      * rewrite firstn_cons. cbn [length]. now rewrite H3.
Qed.

Lemma push_one_upcoming c :
  exists t rest,
    upcoming (tokenSource c) = t :: rest /\
    tokens (push_one c) = tokens c ++ [SetTokenIndex t (size c)] /\
    (fetchedEOF (push_one c) = false ->
     upcoming (tokenSource (push_one c)) = rest).
Proof.
  unfold upcoming, push_one, append_next, NextToken.
  destruct (pending (tokenSource c)) as [|t p]; cbn [app].
  - eexists. exists []. split; [reflexivity|].
    cbn [SetTokenIndex GetTokenType]. rewrite Z.eqb_refl. cbn.
    split; [reflexivity | discriminate].
  - exists t, (p ++ [mkToken TokenEOF (eofChannel (tokenSource c))
                             (eofText (tokenSource c)) (-1)]).
    split; [reflexivity|]. cbn [SetTokenIndex GetTokenType].
    destruct (GetTokenType t =? TokenEOF); cbn; auto.
Qed.

(** What was fetched is what the source had to produce, in order, each
    token with its position in the buffer as its index. *)
Lemma ext_upcoming c c' :
  ext c c' -> fetchedEOF c = false ->
  let m := (length (tokens c') - length (tokens c))%nat in
  tokens c' =
    tokens c ++
    number_from (length (tokens c)) (firstn m (upcoming (tokenSource c))) /\
  (fetchedEOF c' = false ->
   upcoming (tokenSource c') = skipn m (upcoming (tokenSource c))).
Proof.
  intros Hext Hf. induction Hext as [|c1 v Hext IH Hv|c1 Hext IH Hf1].
  - cbn zeta. rewrite Nat.sub_diag. cbn. now rewrite app_nil_r.
  - exact IH.
  - cbn zeta in *. destruct IH as [Htok Hup]. specialize (Hup Hf1).
    destruct (push_one_upcoming c1) as (t & rest & Hu & Hpush & Hrest).
    set (m1 := (length (tokens c1) - length (tokens c))%nat) in *.
    assert (Hlen : length (tokens c1) = (length (tokens c) + m1)%nat).
    { destruct (ext_prefix _ _ Hext) as [l Hl]. subst m1.
      rewrite Hl, length_app. lia. }
    rewrite Hu in Hup. symmetry in Hup.
    destruct (firstn_succ_skipn _ _ _ _ Hup) as (H1 & H2 & H3).
    assert (Hm : (length (tokens (push_one c1)) - length (tokens c))%nat
                 = S m1).
    { rewrite Hpush, length_app. cbn. lia. }
    rewrite Hm. split.
    + rewrite Hpush, H1, number_from_app, H3. cbn [number_from].
      rewrite app_assoc, <- Htok. unfold size. now rewrite Hlen.
    + intros Hf'. rewrite (Hrest Hf'). symmetry. exact H2.
Qed.


(** X2: on a stream whose end has not been fetched, [fetch n] returns; it
    appends the next tokens of the source, in order and numbered by their
    positions in the buffer, as many as the count it answers with; the count
    is [n] itself when [n] is not positive, and otherwise is positive and at
    most [n], short of [n] only with the end fetched. *)
Theorem fetch_appends_next_tokens n c :
  fetchedEOF c = false ->
  exists r c',
    fetch n c = Ok r c' /\
    index c' = index c /\ channel c' = channel c /\
    tokens c' =
      tokens c ++
      number_from (length (tokens c))
                  (firstn (Z.to_nat r) (upcoming (tokenSource c))) /\
    (n <= 0 -> r = n /\ c' = c) /\
    (0 < n -> 0 < r <= n) /\
    (r < n -> fetchedEOF c' = true).
Proof.
  intros Hf.
  destruct (fetch_spec n c) as (r & c' & E & Hext & Hidx & _ & Hfalse).
  exists r, c'. split; [exact E|]. split; [exact Hidx|].
  split; [now apply ext_channel|].
  destruct (ext_upcoming _ _ Hext Hf) as [Htok _]. cbn zeta in Htok.
  assert (Hm : (length (tokens c') - length (tokens c))%nat = Z.to_nat r).
  { unfold size in Hfalse.
    destruct (Hfalse Hf) as [(-> & _ & Hs & _)|(_ & Hr & Hs)]; lia. }
  rewrite Hm in Htok. split; [exact Htok|].
  destruct (Hfalse Hf) as [(-> & Hf' & Hs & _)|(Hf' & Hr & Hs)].
  - split; [|split; [lia|lia]].
    intros Hn. split; [reflexivity|].
    unfold fetch in E. rewrite Hf in E.
    replace (Z.to_nat n) with 0%nat in E by lia. cbn in E.
    inversion E. reflexivity.
  - split; [lia|]. split; [lia | auto].
Qed.

(** X3: after any sequence of operations on a new stream, the buffer holds
    the first tokens of what the source had to produce, in order, each with
    its position in the buffer as its index. *)
Theorem buffer_is_prefix_of_input lexer chan os c :
  run_all os (NewCommonTokenStream lexer chan) = Ok tt c ->
  tokens c =
    number_from 0 (firstn (length (tokens c)) (upcoming lexer)).
Proof.
  intros Hrun. apply run_all_ext in Hrun.
  destruct (ext_upcoming _ _ Hrun eq_refl) as [Htok _].
  cbn in Htok. rewrite Nat.sub_0_r in Htok. exact Htok.
Qed.

(** ** The backward scan and the hidden tokens *)

Lemma scan_backward_spec k : forall i chan c,
  Z.of_nat k = i + 1 -> i < size c ->
  exists r,
    scan_backward k i chan c = Ok r c /\ -1 <= r <= i /\
    (r = -1 \/ exists t, at_index (tokens c) r = Some t /\ GetChannel t = chan) /\
    (forall j t, r < j <= i -> at_index (tokens c) j = Some t ->
                 GetChannel t <> chan).
Proof.
  induction k as [|k IH]; intros i chan c Hk Hi.
  - exists i. cbn. assert (i = -1) by lia. subst i.
    split; [reflexivity|]. split; [lia|]. split; [left; reflexivity|].
    intros j t Hj. lia.
  - cbn [scan_backward]. destruct (Z.geb_spec i 0) as [_|]; [|lia].
    destruct (at_index_in_range (tokens c) i) as [t Ht].
    { fold (size c). lia. }
    unfold bind, tokenAt. rewrite Ht.
    destruct (Z.eqb_spec (GetChannel t) chan) as [Hon|Hoff]; cbn [negb].
    + exists i. split; [reflexivity|]. split; [lia|].
      split; [right; eauto|]. intros j t' Hj. lia.
    + destruct (IH (i - 1) chan c ltac:(lia) ltac:(lia))
        as (r & Hrun & Hr & Hat & Hnone).
      exists r. split; [exact Hrun|]. split; [lia|]. split; [exact Hat|].
      intros j t' Hj Ht'. destruct (Z.eq_dec j i) as [->|Hji].
      * rewrite Ht in Ht'. inversion Ht'; subst. exact Hoff.
      * apply (Hnone j t'); [lia | exact Ht'].
Qed.

(** X4: [previousTokenOnChannel i chan] never changes the stream.  From a
    buffered position [i], or from [-1], it answers with the nearest position
    at or before [i] whose token is on the channel [chan], or with [-1] when
    there is none.  Below [-1] it answers with [i] itself, and from a position
    that is not negative and not buffered it panics with an index out of
    range. *)
Theorem previousTokenOnChannel_nearest i chan c :
  (-1 <= i < size c ->
   exists r,
     previousTokenOnChannel i chan c = Ok r c /\ -1 <= r <= i /\
     (r = -1 \/
      exists t, at_index (tokens c) r = Some t /\ GetChannel t = chan) /\
     (forall j t, r < j <= i -> at_index (tokens c) j = Some t ->
                  GetChannel t <> chan)) /\
  (i < -1 -> previousTokenOnChannel i chan c = Ok i c) /\
  (0 <= i -> size c <= i ->
   previousTokenOnChannel i chan c = Panic IndexOutOfRange).
Proof.
  unfold previousTokenOnChannel. split; [|split].
  - intros Hi. apply scan_backward_spec; lia.
  - intros Hi. replace (Z.to_nat (i + 1)) with 0%nat by lia. reflexivity.
  - intros Hi Hout.
    replace (Z.to_nat (i + 1)) with (S (Z.to_nat i)) by lia.
    cbn [scan_backward]. destruct (Z.geb_spec i 0) as [_|]; [|lia].
    unfold bind, tokenAt.
    destruct (at_index (tokens c) i) as [t|] eqn:Ht; [|reflexivity].
    apply at_index_Some in Ht. fold (size c) in Ht. lia.
Qed.

Lemma hidden_range_check i c :
  ((i <? 0) || (i >=? size c) = false <-> 0 <= i < size c).
Proof.
  rewrite orb_false_iff, Z.ltb_ge.
  destruct (Z.geb_spec i (size c)) as [Hge|Hlt].
  - split; [intros [_ H]; discriminate | lia].
  - split; [intros [H _]; lia | intros H; split; [lia | reflexivity]].
Qed.

Lemma getHiddenTokensToRight_spec i chan c :
  eof_inv c ->
  exists c1,
    lazyInit c = Ok tt c1 /\
    (i < 0 \/ size c1 <= i ->
     getHiddenTokensToRight i chan c = Panic (NotInRange i (size c1 - 1))) /\
    (0 <= i < size c1 ->
     exists c' to,
       ext c1 c' /\
       getHiddenTokensToRight i chan c
       = Ok (filter (admits chan) (slice (tokens c') (i + 1) to)) c' /\
       ((to = size c' - 1 /\ fetchedEOF c' = true /\
         none_on_channel_from (i + 1) c') \/
        (i + 1 <= to /\
         (exists t, at_index (tokens c') to = Some t /\ onChannel c' t) /\
         none_on_channel_between (i + 1) to c'))).
Proof.
  intros Hinv.
  destruct (lazyInit_spec c Hinv) as (c1 & Hinit & Hext1 & _).
  pose proof (ext_eof_inv _ _ Hext1 Hinv) as Hinv1.
  exists c1. split; [exact Hinit|].
  assert (Hunf :
    getHiddenTokensToRight i chan c =
    (if (i <? 0) || (i >=? size c1)
     then throw (NotInRange i (size c1 - 1))
     else
       nextOnChannel <- NextTokenOnChannel (i + 1) LexerDefaultTokenChannel ;;
       sz <- len ;;
       filterForChannel (i + 1)
         (if nextOnChannel =? -1 then sz - 1 else nextOnChannel) chan) c1).
  { unfold getHiddenTokensToRight. rewrite (bind_eq _ _ _ _ _ Hinit).
    reflexivity. }
  rewrite Hunf. clear Hunf.
  split.
  - intros Hout.
    destruct ((i <? 0) || (i >=? size c1)) eqn:Hchk; [reflexivity|].
    apply hidden_range_check in Hchk. lia.
  - intros Hin. pose proof (proj2 (hidden_range_check i c1) Hin) as Hchk.
    rewrite Hchk.
    destruct (NextTokenOnChannel_spec (i + 1) LexerDefaultTokenChannel c1
                Hinv1 ltac:(lia)) as (r & c' & Hscan & Hext' & _ & Hres).
    rewrite (bind_eq _ _ _ _ _ Hscan). unfold bind, len.
    exists c', (if r =? -1 then size c' - 1 else r).
    split; [exact Hext'|].
    pose proof (ext_size _ _ Hext') as Hsz.
    destruct Hres as [(-> & Hf & Hnone)|(Hr & (t & Ht & Hon) & Hnone)].
    + cbn [Z.eqb Pos.eqb]. split.
      * apply filterForChannel_spec; lia.
      * left. auto.
    + pose proof (at_index_Some _ _ _ Ht) as Hrange. fold (size c') in Hrange.
      destruct (Z.eqb_spec r (-1)) as [|_]; [lia|]. split.
      * apply filterForChannel_spec; lia.
      * right. split; [exact Hr|]. split; [eauto | exact Hnone].
Qed.

(** X5: on a stream a client can get, [getHiddenTokensToRight i chan]
    initialises the stream and then, when [i] is negative or not a buffered
    position, panics reporting [i] and the last buffered position.
    Otherwise it answers with the tokens that the test admits among those
    buffered from [i + 1] to a boundary; the boundary is the first position
    after [i] whose token is on the channel of the stream, whatever the
    default channel is, and is the last position of the buffer, filled, when
    there is no such token. *)
Theorem getHiddenTokensToRight_range i chan c :
  reachable c ->
  exists c1,
    lazyInit c = Ok tt c1 /\
    (i < 0 \/ size c1 <= i ->
     getHiddenTokensToRight i chan c = Panic (NotInRange i (size c1 - 1))) /\
    (0 <= i < size c1 ->
     exists c' to,
       (exists l, tokens c' = tokens c1 ++ l) /\
       getHiddenTokensToRight i chan c
       = Ok (filter (admits chan) (slice (tokens c') (i + 1) to)) c' /\
       ((to = size c' - 1 /\ fetchedEOF c' = true /\
         (forall j t, i + 1 <= j -> at_index (tokens c') j = Some t ->
                      GetChannel t <> channel c')) \/
        (i + 1 <= to /\
         (exists t, at_index (tokens c') to = Some t /\
                    GetChannel t = channel c') /\
         (forall j t, i + 1 <= j < to -> at_index (tokens c') j = Some t ->
                      GetChannel t <> channel c')))).
Proof.
  intros Hreach. destruct (reachable_wf _ Hreach) as (Hinv & _ & _).
  destruct (getHiddenTokensToRight_spec i chan c Hinv)
    as (c1 & Hinit & Hout & Hin).
  exists c1. split; [exact Hinit|]. split; [exact Hout|].
  intros Hi. destruct (Hin Hi) as (c' & to & Hext & Hrun & Hcase).
  exists c', to. split; [now apply ext_prefix|]. split; [exact Hrun|].
  exact Hcase.
Qed.

Lemma filter_admits_all (l : list Token) :
  Forall (fun t => GetChannel t <> LexerDefaultTokenChannel) l ->
  filter (admits (-1)) l = l.
Proof.
  induction 1 as [|t l Ht _ IH]; cbn [filter]; [reflexivity|].
  unfold admits at 1. cbn [Z.eqb Pos.eqb].
  destruct (Z.eqb_spec (GetChannel t) LexerDefaultTokenChannel);
    [contradiction|].
  cbn [negb]. now rewrite IH.
Qed.

Lemma slice_Forall (P : Token -> Prop) l lo hi :
  0 <= lo ->
  (forall j t, lo <= j <= hi -> at_index l j = Some t -> P t) ->
  Forall P (slice l lo hi).
Proof.
  intros Hlo H. apply Forall_forall. intros t Hin.
  unfold slice in Hin. apply In_nth_error in Hin. destruct Hin as [n Hn].
  assert (Hlt : (n < Z.to_nat (hi + 1 - lo))%nat).
  { destruct (Nat.lt_ge_cases n (Z.to_nat (hi + 1 - lo))); [assumption|].
    rewrite nth_error_firstn in Hn.
    destruct (Nat.ltb_spec n (Z.to_nat (hi + 1 - lo))); [lia|discriminate]. }
  rewrite nth_error_firstn in Hn.
  destruct (Nat.ltb_spec n (Z.to_nat (hi + 1 - lo))); [|lia].
  rewrite nth_error_skipn in Hn.
  apply (H (lo + Z.of_nat n) t); [lia|].
  unfold at_index. destruct (Z.ltb_spec (lo + Z.of_nat n) 0); [lia|].
  replace (Z.to_nat (lo + Z.of_nat n)) with (Z.to_nat lo + n)%nat by lia.
  exact Hn.
Qed.

(** X6: on a stream a client can get, [getHiddenTokensToLeft i chan]
    initialises the stream and then, when [i] is negative or not a buffered
    position, panics reporting [i] and the last buffered position.
    Otherwise it fetches nothing and answers with the tokens that the test
    admits among those buffered after [p] and before [i], where [p] is the
    nearest position before [i] whose token is on the default channel, or
    [-1]; asked for channel [-1] it answers with all of them, and at
    position 0 with none. *)
Theorem getHiddenTokensToLeft_range i chan c :
  reachable c ->
  exists c1,
    lazyInit c = Ok tt c1 /\
    (i < 0 \/ size c1 <= i ->
     getHiddenTokensToLeft i chan c = Panic (NotInRange i (size c1 - 1))) /\
    (0 <= i < size c1 ->
     exists p,
       -1 <= p < i /\
       (p = -1 \/
        exists t, at_index (tokens c1) p = Some t /\
                  GetChannel t = LexerDefaultTokenChannel) /\
       (forall j t, p < j < i -> at_index (tokens c1) j = Some t ->
                    GetChannel t <> LexerDefaultTokenChannel) /\
       getHiddenTokensToLeft i chan c
       = Ok (filter (admits chan) (slice (tokens c1) (p + 1) (i - 1))) c1 /\
       (chan = -1 ->
        getHiddenTokensToLeft i chan c
        = Ok (slice (tokens c1) (p + 1) (i - 1)) c1) /\
       (i = 0 -> getHiddenTokensToLeft i chan c = Ok [] c1)).
Proof.
  intros Hreach. destruct (reachable_wf _ Hreach) as (Hinv & _ & _).
  destruct (lazyInit_spec c Hinv) as (c1 & Hinit & _).
  exists c1. split; [exact Hinit|].
  assert (Hunf :
    getHiddenTokensToLeft i chan c =
    (if (i <? 0) || (i >=? size c1)
     then throw (NotInRange i (size c1 - 1))
     else
       prevOnChannel <- previousTokenOnChannel (i - 1)
                                               LexerDefaultTokenChannel ;;
       if prevOnChannel =? i - 1 then ret []
       else filterForChannel (prevOnChannel + 1) (i - 1) chan) c1).
  { unfold getHiddenTokensToLeft. rewrite (bind_eq _ _ _ _ _ Hinit).
    reflexivity. }
  rewrite Hunf. clear Hunf.
  split.
  - intros Hout.
    destruct ((i <? 0) || (i >=? size c1)) eqn:Hchk; [reflexivity|].
    apply hidden_range_check in Hchk. lia.
  - intros Hin. pose proof (proj2 (hidden_range_check i c1) Hin) as Hchk.
    rewrite Hchk.
    destruct (scan_backward_spec (Z.to_nat (i - 1 + 1)) (i - 1)
                LexerDefaultTokenChannel c1 ltac:(lia) ltac:(lia))
      as (p & Hrun & Hp & Hat & Hnone).
    fold (previousTokenOnChannel (i - 1) LexerDefaultTokenChannel) in Hrun.
    rewrite (bind_eq _ _ _ _ _ Hrun).
    exists p. split; [lia|]. split; [exact Hat|]. split.
    { intros j t Hj. apply Hnone. lia. }
    assert (Hres :
      (if p =? i - 1 then ret []
       else filterForChannel (p + 1) (i - 1) chan) c1
      = Ok (filter (admits chan) (slice (tokens c1) (p + 1) (i - 1))) c1).
    { destruct (Z.eqb_spec p (i - 1)) as [->|Hne].
      - unfold slice. replace (Z.to_nat (i - 1 + 1 - (i - 1 + 1))) with 0%nat
          by lia. reflexivity.
      - apply filterForChannel_spec; lia. }
    split; [exact Hres|]. split.
    + intros ->. rewrite Hres. f_equal. apply filter_admits_all.
      apply slice_Forall; [lia|]. intros j t Hj. apply Hnone. lia.
    + intros ->. rewrite Hres. f_equal.
      unfold slice. replace (Z.to_nat (0 - 1 + 1 - (p + 1))) with 0%nat by lia.
      reflexivity.
Qed.

(** ** Scanning what is buffered *)

Lemma Sync_buffered i c : i < size c -> exists b, Sync i c = Ok b c.
Proof.
  intros Hi.
  destruct (Sync_spec i c) as (b & c' & E & _ & _ & _ & _ & Hin & _).
  exists b. rewrite E, (Hin Hi). reflexivity.
Qed.

Lemma scan_forward_buffered r c fuel : forall j token,
  eof_inv c ->
  (exists t, at_index (tokens c) r = Some t /\ onChannel c t) ->
  none_on_channel_between j r c ->
  at_index (tokens c) j = Some token -> j <= r ->
  r - j < Z.of_nat fuel ->
  scan_forward fuel j token c = Ok r c.
Proof.
  induction fuel as [|fuel IH]; intros j token Hinv Hat Hnone Htok Hj Hfuel;
    [lia|].
  destruct Hat as (t & Ht & Hon).
  pose proof (at_index_Some _ _ _ Ht) as Hr. fold (size c) in Hr.
  pose proof (at_index_Some _ _ _ Htok) as Hjr.
  cbn [scan_forward]. unfold bind at 1. unfold getChannel.
  destruct (Z.eq_dec j r) as [->|Hne].
  - rewrite Htok in Ht. inversion Ht; subst t.
    unfold onChannel in Hon. rewrite Hon, Z.eqb_refl. reflexivity.
  - assert (Hoff : GetChannel token <> channel c).
    { apply (Hnone j token); [lia | exact Htok]. }
    destruct (Z.eqb_spec (GetChannel token) (channel c)); [contradiction|].
    cbn [negb].
    destruct (Z.eqb_spec (GetTokenType token) TokenEOF) as [He|_].
    { destruct (eof_inv_isEOF c j token Hinv Htok He). lia. }
    destruct (Sync_buffered (j + 1) c ltac:(lia)) as [b Hs].
    rewrite (bind_eq _ _ _ _ _ Hs).
    destruct (at_index_in_range (tokens c) (j + 1)) as [token' Htok'].
    { fold (size c). lia. }
    unfold bind, tokenAt. rewrite Htok'.
    apply IH; eauto; try lia.
    intros j' t' Hj'. apply Hnone. lia.
Qed.

(** The scan for a token that is buffered fetches nothing. *)
Lemma NextTokenOnChannel_buffered i r chan c :
  eof_inv c -> 0 <= i <= r ->
  (exists t, at_index (tokens c) r = Some t /\ onChannel c t) ->
  none_on_channel_between i r c ->
  NextTokenOnChannel i chan c = Ok r c.
Proof.
  intros Hinv Hi Hat Hnone.
  destruct Hat as (t & Ht & Hon).
  pose proof (at_index_Some _ _ _ Ht) as Hr. fold (size c) in Hr.
  unfold NextTokenOnChannel.
  destruct (Sync_buffered i c ltac:(lia)) as [b Hs].
  rewrite (bind_eq _ _ _ _ _ Hs). unfold bind at 1. unfold len.
  destruct (Z.geb_spec i (size c)); [lia|].
  destruct (at_index_in_range (tokens c) i) as [token Htok].
  { fold (size c). lia. }
  unfold bind, tokenAt. rewrite Htok.
  apply scan_forward_buffered; eauto; try lia.
  unfold scan_fuel. unfold size in Hr. lia.
Qed.

(** Before a buffered token on the channel there is a first one. *)
Lemma first_on_channel c p : forall (n : nat) i,
  Z.of_nat n = p - i -> 0 <= i ->
  (exists t, at_index (tokens c) p = Some t /\ onChannel c t) ->
  exists r,
    i <= r <= p /\
    (exists t, at_index (tokens c) r = Some t /\ onChannel c t) /\
    none_on_channel_between i r c.
Proof.
  induction n as [|n IH]; intros i Hn Hi Hat.
  - exists p. split; [lia|]. split; [exact Hat|].
    intros j t Hj. lia.
  - destruct Hat as (tp & Htp & Honp).
    pose proof (at_index_Some _ _ _ Htp) as Hp.
    destruct (at_index_in_range (tokens c) i) as [t Ht]; [lia|].
    destruct (Z.eq_dec (GetChannel t) (channel c)) as [Hon|Hoff].
    + exists i. split; [lia|]. split; [eauto|]. intros j t' Hj. lia.
    + destruct (IH (i + 1) ltac:(lia) ltac:(lia) ltac:(eauto))
        as (r & Hr & Hat & Hnone).
      exists r. split; [lia|]. split; [exact Hat|].
      intros j t' Hj Ht'. destruct (Z.eq_dec j i) as [->|Hji].
      * rewrite Ht in Ht'. inversion Ht'; subst. exact Hoff.
      * apply (Hnone j t'); [lia | exact Ht'].
Qed.

Lemma lazyInit_buffered c p :
  eof_inv c ->
  (exists t, at_index (tokens c) p = Some t /\ onChannel c t) ->
  exists v,
    lazyInit c = Ok tt (set_index v c) /\
    (index c <> -1 -> v = index c).
Proof.
  intros Hinv Hat. unfold lazyInit, bind at 1, getIndex.
  destruct (Z.eqb_spec (index c) (-1)) as [He|Hne].
  - destruct Hat as (tp & Htp & Honp).
    pose proof (at_index_Some _ _ _ Htp) as Hp. fold (size c) in Hp.
    destruct (first_on_channel c p (Z.to_nat p) 0 ltac:(lia) ltac:(lia)
                ltac:(eauto)) as (r & Hr & Hat & Hnone).
    exists r. split; [|contradiction].
    unfold setup. destruct (Sync_buffered 0 c ltac:(lia)) as [b Hs].
    rewrite (bind_eq _ _ _ _ _ Hs).
    unfold adjustSeekIndex, bind, getChannel.
    rewrite (NextTokenOnChannel_buffered 0 r (channel c) c Hinv ltac:(lia)
               Hat Hnone).
    reflexivity.
  - exists (index c). split; [|reflexivity].
    unfold ret. destruct c; reflexivity.
Qed.

(** X7: on a stream a client can get whose cursor is initialised, after any
    sequence of operations that return, [Seek] to the position the cursor was
    at puts the cursor back there and changes nothing else: nothing is
    fetched. *)
Theorem Seek_back_restores_cursor os c c' :
  reachable c -> index c <> -1 ->
  run_all os c = Ok tt c' ->
  Seek (index c) c' = Ok tt (set_index (index c) c').
Proof.
  intros Hreach Hidx Hrun.
  destruct (reachable_wf _ Hreach) as (Hinv & _ & Hcur).
  destruct Hcur as [|Hat]; [contradiction|].
  pose proof (run_all_ext _ _ _ _ Hrun) as Hext.
  pose proof (ext_eof_inv _ _ Hext Hinv) as Hinv'.
  assert (Hat' : exists t, at_index (tokens c') (index c) = Some t /\
                           onChannel c' t).
  { destruct Hat as (t & Ht & Hon). exists t. split.
    - eapply ext_at_index; eassumption.
    - unfold onChannel in *. rewrite (ext_channel _ _ Hext). exact Hon. }
  destruct (lazyInit_buffered c' (index c) Hinv' Hat') as (v & Hinit & _).
  unfold Seek. rewrite (bind_eq _ _ _ _ _ Hinit).
  destruct Hat' as (t & Ht & Hon).
  pose proof (at_index_Some _ _ _ Ht) as Hp.
  unfold adjustSeekIndex, bind, getChannel.
  rewrite (NextTokenOnChannel_buffered (index c) (index c)
             (channel (set_index v c')) (set_index v c')).
  - reflexivity.
  - exact Hinv'.
  - lia.
  - exists t. split; assumption.
  - intros j t' Hj. lia.
Qed.

(** X8: on a stream a client can get, [Seek 0] returns, and then either
    the cursor is at the first buffered token on the channel and [LT 1]
    answers with that token and changes nothing, or the cursor is [-1], the
    end is fetched, no buffered token is on the channel and [LT 1] panics
    with an index out of range. *)
Theorem Seek_0_then_LT_1 c :
  reachable c ->
  exists c',
    Seek 0 c = Ok tt c' /\
    ((exists t,
        at_index (tokens c') (index c') = Some t /\
        GetChannel t = channel c' /\
        (forall j t', 0 <= j < index c' ->
                      at_index (tokens c') j = Some t' ->
                      GetChannel t' <> channel c') /\
        LT 1 c' = Ok (Some t) c') \/
     (index c' = -1 /\ fetchedEOF c' = true /\
      (forall j t', at_index (tokens c') j = Some t' ->
                    GetChannel t' <> channel c') /\
      LT 1 c' = Panic IndexOutOfRange)).
Proof.
  intros Hreach. destruct (reachable_wf _ Hreach) as (Hinv & _ & _).
  destruct (Seek_spec 0 c Hinv ltac:(lia)) as (c' & Hseek & Hext & Hres).
  pose proof (ext_eof_inv _ _ Hext Hinv) as Hinv'.
  exists c'. split; [exact Hseek|].
  destruct Hres as [(Hr & Hf & Hnone)|(Hr & (t & Ht & Hon) & Hnone)].
  - right. split; [exact Hr|]. split; [exact Hf|]. split.
    { intros j t' Ht'. apply (Hnone j t'); [|exact Ht'].
      apply at_index_Some in Ht'. lia. }
    destruct (lazyInit_spec c' Hinv') as (c2 & Hinit & Hext2 & _ & Hres2).
    rewrite LT_1_eq, (bind_eq _ _ _ _ _ Hinit).
    unfold bind, getIndex, tokenAt.
    assert (Hidx2 : index c2 = -1).
    { destruct (Hres2 Hr) as [(H & _)|(H0 & (t & Ht & Hon) & _)];
        [exact H | exfalso].
      rewrite (ext_done _ _ Hext2 Hf) in Ht, Hon. cbn in Ht.
      apply (Hnone (index c2) t H0 Ht). exact Hon. }
    rewrite Hidx2. reflexivity.
  - left. exists t. split; [exact Ht|]. split; [exact Hon|].
    split; [exact Hnone|].
    pose proof (at_index_Some _ _ _ Ht) as Hrange.
    rewrite LT_1_eq. unfold lazyInit, bind, getIndex, tokenAt.
    destruct (Z.eqb_spec (index c') (-1)); [lia|].
    unfold ret. rewrite Ht. reflexivity.
Qed.

(** ** What every stream keeps *)

(** X9: on every stream a client can get, the cursor is [-1] or the position
    of a buffered token on the channel of the stream, and a buffered token is
    the end-of-stream token exactly when the end has been fetched and the
    token is the last of the buffer. *)
Theorem stream_invariants c :
  reachable c ->
  (index c = -1 \/
   exists t, at_index (tokens c) (index c) = Some t /\
             GetChannel t = channel c) /\
  (forall j t, at_index (tokens c) j = Some t ->
               (GetTokenType t = TokenEOF <->
                fetchedEOF c = true /\ j = size c - 1)).
Proof.
  intros Hreach. destruct (reachable_wf _ Hreach) as (Hinv & _ & Hcur).
  split; [exact Hcur|].
  intros j t Ht. pose proof (at_index_Some _ _ _ Ht) as Hj.
  apply at_index_nth in Ht. specialize (Hinv _ _ Ht).
  unfold isEOF, size in *. rewrite Hinv.
  split; intros [Hf Hl]; (split; [exact Hf | lia]).
Qed.

(** X10: a sequence of operations that returns leaves the channel of the
    stream as it was and only appends to the buffer; on a stream whose end
    has been fetched it leaves the buffer, the flag and the source as they
    were. *)
Theorem operations_only_append os c c' :
  run_all os c = Ok tt c' ->
  channel c' = channel c /\
  (exists l, tokens c' = tokens c ++ l) /\
  (fetchedEOF c = true ->
   tokens c' = tokens c /\ fetchedEOF c' = true /\
   tokenSource c' = tokenSource c).
Proof.
  intros Hrun. apply run_all_ext in Hrun.
  split; [now apply ext_channel|]. split; [now apply ext_prefix|].
  intros Hf. rewrite (ext_done _ _ Hrun Hf). cbn. auto.
Qed.

(** X11: on a stream a client can get, the token [Get i] answers with has
    [i] as its index and is the token buffered at [i] in the stream [Get]
    leaves, whose cursor is the one initialisation gives. *)
Theorem Get_token_has_its_index i c t c' :
  reachable c -> Get i c = Ok t c' ->
  GetTokenIndex t = i /\ at_index (tokens c') i = Some t /\
  lazyInit c = Ok tt c'.
Proof.
  intros Hreach Hget. destruct (reachable_wf _ Hreach) as (_ & Hidx & _).
  pose proof (Get_ext _ _ _ _ Hget) as Hext.
  pose proof (ext_indexed _ _ Hext Hidx) as Hidx'.
  unfold Get in Hget. apply bind_Ok in Hget.
  destruct Hget as ([] & c1 & Hinit & Hat).
  apply tokenAt_Ok in Hat. destruct Hat as [-> Hat].
  split; [eapply indexed_at; eassumption|]. split; assumption.
Qed.

(** X12: on a stream a client can get, [LT 0] answers with no token and
    [LA 0], which asks that token for its type, panics. *)
Theorem LA_0_panics c :
  reachable c ->
  (exists c', LT 0 c = Ok None c') /\ LA 0 c = Panic NilDereference.
Proof.
  intros Hreach. destruct (reachable_wf _ Hreach) as (Hinv & _ & _).
  destruct (lazyInit_spec c Hinv) as (c1 & Hinit & _).
  assert (HLT : LT 0 c = Ok None c1).
  { unfold LT. rewrite (bind_eq _ _ _ _ _ Hinit). reflexivity. }
  split; [eauto|]. unfold LA, bind. rewrite HLT. reflexivity.
Qed.

(** X13: a stream rebound by [SetTokenSource] after its end was fetched
    never reads its new source: [Seek] leaves it as it is with the cursor at
    [-1], [LT k] for [k] above 0 and [Consume] panic with an index out of
    range, and [GetAllText] answers with the empty text. *)
Theorem rebound_after_end_is_empty src c c' :
  fetchedEOF c = true ->
  SetTokenSource src c = Ok tt c' ->
  (forall i, 0 <= i -> Seek i c' = Ok tt c') /\
  (forall k, 0 < k -> LT k c' = Panic IndexOutOfRange) /\
  Consume c' = Panic IndexOutOfRange /\
  GetAllText c' = Ok EmptyString c'.
Proof.
  intros Hf Hset. unfold SetTokenSource in Hset. inversion Hset; subst c'.
  clear Hset. rewrite Hf.
  set (c' := mkStream src [] (-1) true (channel c)).
  assert (Hsz : size c' = 0) by reflexivity.
  assert (Hf' : fetchedEOF c' = true) by reflexivity.
  assert (Hi' : index c' = -1) by reflexivity.
  assert (Hs : forall i, 0 <= i -> Sync i c' = Ok false c').
  { intros i Hi. unfold Sync, bind at 1, len. rewrite Hsz.
    destruct (Z.gtb_spec (i - 0 + 1) 0); [|lia].
    unfold bind, fetch, ret. rewrite Hf'.
    destruct (Z.geb_spec 0 (i - 0 + 1)); [lia | reflexivity]. }
  assert (Hn : forall i chan, 0 <= i ->
                              NextTokenOnChannel i chan c' = Ok (-1) c').
  { intros i chan Hi. unfold NextTokenOnChannel.
    rewrite (bind_eq _ _ _ _ _ (Hs i Hi)). unfold bind, len.
    rewrite Hsz.
    destruct (Z.geb_spec i 0); [reflexivity | lia]. }
  assert (Hadj : forall i, 0 <= i -> adjustSeekIndex i c' = Ok (-1) c').
  { intros i Hi. unfold adjustSeekIndex, bind, getChannel. now apply Hn. }
  assert (Hinit : lazyInit c' = Ok tt c').
  { unfold lazyInit, bind at 1, getIndex. rewrite Hi'.
    cbn [Z.eqb Pos.eqb]. unfold setup.
    rewrite (bind_eq _ _ _ _ _ (Hs 0 ltac:(lia))).
    rewrite (bind_eq _ _ _ _ _ (Hadj 0 ltac:(lia))). reflexivity. }
  assert (Hloop : forall n, LT_loop n (-1) c' = Ok (-1) c').
  { induction n as [|n IH]; [reflexivity|].
    cbn [LT_loop]. change (-1 + 1) with 0.
    rewrite (bind_eq _ _ _ _ _ (Hs 0 ltac:(lia))).
    unfold bind at 1. unfold ret at 1. exact IH. }
  assert (HLT : forall k, 0 < k -> LT k c' = Panic IndexOutOfRange).
  { intros k Hk. unfold LT. rewrite (bind_eq _ _ _ _ _ Hinit).
    destruct (Z.eqb_spec k 0); [lia|]. destruct (Z.ltb_spec k 0); [lia|].
    unfold bind at 1. unfold getIndex. rewrite Hi'.
    rewrite (bind_eq _ _ _ _ _ (Hloop _)). reflexivity. }
  split; [|split; [exact HLT|split]].
  - intros i Hi. unfold Seek. rewrite (bind_eq _ _ _ _ _ Hinit).
    rewrite (bind_eq _ _ _ _ _ (Hadj i Hi)). reflexivity.
  - assert (Hskip : skipEofCheck c' = false) by reflexivity.
    rewrite Consume_unfold, Hskip.
    cbn [negb]. unfold bind at 1. unfold bind at 1. unfold LA, bind at 1.
    rewrite (HLT 1 ltac:(lia)). reflexivity.
  - unfold GetAllText, GetTextFromInterval.
    rewrite (bind_eq _ _ _ _ _ Hinit).
    assert (Hfill : Fill c' = Ok tt c').
    { unfold Fill. rewrite (bind_eq _ _ _ _ _ Hinit).
      unfold fill_fuel. rewrite Nat.add_comm. cbn [Nat.add fill_loop].
      rewrite (bind_eq _ _ _ _ _ (fetch_done 1000 c' Hf')). reflexivity. }
    rewrite (bind_eq _ _ _ _ _ Hfill). reflexivity.
Qed.

(** ** Whole-input queries *)



Lemma tokens_loop_spec types k : forall i subset c,
  0 <= i -> ((0 < k)%nat -> i + Z.of_nat k <= size c) ->
  tokens_loop k i types subset c =
  Ok (subset ++
      filter (types_admit types)
             (before_eof (firstn k (skipn (Z.to_nat i) (tokens c))))) c.
Proof.
  induction k as [|k IH]; intros i subset c Hi Hk; cbn [tokens_loop firstn].
  - cbn. now rewrite app_nil_r.
  - destruct (at_index_in_range (tokens c) i) as [t Ht].
    { fold (size c). lia. }
    unfold bind, tokenAt. rewrite Ht.
    rewrite (skipn_at_index _ _ _ Ht). cbn [firstn before_eof].
    destruct (GetTokenType t =? TokenEOF).
    + cbn. now rewrite app_nil_r.
    + rewrite IH by lia. cbn [filter]. unfold types_admit at 2.
      destruct types as [contains|].
      * destruct (contains (GetTokenType t)); [|reflexivity].
        now rewrite <- app_assoc.
      * now rewrite <- app_assoc.
Qed.

(** X15: [GetTokens start stop types] answers with no token and leaves the
    stream untouched when [start] or [stop] is negative.  Otherwise, on a
    stream a client can get, it initialises the stream, fetches nothing more,
    and answers with the tokens whose type [types] admits among those
    buffered from [start] to just before [stop], [stop] being clamped to the
    last position of the buffer, and before the first end-of-stream token:
    the token at [stop] is not among them. *)
Theorem GetTokens_range start stop types c :
  (start < 0 \/ stop < 0 -> GetTokens start stop types c = Ok [] c) /\
  (reachable c -> 0 <= start -> 0 <= stop ->
   exists c1,
     lazyInit c = Ok tt c1 /\
     GetTokens start stop types c =
     Ok (filter (types_admit types)
                (before_eof
                   (slice (tokens c1) start
                          (Z.min stop (size c1 - 1) - 1)))) c1).
Proof.
  unfold GetTokens. split.
  - intros Hneg.
    destruct ((start <? 0) || (stop <? 0)) eqn:Hchk; [reflexivity|].
    apply orb_false_iff in Hchk. destruct Hchk as [H1 H2].
    apply Z.ltb_ge in H1. apply Z.ltb_ge in H2. lia.
  - intros Hreach Hs He.
    destruct (reachable_wf _ Hreach) as (Hinv & _ & _).
    destruct (lazyInit_spec c Hinv) as (c1 & Hinit & _).
    exists c1. split; [exact Hinit|].
    destruct (Z.ltb_spec start 0); [lia|].
    destruct (Z.ltb_spec stop 0); [lia|]. cbn [orb].
    rewrite (bind_eq _ _ _ _ _ Hinit). unfold bind, len.
    assert (Hclamp : (if stop >=? size c1 then size c1 - 1 else stop)
                     = Z.min stop (size c1 - 1)).
    { destruct (Z.geb_spec stop (size c1)); lia. }
    rewrite Hclamp, tokens_loop_spec by lia.
    unfold slice.
    replace (Z.min stop (size c1 - 1) - 1 + 1 - start)
      with (Z.min stop (size c1 - 1) - start) by lia.
    reflexivity.
Qed.

Lemma count_loop_spec k : forall i n c,
  eof_inv c -> 0 <= i -> i + Z.of_nat k = size c ->
  count_loop k i n c =
  Ok (n + Z.of_nat
            (length (filter (on_channel_b (channel c))
                            (skipn (Z.to_nat i) (tokens c))))) c.
Proof.
  induction k as [|k IH]; intros i n c Hinv Hi Hk; cbn [count_loop].
  - rewrite skipn_all2 by (unfold size in Hk; lia). cbn.
    unfold ret. f_equal. lia.
  - destruct (at_index_in_range (tokens c) i) as [t Ht].
    { fold (size c). lia. }
    unfold bind, tokenAt, getChannel. rewrite Ht.
    rewrite (skipn_at_index _ _ _ Ht). cbn [filter].
    unfold on_channel_b at 1.
    destruct (Z.eqb_spec (GetTokenType t) TokenEOF) as [He|Hne].
    + destruct (eof_inv_isEOF c i t Hinv Ht He) as [_ Hlast].
      rewrite skipn_all2 by (unfold size in Hlast; lia).
      unfold ret. f_equal.
      destruct (GetChannel t =? channel c); cbn; lia.
    + rewrite IH by (auto; lia). f_equal.
      destruct (GetChannel t =? channel c); cbn [length]; lia.
Qed.

(** X16: on a stream a client can get, [getNumberOfOnChannelTokens] returns,
    leaves the stream filled, and answers with the number of tokens of the
    buffer that are on the channel of the stream, the end-of-stream token
    being counted when it is on that channel. *)
Theorem getNumberOfOnChannelTokens_counts c :
  reachable c ->
  exists c',
    getNumberOfOnChannelTokens c =
    Ok (Z.of_nat (length (filter (on_channel_b (channel c)) (tokens c')))) c' /\
    fetchedEOF c' = true /\
    (exists l, tokens c' = tokens c ++ l).
Proof.
  intros Hreach. destruct (reachable_wf _ Hreach) as (Hinv & _ & _).
  destruct (Fill_spec c Hinv) as (c' & Hfill & Hext & Hf & _).
  pose proof (ext_eof_inv _ _ Hext Hinv) as Hinv'.
  exists c'. split; [|split; [exact Hf | now apply ext_prefix]].
  unfold getNumberOfOnChannelTokens.
  rewrite (bind_eq _ _ _ _ _ Hfill). unfold bind, len.
  rewrite count_loop_spec by (auto; unfold size; lia).
  rewrite (ext_channel _ _ Hext). reflexivity.
Qed.

(** X17: on a stream a client can get, [GetTextFromTokens] on two tokens
    buffered at [i] and [j] returns, leaves the stream filled, and answers
    with the text of the tokens buffered from [i] to [j], [j] being clamped to
    the last position of the buffer, before the first end-of-stream token;
    without a first or a last token it answers with the empty text and
    leaves the stream untouched. *)
Theorem GetTextFromTokens_of_buffered c i j ti tj :
  reachable c ->
  at_index (tokens c) i = Some ti ->
  at_index (tokens c) j = Some tj ->
  (exists c',
     fetchedEOF c' = true /\
     GetTextFromTokens (Some ti) (Some tj) c =
     Ok (concat_text
           (before_eof (slice (tokens c') i (Z.min j (size c' - 1))))) c') /\
  GetTextFromTokens None (Some tj) c = Ok EmptyString c /\
  GetTextFromTokens (Some ti) None c = Ok EmptyString c.
Proof.
  intros Hreach Hi Hj.
  destruct (reachable_wf _ Hreach) as (Hinv & Hidx & _).
  split; [|split; reflexivity].
  destruct (GetTextFromInterval_spec c Hinv) as (c' & _ & Hf & Htext).
  exists c'. split; [exact Hf|].
  unfold GetTextFromTokens.
  rewrite (indexed_at c i ti Hidx Hi), (indexed_at c j tj Hidx Hj), Htext.
  unfold interval_text.
  apply at_index_Some in Hi. apply at_index_Some in Hj.
  destruct (Z.ltb_spec i 0); [lia|]. destruct (Z.ltb_spec j 0); [lia|].
  reflexivity.
Qed.

(** ** The whole input *)

Lemma number_from_not_eof l : forall n,
  Forall (fun t => ~ isEOF t) (number_from n l) ->
  Forall (fun t => ~ isEOF t) l.
Proof.
  induction l as [|t l IH]; intros n H; [constructor|].
  cbn in H. inversion H; subst. constructor; [assumption|].
  eapply IH. eassumption.
Qed.

Lemma firstn_upto_eof pre e : forall U m,
  firstn m U = pre ++ [e] ->
  Forall (fun t => ~ isEOF t) pre -> isEOF e ->
  upto_eof U = pre ++ [e].
Proof.
  induction pre as [|p pre IH]; intros U m Hfirst Hpre He.
  - destruct m as [|m]; [discriminate|]. destruct U as [|u U]; [discriminate|].
    cbn in Hfirst. injection Hfirst as Hu Hrest. subst u. cbn.
    destruct (Z.eqb_spec (GetTokenType e) TokenEOF); [reflexivity|].
    contradiction.
  - destruct m as [|m]; [discriminate|]. destruct U as [|u U]; [discriminate|].
    cbn in Hfirst. injection Hfirst as Hu Hrest. subst u.
    inversion Hpre as [|? ? Hp Hpre']; subst.
    cbn. destruct (Z.eqb_spec (GetTokenType p) TokenEOF); [contradiction|].
    f_equal. eapply IH; eassumption.
Qed.

Lemma ext_new_filled lexer chan c :
  ext (NewCommonTokenStream lexer chan) c -> fetchedEOF c = true ->
  tokens c = number_from 0 (upto_eof (upcoming lexer)).
Proof.
  intros Hext Hf.
  destruct (ext_upcoming _ _ Hext eq_refl) as [Htok _].
  cbn in Htok. rewrite Nat.sub_0_r in Htok.
  destruct (wf_New lexer chan) as (Hinv0 & _ & _).
  pose proof (ext_eof_inv _ _ Hext Hinv0) as Hinv.
  assert (Hne : tokens c <> []).
  { eapply ext_fetched_nonempty; eauto. }
  destruct (eof_inv_shape c Hinv Hf Hne) as (P & E & Hshape & HE & HP).
  set (L := firstn (length (tokens c)) (upcoming lexer)) in *.
  assert (HL : L <> []).
  { intros HL. rewrite HL in Htok. cbn in Htok. contradiction. }
  destruct (exists_last HL) as (pre & e & Hpre).
  rewrite Htok, Hpre, number_from_app in Hshape. cbn in Hshape.
  apply app_inj_tail in Hshape. destruct Hshape as [HP' HE'].
  rewrite Htok. f_equal. rewrite Hpre. symmetry.
  apply (firstn_upto_eof pre e (upcoming lexer) (length (tokens c)) Hpre).
  - apply (number_from_not_eof pre 0). rewrite HP'. exact HP.
  - rewrite <- HE' in HE. exact HE.
Qed.

(** X18: on a new stream [Fill] returns and leaves in the buffer what the
    source had to produce up to and with its first end-of-stream token, in
    order and numbered from 0; so does any sequence of operations that leaves
    the end fetched. *)
Theorem Fill_buffers_whole_input lexer chan :
  (exists c,
     Fill (NewCommonTokenStream lexer chan) = Ok tt c /\
     tokens c = number_from 0 (upto_eof (upcoming lexer))) /\
  (forall os c,
     run_all os (NewCommonTokenStream lexer chan) = Ok tt c ->
     fetchedEOF c = true ->
     tokens c = number_from 0 (upto_eof (upcoming lexer))).
Proof.
  split.
  - destruct (wf_New lexer chan) as (Hinv0 & _ & _).
    destruct (Fill_spec _ Hinv0) as (c & Hfill & Hext & Hf & _).
    exists c. split; [exact Hfill|]. now apply (ext_new_filled lexer chan).
  - intros os c Hrun Hf. apply run_all_ext in Hrun.
    now apply (ext_new_filled lexer chan).
Qed.

(** ** [Consume] moves forward *)

(** X19: on a stream a client can get, when [Consume] returns, the cursor
    initialisation gives is not negative and the buffer is only appended to;
    the new cursor is the first position after it whose token is on the
    channel, or it is [-1], which happens only when the end is fetched with no
    token on the channel after the old cursor, some end-of-stream token not
    being on the channel of the stream. *)
Theorem Consume_moves_forward c c' :
  reachable c -> Consume c = Ok tt c' ->
  exists c1,
    lazyInit c = Ok tt c1 /\ 0 <= index c1 /\
    (exists l, tokens c' = tokens c1 ++ l) /\
    ((index c1 < index c' /\
      (exists t, at_index (tokens c') (index c') = Some t /\
                 GetChannel t = channel c') /\
      (forall j t, index c1 < j < index c' ->
                   at_index (tokens c') j = Some t ->
                   GetChannel t <> channel c')) \/
     (index c' = -1 /\ fetchedEOF c' = true /\
      (forall j t, index c1 < j -> at_index (tokens c') j = Some t ->
                   GetChannel t <> channel c') /\
      ~ eof_on_channel c)).
Proof.
  intros Hreach Hcon. destruct (reachable_wf _ Hreach) as (Hinv & _ & _).
  destruct (Consume_cases c Hinv) as (c1 & Hinit & Hcase).
  pose proof (lazyInit_ext _ _ _ Hinit) as Hext1.
  pose proof (ext_eof_inv _ _ Hext1 Hinv) as Hinv1.
  exists c1. split; [exact Hinit|].
  destruct (at_index (tokens c1) (index c1)) as [t|] eqn:Ht.
  2:{ destruct Hcase as [_ E]. rewrite E in Hcon. discriminate. }
  pose proof (at_index_Some _ _ _ Ht) as Hrange.
  destruct Hcase as [_ [[_ E]|[Hne (r & c2 & Hadj & E)]]].
  { rewrite E in Hcon. discriminate. }
  rewrite E in Hcon. inversion Hcon; subst c'. clear Hcon E.
  destruct (adjustSeekIndex_spec (index c1 + 1) c1 Hinv1 ltac:(lia))
    as (r' & c2' & Hadj' & Hext2 & _ & Hres).
  rewrite Hadj in Hadj'. inversion Hadj'; subst r' c2'. clear Hadj'.
  split; [lia|]. split; [exact (ext_prefix _ _ Hext2)|].
  cbn [index tokens set_index fetchedEOF channel].
  destruct Hres as [(-> & Hf & Hnone)|(Hr & Hat & Hnone)].
  - right. split; [reflexivity|]. split; [exact Hf|]. split.
    { intros j t' Hj. apply Hnone. lia. }
    intros Hon.
    pose proof (ext_eof_on_channel _ _ (ext_trans _ _ _ Hext1 Hext2) Hon)
      as Hon2.
    pose proof (ext_eof_inv _ _ Hext2 Hinv1) as Hinv2.
    assert (Hs : size c2 <= index c1 + 1).
    { apply (scan_result_minus_one (index c1 + 1) c2 Hinv2 Hon2); [lia|].
      left. auto. }
    apply Hne. apply (eof_inv_last c2 (index c1) t); auto.
    eapply ext_at_index; eassumption.
  - left. split; [lia|]. split; [exact Hat|].
    intros j t' Hj. apply Hnone. lia.
Qed.

(** ** Counting the tokens on the channel *)

Lemma firstn_add (l : list Token) : forall a b,
  firstn (a + b) l = firstn a l ++ firstn b (skipn a l).
Proof.
  induction l as [|x l IH]; intros a b.
  - now rewrite !firstn_nil, skipn_nil, firstn_nil.
  - destruct a as [|a]; [reflexivity|]. cbn. now rewrite IH.
Qed.

Lemma slice_split (l : list Token) lo mid hi :
  0 <= lo <= mid -> mid <= hi + 1 ->
  slice l lo hi = slice l lo (mid - 1) ++ slice l mid hi.
Proof.
  intros Hlo Hmid. unfold slice.
  replace (Z.to_nat (hi + 1 - lo))
    with (Z.to_nat (mid - 1 + 1 - lo) + Z.to_nat (hi + 1 - mid))%nat by lia.
  rewrite firstn_add, skipn_skipn.
  replace (Z.to_nat (mid - 1 + 1 - lo) + Z.to_nat lo)%nat with (Z.to_nat mid)
    by lia.
  reflexivity.
Qed.















Lemma slice_clamp (l : list Token) lo hi :
  slice l lo (Z.min hi (Z.of_nat (length l) - 1)) = slice l lo hi.
Proof.
  unfold slice.
  destruct (Z.le_gt_cases hi (Z.of_nat (length l) - 1)) as [H|H].
  - now rewrite Z.min_l by lia.
  - rewrite Z.min_r by lia.
    rewrite !firstn_all2; [reflexivity | |]; rewrite length_skipn; lia.
Qed.

Lemma interval_text_split c a b d :
  eof_inv c -> 0 <= a <= b + 1 -> b <= d ->
  interval_text (tokens c) a d =
  (interval_text (tokens c) a b ++ interval_text (tokens c) (b + 1) d)%string.
Proof.
  intros Hinv Ha Hb. unfold interval_text. rewrite !slice_clamp.
  destruct (Z.ltb_spec a 0) as [|_]; [lia|].
  destruct (Z.ltb_spec (b + 1) 0) as [|_]; [lia|]. cbn [orb].
  destruct (Z.ltb_spec d 0) as [Hd|Hd].
  - destruct (Z.ltb_spec b 0) as [_|]; [reflexivity | lia].
  - destruct (Z.ltb_spec b 0) as [Hneg|Hpos].
    + assert (b = -1) by lia. subst b.
      assert (a = 0) by lia. subst a. reflexivity.
    + rewrite (slice_split (tokens c) a (b + 1) d) by lia.
      replace (b + 1 - 1) with b by lia.
      destruct (Z.le_gt_cases (size c) (b + 1)) as [Hlast|Hin].
      * assert (Hnil : slice (tokens c) (b + 1) d = []).
        { unfold slice. rewrite skipn_all2 by (unfold size in Hlast; lia).
          apply firstn_nil. }
        rewrite Hnil, app_nil_r. cbn [before_eof].
        unfold concat_text at 3. cbn [fold_left].
        now rewrite append_empty_r.
      * rewrite before_eof_app.
        -- rewrite concat_text_app.
           rewrite (before_eof_none (slice (tokens c) a b)); [reflexivity|].
           apply slice_Forall; [lia|]. intros j t Hj Ht He.
           destruct (eof_inv_isEOF c j t Hinv Ht He). lia.
        -- apply slice_Forall; [lia|]. intros j t Hj Ht He.
           destruct (eof_inv_isEOF c j t Hinv Ht He). lia.
Qed.

(** X24: on a stream a client can get, the text [GetTextFromInterval]
    answers with for the positions [a] to [d] is the text for [a] to [b]
    followed by the text for [b + 1] to [d], for every [b] from [a - 1] to
    [d], [a] not being negative; the three calls leave the same stream. *)
Theorem GetTextFromInterval_splits a b d c :
  reachable c -> 0 <= a <= b + 1 -> b <= d ->
  exists s1 s2 c',
    GetTextFromInterval (Some (a, b)) c = Ok s1 c' /\
    GetTextFromInterval (Some (b + 1, d)) c = Ok s2 c' /\
    GetTextFromInterval (Some (a, d)) c = Ok (s1 ++ s2)%string c'.
Proof.
  intros Hreach Ha Hb.
  destruct (reachable_wf _ Hreach) as (Hinv & _ & _).
  destruct (GetTextFromInterval_spec c Hinv) as (c' & Hext & Hf & Htext).
  exists (interval_text (tokens c') a b),
         (interval_text (tokens c') (b + 1) d), c'.
  split; [apply Htext|]. split; [apply Htext|].
  rewrite Htext. f_equal.
  apply interval_text_split; [|assumption|assumption].
  eapply ext_eof_inv; eassumption.
Qed.

Lemma lazyInit_initialised c :
  index c <> -1 -> lazyInit c = Ok tt c.
Proof.
  intros Hne. unfold lazyInit, bind, getIndex.
  destruct (Z.eqb_spec (index c) (-1)); [contradiction | reflexivity].
Qed.

(** X25: on a stream a client can get, [lazyInit] returns and a second
    [lazyInit] changes nothing more, also when the first one leaves the
    cursor at [-1]; on a stream whose cursor is not [-1] the first one
    changes nothing either. *)
Theorem lazyInit_idempotent c :
  reachable c ->
  exists c1,
    lazyInit c = Ok tt c1 /\ lazyInit c1 = Ok tt c1 /\
    (index c <> -1 -> c1 = c).
Proof.
  intros Hreach.
  destruct (reachable_wf _ Hreach) as (Hinv & _ & _).
  destruct (lazyInit_spec c Hinv) as (c1 & Hinit & Hext1 & Hsame & Hres).
  pose proof (ext_eof_inv _ _ Hext1 Hinv) as Hinv1.
  exists c1. split; [exact Hinit|]. split; [|exact Hsame].
  destruct (Z.eq_dec (index c1) (-1)) as [He|Hne];
    [|now apply lazyInit_initialised].
  assert (Hc : index c = -1).
  { destruct (Z.eq_dec (index c) (-1)) as [|Hn]; [assumption|].
    rewrite (Hsame Hn) in He. contradiction. }
  destruct (Hres Hc) as [(_ & Hf & Hnone)|(Hr & _)]; [|lia].
  destruct (lazyInit_spec c1 Hinv1) as (c2 & Hinit2 & Hext2 & _ & Hres2).
  rewrite Hinit2. f_equal.
  apply (ext_done_same _ _ Hext2 Hf).
  assert (Htok : tokens c2 = tokens c1).
  { rewrite (ext_done _ _ Hext2 Hf). reflexivity. }
  destruct (Hres2 He) as [(Hr2 & _)|(Hr2 & (t & Ht & Hon) & _)];
    [congruence|].
  exfalso. rewrite Htok in Ht. apply (Hnone (index c2) t Hr2 Ht).
  unfold onChannel in *. rewrite <- (ext_channel _ _ Hext2). exact Hon.
Qed.

(** X26: on a stream a client can get, [Seek i] for [i] not negative
    returns, and a second [Seek i] returns and changes nothing more: it
    fetches nothing and leaves the cursor where the first one put it. *)
Theorem Seek_idempotent i c :
  reachable c -> 0 <= i ->
  exists c', Seek i c = Ok tt c' /\ Seek i c' = Ok tt c'.
Proof.
  intros Hreach Hi.
  destruct (reachable_wf _ Hreach) as (Hinv & _ & _).
  destruct (Seek_spec i c Hinv Hi) as (c' & Hseek & Hext & Hres).
  pose proof (ext_eof_inv _ _ Hext Hinv) as Hinv'.
  exists c'. split; [exact Hseek|].
  destruct Hres as [(Hr & Hf & Hnone)|(Hr & Hat & Hnone)].
  - destruct (Seek_spec i c' Hinv' Hi) as (c2 & Hseek2 & Hext2 & Hres2).
    rewrite Hseek2. f_equal. apply (ext_done_same _ _ Hext2 Hf).
    assert (Htok : tokens c2 = tokens c').
    { rewrite (ext_done _ _ Hext2 Hf). reflexivity. }
    destruct Hres2 as [(Hr2 & _)|(Hr2 & (t & Ht & Hon) & _)]; [congruence|].
    exfalso. rewrite Htok in Ht. apply (Hnone (index c2) t Hr2 Ht).
    unfold onChannel in *. rewrite <- (ext_channel _ _ Hext2). exact Hon.
  - unfold Seek.
    rewrite (bind_eq _ _ _ _ _ (lazyInit_initialised c' ltac:(lia))).
    unfold adjustSeekIndex, bind, getChannel, putIndex.
    rewrite (NextTokenOnChannel_buffered i (index c') (channel c') c' Hinv'
               ltac:(lia) Hat Hnone).
    f_equal. destruct c'; reflexivity.
Qed.

(** X27: on a stream a client can get, when [Consume] returns and leaves a
    cursor that is not [-1], [LB 1] then answers with the token that [LT 1]
    answered with before [Consume], the token at the cursor that
    initialisation gives, and changes nothing. *)
Theorem Consume_then_LB_1 c c' :
  reachable c -> Consume c = Ok tt c' -> index c' <> -1 ->
  exists t c1,
    LT 1 c = Ok (Some t) c1 /\ LB 1 c' = Ok (Some t) c' /\
    at_index (tokens c') (index c1) = Some t /\ index c1 < index c'.
Proof.
  intros Hreach Hrun Hne.
  pose proof (reachable_wf _ Hreach) as Hwf.
  pose proof Hwf as (Hinv & _ & _).
  destruct (Consume_cases c Hinv) as (c1 & Hinit & Hcase).
  assert (Hext1 : ext c c1) by (eapply lazyInit_ext; eassumption).
  destruct (ext_wf _ _ Hext1 Hwf) as (Hinv1 & _ & Hcur1).
  destruct (at_index (tokens c1) (index c1)) as [t|] eqn:Ht.
  2:{ destruct Hcase as [_ Hp]. rewrite Hp in Hrun. discriminate. }
  destruct Hcase as (HLT & [(He & Hp)|(Hnot & r & c2 & Hadj & Hcon)]).
  { rewrite Hp in Hrun. discriminate. }
  rewrite Hcon in Hrun. injection Hrun as <-.
  cbn [index set_index] in Hne.
  pose proof (at_index_Some _ _ _ Ht) as Hrange.
  destruct (adjustSeekIndex_spec (index c1 + 1) c1 Hinv1 ltac:(lia))
    as (r' & c2' & Hadj' & Hext2 & Hidx2 & Hres).
  rewrite Hadj in Hadj'. injection Hadj' as <- <-.
  destruct Hres as [(Hr & _)|(Hr & (t2 & Ht2 & Hon2) & Hnone)];
    [contradiction|].
  assert (Hon : onChannel c1 t).
  { destruct Hcur1 as [Hm|(t' & Ht' & Hon')]; [lia|].
    rewrite Ht in Ht'. injection Ht' as <-. exact Hon'. }
  pose proof (ext_at_index _ _ _ _ Hext2 Ht) as Ht'.
  pose proof (ext_channel _ _ Hext2) as Hch.
  pose proof (at_index_Some _ _ _ Ht2) as Hr2.
  exists t, c1. split; [exact HLT|].
  assert (Hback : previousTokenOnChannel (r - 1) (channel c2) (set_index r c2)
                  = Ok (index c1) (set_index r c2)).
  { unfold previousTokenOnChannel.
    destruct (scan_backward_spec (Z.to_nat (r - 1 + 1)) (r - 1) (channel c2)
                (set_index r c2)) as (p & Hp & Hpr & Hpat & Hpnone).
    - lia.
    - unfold size. cbn [tokens set_index]. lia.
    - rewrite Hp. f_equal. cbn [tokens set_index] in Hpat, Hpnone.
      destruct (Z.lt_trichotomy p (index c1)) as [Hlt|[Heq|Hgt]].
      + exfalso. apply (Hpnone (index c1) t); [lia | exact Ht' |].
        unfold onChannel in Hon. congruence.
      + exact Heq.
      + exfalso. destruct Hpat as [Hm|(tp & Htp & Hcp)]; [lia|].
        apply (Hnone p tp); [lia | exact Htp | exact Hcp]. }
  assert (Hloop : LB_loop 1 r (set_index r c2)
                  = Ok (index c1) (set_index r c2)).
  { cbn [LB_loop]. unfold bind at 1. unfold getChannel.
    cbn [channel set_index]. rewrite (bind_eq _ _ _ _ _ Hback).
    reflexivity. }
  split; [|split].
  - unfold LB, bind at 1, getIndex. cbn [index set_index].
    destruct (Z.eqb_spec 1 0) as [|_]; [lia|].
    destruct (Z.ltb_spec (r - 1) 0) as [|_]; [lia|]. cbn [orb].
    change (Z.to_nat 1) with 1%nat.
    rewrite (bind_eq _ _ _ _ _ Hloop).
    destruct (Z.ltb_spec (index c1) 0) as [|_]; [lia|].
    unfold bind, tokenAt. cbn [tokens set_index]. rewrite Ht'. reflexivity.
  - exact Ht'.
  - cbn [index set_index]. lia.
Qed.

(** X28: on a stream a client can get, [LT k] for a negative [k]
    initialises the stream and answers as [LB (- k)] does then, fetching
    nothing more.  When the cursor is fewer than [- k] positions into the
    buffer, as it is on a stream just initialised, [LT k] answers with no
    token and [LA k] panics; when [LB (- k)] answers with a token, [LA k]
    answers with the type of that token. *)
Theorem LA_looks_back k c :
  reachable c -> k < 0 ->
  exists c1,
    lazyInit c = Ok tt c1 /\
    LT k c = LB (- k) c1 /\
    (index c1 + k < 0 ->
     LT k c = Ok None c1 /\ LA k c = Panic NilDereference) /\
    (forall t, LB (- k) c1 = Ok (Some t) c1 ->
               LA k c = Ok (GetTokenType t) c1).
Proof.
  intros Hreach Hk. destruct (reachable_wf _ Hreach) as (Hinv & _ & _).
  destruct (lazyInit_spec c Hinv) as (c1 & Hinit & _).
  assert (HLT : LT k c = LB (- k) c1).
  { unfold LT. rewrite (bind_eq _ _ _ _ _ Hinit).
    destruct (Z.eqb_spec k 0) as [|_]; [lia|].
    destruct (Z.ltb_spec k 0) as [_|]; [reflexivity | lia]. }
  exists c1. split; [exact Hinit|]. split; [exact HLT|]. split.
  - intros Hshort.
    assert (HLB : LB (- k) c1 = Ok None c1).
    { unfold LB, bind, getIndex.
      destruct (Z.ltb_spec (index c1 - - k) 0) as [_|]; [|lia].
      now rewrite orb_true_r. }
    split; [congruence|]. unfold LA, bind. rewrite HLT, HLB. reflexivity.
  - intros t HLB. unfold LA, bind. rewrite HLT, HLB. reflexivity.
Qed.

End Stream.

(** ** The theorems at sample inputs *)

Lemma LT_reads_out_of_range_witness :
  LT (-1) 1 (NewCommonTokenStream (mkSource [] 0 "<EOF>") 1)
  = Panic IndexOutOfRange.
Proof. apply LT_reads_out_of_range; lia. Defined.

(** The same with a token on the channel before the end marker: [LT 1] is
    that token and [LT 2] reads [c.tokens[-1]]. *)
Example LT_2_reads_out_of_range :
  let c := NewCommonTokenStream (mkSource [tok 2 1 " "] 0 "<EOF>") 1 in
  (exists c', LT (-1) 1 c = Ok (Some (mkToken 2 1 " " 0)) c') /\
  LT (-1) 2 c = Panic IndexOutOfRange.
Proof. split; [eexists|]; vm_compute; reflexivity. Qed.

(** C2 fails as stated, for every index: [Seek (-1)] panics with an index
    out of range, so that [Index] is not reached. *)
Lemma Seek_negative_index_panics :
  (Seek (-1) (-1) ;;; Index) (NewCommonTokenStream abc_source 0)
  = Panic IndexOutOfRange /\
  ~ exists r c',
      (Seek (-1) (-1) ;;; Index) (NewCommonTokenStream abc_source 0)
      = Ok r c'.
Proof.
  assert (E : (Seek (-1) (-1) ;;; Index) (NewCommonTokenStream abc_source 0)
              = Panic IndexOutOfRange) by (vm_compute; reflexivity).
  split; [exact E|]. intros (r & c' & H). rewrite E in H. discriminate.
Qed.

Lemma Seek_then_Index_witness :
  exists r c',
    (Seek (-1) 1 ;;; Index) (NewCommonTokenStream abc_source 0) = Ok r c' /\
    channel c' = 0 /\
    ((1 <= r /\
      (exists t, at_index (tokens c') r = Some t /\
                 GetChannel t = channel c') /\
      (forall j t, 1 <= j < r -> at_index (tokens c') j = Some t ->
                   GetChannel t <> channel c')) \/
     (r = -1 /\ fetchedEOF c' = true /\
      (forall j t, 1 <= j -> at_index (tokens c') j = Some t ->
                   GetChannel t <> channel c'))).
Proof.
  apply (Seek_then_Index (-1) 0 1 (NewCommonTokenStream abc_source 0)).
  - apply reach_new.
  - lia.
Defined.

Lemma fetch_until_exhaustion_witness :
  exists c,
    fetch_all (-1) [2; 0; 5] (NewCommonTokenStream abc_source 0) = Ok tt c /\
    (fetchedEOF c = true ->
     (exists pre e,
        tokens c = pre ++ [e] /\ isEOF (-1) e /\
        Forall (fun t => ~ isEOF (-1) t) pre) /\
     (forall n, fetch (-1) n c = Ok 0 c)) /\
    (fetchedEOF c = false ->
     Forall (fun t => ~ isEOF (-1) t) (tokens c) /\
     (forall n, Z.of_nat (length (pending (tokenSource c))) < n ->
                exists r c', fetch (-1) n c = Ok r c' /\ fetchedEOF c' = true)).
Proof. exact (fetch_until_exhaustion (-1) abc_source 0 [2; 0; 5]). Defined.

Lemma token_index_stable_witness :
  let c := after (-1) 0 (OpFetch 2) (NewCommonTokenStream abc_source 0) in
  exists c',
    run_all (-1) 0 [OpFill; OpSeek 2; OpConsume] c = Ok tt c' /\
    GetTokenIndex (mkToken 1 0 "b" 1) = 1 /\
    at_index (tokens c') 1 = Some (mkToken 1 0 "b" 1).
Proof.
  intros c. eexists. split; [vm_compute; reflexivity|].
  apply (token_index_stable (-1) 0 [OpFill; OpSeek 2; OpConsume] c).
  - apply (reach_run (-1) 0 (OpFetch 2) (NewCommonTokenStream abc_source 0)).
    + apply reach_new.
    + vm_compute. reflexivity.
  - vm_compute. reflexivity.
  - vm_compute. reflexivity.
Defined.

Lemma Consume_eof_iff_witness :
  let c := after (-1) 0 (OpSeek 3) (NewCommonTokenStream abc_source 0) in
  at_index (tokens c) (index c) = Some (mkToken (-1) 0 "<EOF>" 3) /\
  Consume (-1) c = Panic CannotConsumeEOF.
Proof.
  intros c. split; [vm_compute; reflexivity|].
  assert (Hreach : reachable (-1) 0 c).
  { apply (reach_run (-1) 0 (OpSeek 3) (NewCommonTokenStream abc_source 0)).
    - apply reach_new.
    - vm_compute. reflexivity. }
  apply (proj1 (proj2 (Consume_eof_iff (-1) 0 c Hreach))
               (mkToken (-1) 0 "<EOF>" 3)).
  - vm_compute. reflexivity.
  - reflexivity.
Defined.

(** C6 fails on the code: on the stream over three tokens, filled, the
    buffer has length 4 and [Get 4] panics with an index out of range. *)
Lemma Get_beyond_buffer_panics :
  let c := after (-1) 0 OpFill (NewCommonTokenStream abc_source 0) in
  size c = 4 /\ 0 <= 4 /\ size c <= 4 /\
  Get (-1) 4 c = Panic IndexOutOfRange.
Proof. repeat split; try lia; vm_compute; reflexivity || discriminate. Qed.

Lemma Get_in_or_out_of_range_witness :
  let c := after (-1) 0 OpFill (NewCommonTokenStream abc_source 0) in
  exists c',
    lazyInit (-1) c = Ok tt c' /\
    (index c <> -1 -> c' = c) /\
    (forall t, at_index (tokens c') 7 = Some t -> Get (-1) 7 c = Ok t c') /\
    (7 < 0 \/ size c' <= 7 -> Get (-1) 7 c = Panic IndexOutOfRange).
Proof.
  intros c. apply (Get_in_or_out_of_range (-1) 0 7 c).
  apply (reach_run (-1) 0 OpFill (NewCommonTokenStream abc_source 0)).
  - apply reach_new.
  - vm_compute. reflexivity.
Defined.


Lemma GetTextFromInterval_text_witness :
  exists c',
    (Fill (-1) ;;; sz <- Size ;; GetTextFromInterval (-1) (Some (0, sz - 1)))
      (NewCommonTokenStream abc_source 0)
    = Ok "abc"%string c'.
Proof.
  apply (proj2 (proj2 (GetTextFromInterval_text (-1) 0))
               (tok 1 0 "a") (tok 1 0 "b") (tok 1 0 "c") 0 "<EOF>"%string 0);
    try reflexivity; unfold isEOF; cbn; lia.
Defined.

Lemma Fill_idempotent_witness :
  exists c1,
    Fill (-1) (NewCommonTokenStream abc_source 0) = Ok tt c1 /\
    (Fill (-1) ;;; Fill (-1)) (NewCommonTokenStream abc_source 0)
    = Ok tt c1 /\
    fetchedEOF c1 = true.
Proof.
  apply (Fill_idempotent (-1) 0 (NewCommonTokenStream abc_source 0)).
  apply reach_new.
Defined.

Lemma SetTokenSource_keeps_fetchedEOF_witness :
  let c := after (-1) 0 OpFill (NewCommonTokenStream abc_source 0) in
  exists c',
    SetTokenSource abc_source c = Ok tt c' /\
    tokens c' = [] /\ index c' = -1 /\ fetchedEOF c' = true /\
    fetch (-1) 3 c' = Ok 0 c' /\
    forall os c'', run_all (-1) 0 os c' = Ok tt c'' ->
                   tokens c'' = [] /\ tokenSource c'' = abc_source.
Proof.
  intros c.
  destruct (SetTokenSource_keeps_fetchedEOF (-1) 0 abc_source c)
    as (c' & Hset & Hsrc & Htok & Hidx & Hflag & _ & Hdone).
  assert (Hc : fetchedEOF c = true) by (vm_compute; reflexivity).
  destruct (Hdone Hc) as [Hfetch Hops].
  exists c'. split; [exact Hset|]. split; [exact Htok|].
  split; [exact Hidx|]. split; [congruence|].
  split; [apply Hfetch|]. intros os c'' Hrun.
  destruct (Hops os c'' Hrun) as [H1 H2]. split; [exact H1|]. exact H2.
Defined.

(** ** Further theorems at sample inputs *)

(** The stream over [abc_source], filled, is one a client can get; so is
    the stream [Seek] leaves. *)
Lemma reachable_filled :
  reachable (-1) 0 (after (-1) 0 OpFill (NewCommonTokenStream abc_source 0)).
Proof.
  apply (reach_run (-1) 0 OpFill (NewCommonTokenStream abc_source 0)).
  - apply reach_new.
  - vm_compute. reflexivity.
Defined.

Lemma reachable_sought i c' :
  run (-1) 0 (OpSeek i) (NewCommonTokenStream abc_source 0) = Ok tt c' ->
  reachable (-1) 0 c'.
Proof.
  intros H.
  apply (reach_run (-1) 0 (OpSeek i) (NewCommonTokenStream abc_source 0)).
  - apply reach_new.
  - exact H.
Defined.


Lemma fetch_appends_next_tokens_witness :
  exists r c',
    fetch (-1) 2 (NewCommonTokenStream abc_source 0) = Ok r c' /\
    tokens c' =
      number_from 0 (firstn (Z.to_nat r) (upcoming (-1) abc_source)) /\
    0 < r <= 2.
Proof.
  destruct (fetch_appends_next_tokens (-1) 2
              (NewCommonTokenStream abc_source 0))
    as (r & c' & Hf & _ & _ & Ht & _ & Hr & _); [reflexivity|].
  exists r, c'. split; [exact Hf|]. split; [exact Ht|]. apply Hr. lia.
Defined.

Lemma buffer_is_prefix_of_input_witness :
  let c := after (-1) 0 (OpSeek 1) (NewCommonTokenStream abc_source 0) in
  tokens c =
    number_from 0 (firstn (length (tokens c)) (upcoming (-1) abc_source)).
Proof.
  intros c.
  apply (buffer_is_prefix_of_input (-1) 0 abc_source 0 [OpSeek 1] c).
  vm_compute. reflexivity.
Defined.

Lemma previousTokenOnChannel_nearest_witness :
  let c := after (-1) 0 OpFill
             (NewCommonTokenStream
                (hidden_source "x" " " "  " "y" "<EOF>") 0) in
  exists r,
    previousTokenOnChannel 2 0 c = Ok r c /\ -1 <= r <= 2 /\
    (r = -1 \/
     exists t, at_index (tokens c) r = Some t /\ GetChannel t = 0) /\
    (forall j t, r < j <= 2 -> at_index (tokens c) j = Some t ->
                 GetChannel t <> 0).
Proof.
  intros c. apply (proj1 (previousTokenOnChannel_nearest 2 0 c)).
  vm_compute. split; [discriminate | reflexivity].
Defined.

Lemma getHiddenTokensToRight_range_witness :
  let c := NewCommonTokenStream (hidden_source "x" " " "  " "y" "<EOF>") 0 in
  exists c1,
    lazyInit (-1) c = Ok tt c1 /\
    (size c1 <= 9 ->
     getHiddenTokensToRight (-1) 0 9 (-1) c
     = Panic (NotInRange 9 (size c1 - 1))).
Proof.
  intros c.
  destruct (getHiddenTokensToRight_range (-1) 0 9 (-1) c)
    as (c1 & Hinit & Hout & _).
  - apply reach_new.
  - exists c1. split; [exact Hinit|]. intros Hs. apply Hout. right. exact Hs.
Defined.

Lemma getHiddenTokensToLeft_range_witness :
  let c := NewCommonTokenStream (hidden_source "x" " " "  " "y" "<EOF>") 0 in
  exists c1,
    lazyInit (-1) c = Ok tt c1 /\
    (0 < size c1 -> getHiddenTokensToLeft (-1) 0 0 (-1) c = Ok [] c1).
Proof.
  intros c.
  destruct (getHiddenTokensToLeft_range (-1) 0 0 (-1) c)
    as (c1 & Hinit & _ & Hin).
  - apply reach_new.
  - exists c1. split; [exact Hinit|]. intros Hs.
    destruct (Hin (conj (Z.le_refl 0) Hs)) as (p & _ & _ & _ & _ & _ & H0).
    apply H0. reflexivity.
Defined.

Lemma Seek_back_restores_cursor_witness :
  let c := after (-1) 0 (OpSeek 1) (NewCommonTokenStream abc_source 0) in
  exists c',
    run_all (-1) 0 [OpFill; OpConsume] c = Ok tt c' /\
    Seek (-1) 1 c' = Ok tt (set_index 1 c').
Proof.
  intros c. eexists. split; [vm_compute; reflexivity|].
  apply (Seek_back_restores_cursor (-1) 0 [OpFill; OpConsume] c).
  - apply (reachable_sought 1). vm_compute. reflexivity.
  - vm_compute. discriminate.
  - vm_compute. reflexivity.
Defined.

Lemma Seek_0_then_LT_1_witness :
  exists c',
    Seek (-1) 0 (NewCommonTokenStream abc_source 0) = Ok tt c' /\
    ((exists t,
        at_index (tokens c') (index c') = Some t /\
        GetChannel t = channel c' /\
        (forall j t', 0 <= j < index c' ->
                      at_index (tokens c') j = Some t' ->
                      GetChannel t' <> channel c') /\
        LT (-1) 1 c' = Ok (Some t) c') \/
     (index c' = -1 /\ fetchedEOF c' = true /\
      (forall j t', at_index (tokens c') j = Some t' ->
                    GetChannel t' <> channel c') /\
      LT (-1) 1 c' = Panic IndexOutOfRange)).
Proof.
  apply (Seek_0_then_LT_1 (-1) 0 (NewCommonTokenStream abc_source 0)).
  apply reach_new.
Defined.

Lemma stream_invariants_witness :
  let c := after (-1) 0 OpFill (NewCommonTokenStream abc_source 0) in
  (index c = -1 \/
   exists t, at_index (tokens c) (index c) = Some t /\
             GetChannel t = channel c) /\
  (forall j t, at_index (tokens c) j = Some t ->
               (GetTokenType t = -1 <->
                fetchedEOF c = true /\ j = size c - 1)).
Proof.
  intros c. apply (stream_invariants (-1) 0 c). apply reachable_filled.
Defined.

Lemma operations_only_append_witness :
  let c := NewCommonTokenStream abc_source 0 in
  exists c',
    run_all (-1) 0 [OpLT 2; OpConsume] c = Ok tt c' /\
    channel c' = channel c /\
    (exists l, tokens c' = tokens c ++ l).
Proof.
  intros c.
  assert (H : exists c', run_all (-1) 0 [OpLT 2; OpConsume] c = Ok tt c').
  { eexists. vm_compute. reflexivity. }
  destruct H as [c' H]. exists c'. split; [exact H|].
  destruct (operations_only_append (-1) 0 [OpLT 2; OpConsume] c c' H)
    as (Hc & Hl & _).
  split; assumption.
Defined.

Lemma Get_token_has_its_index_witness :
  let c := after (-1) 0 OpFill (NewCommonTokenStream abc_source 0) in
  exists t c',
    Get (-1) 1 c = Ok t c' /\
    GetTokenIndex t = 1 /\ at_index (tokens c') 1 = Some t /\
    lazyInit (-1) c = Ok tt c'.
Proof.
  intros c.
  assert (H : exists t c', Get (-1) 1 c = Ok t c').
  { do 2 eexists. vm_compute. reflexivity. }
  destruct H as (t & c' & H). exists t, c'. split; [exact H|].
  apply (Get_token_has_its_index (-1) 0 1 c t c'); [|exact H].
  apply reachable_filled.
Defined.

Lemma LA_0_panics_witness :
  (exists c', LT (-1) 0 (NewCommonTokenStream abc_source 0) = Ok None c') /\
  LA (-1) 0 (NewCommonTokenStream abc_source 0) = Panic NilDereference.
Proof.
  apply (LA_0_panics (-1) 0 (NewCommonTokenStream abc_source 0)).
  apply reach_new.
Defined.

Lemma rebound_after_end_is_empty_witness :
  let c := after (-1) 0 OpFill (NewCommonTokenStream abc_source 0) in
  exists c',
    SetTokenSource abc_source c = Ok tt c' /\
    (forall i, 0 <= i -> Seek (-1) i c' = Ok tt c') /\
    (forall k, 0 < k -> LT (-1) k c' = Panic IndexOutOfRange) /\
    Consume (-1) c' = Panic IndexOutOfRange /\
    GetAllText (-1) c' = Ok EmptyString c'.
Proof.
  intros c.
  assert (H : exists c', SetTokenSource abc_source c = Ok tt c').
  { eexists. vm_compute. reflexivity. }
  destruct H as [c' H]. exists c'. split; [exact H|].
  apply (rebound_after_end_is_empty (-1) abc_source c c'); [|exact H].
  vm_compute. reflexivity.
Defined.


Lemma GetTokens_range_witness :
  let c := after (-1) 0 OpFill (NewCommonTokenStream abc_source 0) in
  exists c1,
    lazyInit (-1) c = Ok tt c1 /\
    GetTokens (-1) 0 2 None c =
    Ok (filter (types_admit None)
               (before_eof (-1)
                  (slice (tokens c1) 0 (Z.min 2 (size c1 - 1) - 1)))) c1.
Proof.
  intros c. apply (proj2 (GetTokens_range (-1) 0 0 2 None c)); try lia.
  apply reachable_filled.
Defined.

Lemma getNumberOfOnChannelTokens_counts_witness :
  let c := NewCommonTokenStream (hidden_source "x" " " "  " "y" "<EOF>") 0 in
  exists c',
    getNumberOfOnChannelTokens (-1) c =
    Ok (Z.of_nat (length (filter (on_channel_b 0) (tokens c')))) c' /\
    fetchedEOF c' = true /\
    (exists l, tokens c' = tokens c ++ l).
Proof.
  intros c. apply (getNumberOfOnChannelTokens_counts (-1) 0 c).
  apply reach_new.
Defined.

Lemma GetTextFromTokens_of_buffered_witness :
  let c := after (-1) 0 OpFill (NewCommonTokenStream abc_source 0) in
  exists c',
    fetchedEOF c' = true /\
    GetTextFromTokens (-1) (Some (mkToken 1 0 "a" 0))
                      (Some (mkToken 1 0 "c" 2)) c =
    Ok (concat_text
          (before_eof (-1) (slice (tokens c') 0 (Z.min 2 (size c' - 1))))) c'.
Proof.
  intros c.
  apply (proj1 (GetTextFromTokens_of_buffered (-1) 0 c 0 2
                  (mkToken 1 0 "a" 0) (mkToken 1 0 "c" 2)
                  reachable_filled eq_refl eq_refl)).
Defined.

Lemma Fill_buffers_whole_input_witness :
  exists c,
    Fill (-1) (NewCommonTokenStream abc_source 0) = Ok tt c /\
    tokens c = number_from 0 (upto_eof (-1) (upcoming (-1) abc_source)).
Proof. exact (proj1 (Fill_buffers_whole_input (-1) 0 abc_source 0)). Defined.

Lemma Consume_moves_forward_witness :
  let c := NewCommonTokenStream abc_source 0 in
  exists c' c1,
    Consume (-1) c = Ok tt c' /\
    lazyInit (-1) c = Ok tt c1 /\ 0 <= index c1 /\
    (exists l, tokens c' = tokens c1 ++ l).
Proof.
  intros c.
  assert (H : exists c', Consume (-1) c = Ok tt c').
  { eexists. vm_compute. reflexivity. }
  destruct H as [c' H].
  destruct (Consume_moves_forward (-1) 0 c c' (reach_new (-1) 0 abc_source 0) H)
    as (c1 & Hinit & Hidx & Hl & _).
  exists c', c1. split; [exact H|]. split; [exact Hinit|].
  split; [exact Hidx | exact Hl].
Defined.





Lemma GetTextFromInterval_splits_witness :
  exists s1 s2 c',
    GetTextFromInterval (-1) (Some (0, 0)) (NewCommonTokenStream abc_source 0)
    = Ok s1 c' /\
    GetTextFromInterval (-1) (Some (0 + 1, 2))
                        (NewCommonTokenStream abc_source 0)
    = Ok s2 c' /\
    GetTextFromInterval (-1) (Some (0, 2)) (NewCommonTokenStream abc_source 0)
    = Ok (s1 ++ s2)%string c'.
Proof.
  apply (GetTextFromInterval_splits (-1) 0 0 0 2
           (NewCommonTokenStream abc_source 0)).
  - apply reach_new.
  - lia.
  - lia.
Defined.

Lemma lazyInit_idempotent_witness :
  let c := NewCommonTokenStream abc_source 0 in
  exists c1,
    lazyInit (-1) c = Ok tt c1 /\ lazyInit (-1) c1 = Ok tt c1 /\
    (index c <> -1 -> c1 = c).
Proof.
  intros c. apply (lazyInit_idempotent (-1) 0 c). apply reach_new.
Defined.

Lemma Seek_idempotent_witness :
  let c := NewCommonTokenStream (hidden_source "x" " " "  " "y" "<EOF>") 0 in
  exists c', Seek (-1) 1 c = Ok tt c' /\ Seek (-1) 1 c' = Ok tt c'.
Proof.
  intros c. apply (Seek_idempotent (-1) 0 1 c).
  - apply reach_new.
  - lia.
Defined.

Lemma Consume_then_LB_1_witness :
  let c := NewCommonTokenStream abc_source 0 in
  exists c' t c1,
    Consume (-1) c = Ok tt c' /\
    LT (-1) 1 c = Ok (Some t) c1 /\ LB 1 c' = Ok (Some t) c'.
Proof.
  intros c.
  assert (H : exists c', Consume (-1) c = Ok tt c' /\ index c' <> -1).
  { eexists. split; vm_compute; [reflexivity | discriminate]. }
  destruct H as (c' & Hrun & Hne).
  destruct (Consume_then_LB_1 (-1) 0 c c' (reach_new (-1) 0 abc_source 0)
              Hrun Hne) as (t & c1 & HLT & HLB & _).
  exists c', t, c1. split; [exact Hrun|]. split; [exact HLT | exact HLB].
Defined.

Lemma LA_looks_back_witness :
  let c := NewCommonTokenStream abc_source 0 in
  exists c1,
    lazyInit (-1) c = Ok tt c1 /\
    (index c1 + -1 < 0 -> LA (-1) (-1) c = Panic NilDereference).
Proof.
  intros c.
  destruct (LA_looks_back (-1) 0 (-1) c) as (c1 & Hinit & _ & Hshort & _).
  - apply reach_new.
  - lia.
  - exists c1. split; [exact Hinit|]. intros H. apply (Hshort H).
Defined.
